(** * telegram-preprocessor: a shallow embedding of [index.mjs] and [proxy.mjs]

    JavaScript strings are sequences of UTF-16 code units; a string is a
    [list N] here, so that [length] is the JavaScript [.length] and the
    bullet, the middle dot and the em-dash are one unit each.  Regular
    expressions are kept as syntax trees and run by a backtracking matcher
    that follows the ECMAScript pattern semantics (continuation passing,
    greedy and lazy quantifiers, capture groups, back-references, anchors
    under the [m] flag).  The [while] loop of [splitChunksSafe], the only
    loop of the program that can fail to terminate, takes fuel. *)

From Stdlib Require Import ZArith NArith List Bool Lia String Ascii.
From stdpp Require Import base list gmap strings.

Local Open Scope N_scope.

(** ** Code units and literals *)

Abbreviation str := (list N).

(** An ASCII literal of the source, unit by unit. *)
Definition lit (s : string) : str :=
  List.map N_of_ascii (list_ascii_of_string s).

Definition NUL : N := 0.
Definition LF : N := 10.
Definition CR : N := 13.
Definition SP : N := 32.
Definition AMP : N := 38.
Definition LT : N := 60.
Definition GT : N := 62.
Definition BACKTICK : N := 96.
Definition PIPE : N := 124.
Definition MIDDOT : N := 0xB7.
Definition EMDASH : N := 0x2014.
Definition BULLET : N := 0x2022.

(** ** Character classes of ECMAScript *)

Definition isLineTerminator (c : N) : bool :=
  (c =? 10) || (c =? 13) || (c =? 0x2028) || (c =? 0x2029).

Definition isWhiteSpace (c : N) : bool :=
  (c =? 9) || (c =? 11) || (c =? 12) || (c =? 32) || (c =? 0xA0)
  || (c =? 0x1680) || ((0x2000 <=? c) && (c <=? 0x200A))
  || (c =? 0x202F) || (c =? 0x205F) || (c =? 0x3000) || (c =? 0xFEFF).

(** [\s], and the set that [trim], [trimEnd] strip. *)
Definition isSpace (c : N) : bool := isWhiteSpace c || isLineTerminator c.

(** [\d] *)
Definition isDigit (c : N) : bool := (48 <=? c) && (c <=? 57).

(** [\w] *)
Definition isWord (c : N) : bool :=
  ((97 <=? c) && (c <=? 122)) || ((65 <=? c) && (c <=? 90)) || isDigit c || (c =? 95).

(** [[\da-fA-F]] *)
Definition isHex (c : N) : bool :=
  isDigit c || ((97 <=? c) && (c <=? 102)) || ((65 <=? c) && (c <=? 70)).

(** [.] without the [s] flag *)
Definition isDot (c : N) : bool := negb (isLineTerminator c).

(** [[\s\S]] *)
Definition isAny (c : N) : bool := true.

(** ** String built-ins *)

Fixpoint trimStart (s : str) : str :=
  match s with
  | c :: t => if isSpace c then trimStart t else s
  | [] => []
  end.

Fixpoint trimEnd (s : str) : str :=
  match s with
  | [] => []
  | c :: t =>
      match trimEnd t with
      | [] => if isSpace c then [] else [c]
      | t' => c :: t'
      end
  end.

Definition trim (s : str) : str := trimEnd (trimStart s).

Fixpoint isPrefix (p s : str) : bool :=
  match p, s with
  | [], _ => true
  | a :: p', b :: s' => (a =? b) && isPrefix p' s'
  | _ :: _, [] => false
  end.

(** [s.indexOf(p)], [-1] when absent. *)
Fixpoint indexOf (p s : str) : Z :=
  if isPrefix p s then 0%Z
  else match s with
       | [] => (-1)%Z
       | _ :: t => let r := indexOf p t in if (r <? 0)%Z then (-1)%Z else (r + 1)%Z
       end.

Definition includes (p s : str) : bool := (0 <=? indexOf p s)%Z.

(** [s.lastIndexOf(p)], [-1] when absent. *)
Fixpoint lastIndexOf (p s : str) : Z :=
  match s with
  | [] => if isPrefix p [] then 0%Z else (-1)%Z
  | _ :: t =>
      let r := lastIndexOf p t in
      if (0 <=? r)%Z then (r + 1)%Z
      else if isPrefix p s then 0%Z else (-1)%Z
  end.

(** Relative indices of [slice]: a negative index counts from the end. *)
Definition relIndex (len i : Z) : Z :=
  if (i <? 0)%Z then Z.max (len + i) 0 else Z.min i len.

(** [s.slice(a, b)] *)
Definition slice (s : str) (a b : Z) : str :=
  let len := Z.of_nat (length s) in
  let from := relIndex len a in
  let to := relIndex len b in
  take (Z.to_nat (to - from)) (drop (Z.to_nat from) s).

(** [s.split(sep)] for a string separator.  [skip] counts the units of a
    separator just recognised that are still to be passed over. *)
Fixpoint splitBy (sep : str) (skip : nat) (s : str) : list str :=
  match s with
  | [] => [[]]
  | c :: t =>
      match skip with
      | S k => splitBy sep k t
      | O =>
          if isPrefix sep s then [] :: splitBy sep (length sep - 1) t
          else match splitBy sep 0 t with
               | h :: r => (c :: h) :: r
               | [] => [[c]]
               end
      end
  end.

Definition split (sep s : str) : list str :=
  match sep with
  | [] => List.map (fun c => [c]) s
  | _ => splitBy sep 0 s
  end.

(** [a.join(sep)] *)
Fixpoint join (sep : str) (l : list str) : str :=
  match l with
  | [] => []
  | [x] => x
  | x :: r => x ++ sep ++ join sep r
  end.

(** [s.replace(pat, rep)] for a string pattern: the first occurrence only.
    The replacements used by the program contain no [$]. *)
Fixpoint replaceFirst (pat rep s : str) : str :=
  if isPrefix pat s then rep ++ drop (length pat) s
  else match s with
       | [] => []
       | c :: t => c :: replaceFirst pat rep t
       end.

(** Decimal digits of an array index, as [`${i}`] prints it. *)
Fixpoint uintStr (u : Decimal.uint) : str :=
  match u with
  | Decimal.Nil => []
  | Decimal.D0 u => 48 :: uintStr u
  | Decimal.D1 u => 49 :: uintStr u
  | Decimal.D2 u => 50 :: uintStr u
  | Decimal.D3 u => 51 :: uintStr u
  | Decimal.D4 u => 52 :: uintStr u
  | Decimal.D5 u => 53 :: uintStr u
  | Decimal.D6 u => 54 :: uintStr u
  | Decimal.D7 u => 55 :: uintStr u
  | Decimal.D8 u => 56 :: uintStr u
  | Decimal.D9 u => 57 :: uintStr u
  end.

Definition natStr (n : nat) : str := uintStr (Nat.to_uint n).

(** [Boolean(s)] for a string. *)
Definition nonEmpty (s : str) : bool :=
  match s with [] => false | _ => true end.

(** ** Regular expressions *)

Inductive regex : Type :=
| REmpty
| RChar (p : N -> bool)
| RSeq (r1 r2 : regex)
| RAlt (r1 r2 : regex)
| RRep (greedy : bool) (lo : nat) (hi : option nat) (r : regex)
| RGroup (i : nat) (r : regex)
| RBackref (i : nat)
| RBol
| REol
| RNotBehind (p : N -> bool)
| RNotAhead (p : N -> bool).

Record RegExp : Type := mkRegExp {
  source : regex;
  global : bool;
  multiline : bool
}.

(** A literal run of units. *)
Fixpoint RLit (s : str) : regex :=
  match s with
  | [] => REmpty
  | [c] => RChar (N.eqb c)
  | c :: t => RSeq (RChar (N.eqb c)) (RLit t)
  end.

Definition RStar (p : N -> bool) : regex := RRep true 0 None (RChar p).
Definition RPlus (p : N -> bool) : regex := RRep true 1 None (RChar p).

(** The state of a match in progress: the unit before the current position
    (for [^] and look-behind), the input still to read, the captures. *)
Record mstate : Type := mkMstate {
  ms_prev : option N;
  ms_rest : str;
  ms_caps : list (nat * str)
}.

Definition cont : Type := mstate -> option mstate.

Fixpoint getCap (i : nat) (caps : list (nat * str)) : option str :=
  match caps with
  | [] => None
  | (j, w) :: r => if (i =? j)%nat then Some w else getCap i r
  end.

Fixpoint groupsOf (r : regex) : list nat :=
  match r with
  | RSeq a b | RAlt a b => groupsOf a ++ groupsOf b
  | RRep _ _ _ a => groupsOf a
  | RGroup i a => i :: groupsOf a
  | _ => []
  end.

Definition clearCaps (gs : list nat) (x : mstate) : mstate :=
  mkMstate (ms_prev x) (ms_rest x)
    (List.filter (fun '(j, _) => negb (existsb (Nat.eqb j) gs)) (ms_caps x)).

Definition lastUnit (prev : option N) (w : str) : option N :=
  match w with
  | [] => prev
  | _ => last w
  end.

(** RepeatMatcher of the ECMAScript specification.  [fuel] bounds the number
    of iterations; every iteration either lowers [lo] or reads a unit. *)
Fixpoint repLoop (body : mstate -> cont -> option mstate) (inner : list nat)
    (greedy : bool) (fuel lo : nat) (hi : option nat) (x : mstate) (c : cont)
    : option mstate :=
  match fuel with
  | O => None
  | S fuel' =>
      match hi with
      | Some O => c x
      | _ =>
          let d : cont := fun y =>
            if (lo =? 0)%nat && (length (ms_rest y) =? length (ms_rest x))%nat
            then None
            else repLoop body inner greedy fuel' (pred lo) (pred <$> hi) y c in
          let xr := clearCaps inner x in
          if (lo =? 0)%nat then
            if greedy then
              match body xr d with Some z => Some z | None => c x end
            else
              match c x with Some z => Some z | None => body xr d end
          else body xr d
      end
  end.

Fixpoint rxMatch (ml : bool) (r : regex) (x : mstate) (c : cont) {struct r}
    : option mstate :=
  match r with
  | REmpty => c x
  | RChar p =>
      match ms_rest x with
      | ch :: t => if p ch then c (mkMstate (Some ch) t (ms_caps x)) else None
      | [] => None
      end
  | RSeq a b => rxMatch ml a x (fun y => rxMatch ml b y c)
  | RAlt a b =>
      match rxMatch ml a x c with
      | Some z => Some z
      | None => rxMatch ml b x c
      end
  | RRep g lo hi a =>
      repLoop (rxMatch ml a) (groupsOf a) g (lo + length (ms_rest x) + 1) lo hi x c
  | RGroup i a =>
      rxMatch ml a x (fun y =>
        c (mkMstate (ms_prev y) (ms_rest y)
             ((i, take (length (ms_rest x) - length (ms_rest y)) (ms_rest x))
                :: ms_caps y)))
  | RBackref i =>
      match getCap i (ms_caps x) with
      | None => c x
      | Some w =>
          if isPrefix w (ms_rest x)
          then c (mkMstate (lastUnit (ms_prev x) w) (drop (length w) (ms_rest x)) (ms_caps x))
          else None
      end
  | RBol =>
      match ms_prev x with
      | None => c x
      | Some p => if ml && isLineTerminator p then c x else None
      end
  | REol =>
      match ms_rest x with
      | [] => c x
      | ch :: _ => if ml && isLineTerminator ch then c x else None
      end
  | RNotBehind p =>
      match ms_prev x with
      | Some q => if p q then None else c x
      | None => c x
      end
  | RNotAhead p =>
      match ms_rest x with
      | ch :: _ => if p ch then None else c x
      | [] => c x
      end
  end.

(** A successful match: where it starts, what it covers, its captures, and
    the input after it. *)
Record rmatch : Type := mkRmatch {
  m_index : nat;
  m_text : str;
  m_caps : list (nat * str);
  m_prev : option N;
  m_after : str
}.

(** [m[i]]: the text of group [i], [undefined] when it did not take part. *)
Definition group (m : rmatch) (i : nat) : option str := getCap i (m_caps m).

Definition matchHere (re : RegExp) (prev : option N) (rest : str) : option mstate :=
  rxMatch (multiline re) (source re) (mkMstate prev rest []) Some.

(** The search of [exec]: the first position, from the current one on, at
    which the pattern matches. *)
Fixpoint rxSearch (re : RegExp) (prev : option N) (rest : str) (idx : nat)
    : option rmatch :=
  match matchHere re prev rest with
  | Some y =>
      Some (mkRmatch idx (take (length rest - length (ms_rest y)) rest)
              (ms_caps y) (ms_prev y) (ms_rest y))
  | None =>
      match rest with
      | [] => None
      | ch :: t => rxSearch re (Some ch) t (S idx)
      end
  end.

(** [re.test(s)] for a pattern without the [g] flag. *)
Definition test (re : RegExp) (s : str) : bool :=
  match rxSearch re None s 0 with Some _ => true | None => false end.

(** The matches a [g] pattern yields one after the other, as the loop
    [while ((m = re.exec(s)) !== null)] and [replace] see them.  After an
    empty match the search moves on by one unit, as [replace] does; no
    pattern of the program matches the empty string. *)
Fixpoint execAll (fuel : nat) (re : RegExp) (prev : option N) (rest : str)
    (base : nat) : list rmatch :=
  match fuel with
  | O => []
  | S fuel' =>
      match rxSearch re prev rest base with
      | None => []
      | Some m =>
          m :: match m_text m, m_after m with
               | [], ch :: t => execAll fuel' re (Some ch) t (S (m_index m))
               | [], [] => []
               | _ :: _, after =>
                   execAll fuel' re (m_prev m) after (m_index m + length (m_text m))
               end
      end
  end.

Definition matchAll (re : RegExp) (s : str) : list rmatch :=
  execAll (S (length s)) re None s 0.

(** Replacement templates: literal text and [$n]. *)
Inductive rpart : Type :=
| PLit (s : str)
| PGroup (i : nat).

Fixpoint expand (tpl : list rpart) (m : rmatch) : str :=
  match tpl with
  | [] => []
  | PLit s :: r => s ++ expand r m
  | PGroup i :: r => default [] (group m i) ++ expand r m
  end.

(** Splices replacements for the matches [ms], given in order, into [s];
    [pos] is the index of the first unit of [s]. *)
Fixpoint splice (tpl : list rpart) (ms : list rmatch) (pos : nat) (s : str) : str :=
  match ms with
  | [] => s
  | m :: r =>
      take (m_index m - pos) s ++ expand tpl m
        ++ splice tpl r (m_index m + length (m_text m))
             (drop (m_index m - pos + length (m_text m)) s)
  end.

(** [s.replace(re, tpl)]: every match under [g], else the first. *)
Definition replaceRe (re : RegExp) (tpl : list rpart) (s : str) : str :=
  if global re then splice tpl (matchAll re s) 0 s
  else match rxSearch re None s 0 with
       | Some m => splice tpl [m] 0 s
       | None => s
       end.

(** [s.split(re)] for a pattern without groups: SplitMatcher is tried at
    [q]; a match that ends at [p] (empty, at the start of the piece) is
    passed over. *)
Fixpoint splitLoopRe (fuel : nat) (re : RegExp) (prev : option N) (cur rest : str)
    : list str :=
  match fuel with
  | O => [cur ++ rest]
  | S fuel' =>
      match rest with
      | [] => [cur]
      | ch :: t =>
          match matchHere re prev rest with
          | Some y =>
              if (length (ms_rest y) =? length rest)%nat && negb (nonEmpty cur)
              then splitLoopRe fuel' re (Some ch) (cur ++ [ch]) t
              else if (length (ms_rest y) =? length rest)%nat
              then cur :: splitLoopRe fuel' re prev [] rest
              else cur :: splitLoopRe fuel' re (ms_prev y) [] (ms_rest y)
          | None => splitLoopRe fuel' re (Some ch) (cur ++ [ch]) t
          end
      end
  end.

Definition splitRe (re : RegExp) (s : str) : list str :=
  match s with
  | [] => match matchHere re None [] with Some _ => [] | None => [[]] end
  | _ => splitLoopRe (2 * length s + 2) re None [] s
  end.

(** ** index.mjs *)

Definition TELEGRAM_MAX_LENGTH : Z := 4096.
Definition FENCE_PLACEHOLDER_PREFIX : str := NUL :: lit "FENCE".
Definition FENCE_PLACEHOLDER_SUFFIX : str := [NUL].

(** The patterns [/&/g], [/</g] and [/>/g]. *)
Definition ampRe : RegExp := mkRegExp (RChar (N.eqb AMP)) true false.
Definition ltRe : RegExp := mkRegExp (RChar (N.eqb LT)) true false.
Definition gtRe : RegExp := mkRegExp (RChar (N.eqb GT)) true false.

Definition escapeHtml (text : str) : str :=
  replaceRe gtRe [PLit (lit "&gt;")]
    (replaceRe ltRe [PLit (lit "&lt;")]
       (replaceRe ampRe [PLit (lit "&amp;")] text)).

Record FenceBlock : Type := mkFenceBlock {
  lang : str;
  body : str;
  fenceType : str
}.

(** The pattern of [extractFencedBlocks], flags [gm], its tokens set apart:
    [( ``` | ~~~ ) ( \w* ) \n ( [\s\S]*? ) \1 \s* $]. *)
Definition fenceRe : RegExp :=
  mkRegExp
    (RSeq (RGroup 1 (RAlt (RLit (lit "```")) (RLit (lit "~~~"))))
       (RSeq (RGroup 2 (RStar isWord))
          (RSeq (RChar (N.eqb LF))
             (RSeq (RGroup 3 (RRep false 0 None (RChar isAny)))
                (RSeq (RBackref 1) (RSeq (RStar isSpace) REol))))))
    true true.

Definition placeholder (i : nat) : str :=
  FENCE_PLACEHOLDER_PREFIX ++ natStr i ++ FENCE_PLACEHOLDER_SUFFIX.

(** The second loop of [extractFencedBlocks]: [i] runs over the matches. *)
Fixpoint replaceMatches (ms : list rmatch) (i : nat) (out : str) : str :=
  match ms with
  | [] => out
  | m :: r => replaceMatches r (S i) (replaceFirst (m_text m) (placeholder i) out)
  end.

Definition extractFencedBlocks (text : str) : str * list FenceBlock :=
  let matches := matchAll fenceRe text in
  let blocks :=
    List.map (fun m =>
      mkFenceBlock (default [] (group m 2)) (default [] (group m 3))
        (default [] (group m 1))) matches in
  (replaceMatches matches 0 text, blocks).

Fixpoint restoreLoop (blocks : list FenceBlock) (i : nat) (toHtml : bool) (out : str)
    : str :=
  match blocks with
  | [] => out
  | b :: r =>
      let escaped := if toHtml then escapeHtml (body b) else body b in
      let lang' := if nonEmpty (lang b) then SP :: lang b else [] in
      let replacement :=
        if toHtml
        then lit "<pre><code" ++ lang' ++ lit ">" ++ escaped ++ lit "</code></pre>"
        else fenceType b ++ lang' ++ [LF] ++ body b ++ [LF] ++ fenceType b ++ [LF] in
      restoreLoop r (S i) toHtml (join replacement (split (placeholder i) out))
  end.

Definition restoreFencedBlocks (text : str) (blocks : list FenceBlock) (toHtml : bool)
    : str :=
  restoreLoop blocks 0 toHtml text.

(** [TABLE_SEPARATOR_RE], its tokens set apart: [^ ( \| [\s\-:]+ )+ \| \s* $];
    [isSepUnit] is the class [[\s\-:]]. *)
Definition isSepUnit (c : N) : bool := isSpace c || (c =? 45) || (c =? 58).

Definition TABLE_SEPARATOR_RE : RegExp :=
  mkRegExp
    (RSeq RBol
       (RSeq (RRep true 1 None (RGroup 1 (RSeq (RChar (N.eqb PIPE)) (RPlus isSepUnit))))
          (RSeq (RChar (N.eqb PIPE)) (RSeq (RStar isSpace) REol))))
    false false.

(** The patterns [/^\|/] and [/\|$/] of [parseRow]. *)
Definition leadPipeRe : RegExp := mkRegExp (RSeq RBol (RChar (N.eqb PIPE))) false false.
Definition trailPipeRe : RegExp := mkRegExp (RSeq (RChar (N.eqb PIPE)) REol) false false.

Definition parseRow (line : str) : list str :=
  let trimmed := replaceRe trailPipeRe [] (replaceRe leadPipeRe [] (trim line)) in
  List.map trim (split [PIPE] trimmed).

(** [lines.findIndex((l, i) => f l i)], [-1] when no line qualifies. *)
Fixpoint findIndexFrom (f : str -> nat -> bool) (i : nat) (l : list str) : Z :=
  match l with
  | [] => (-1)%Z
  | x :: r => if f x i then Z.of_nat i else findIndexFrom f (S i) r
  end.

Definition findIndex (f : str -> nat -> bool) (l : list str) : Z := findIndexFrom f 0 l.

Definition isSeparatorAt (l : str) (i : nat) : bool :=
  (0 <? i)%nat && test TABLE_SEPARATOR_RE l.

Definition bulletOf (headers : list str) (row : str) : str :=
  let cells := parseRow row in
  let display := List.map (fun c => if nonEmpty c then c else [EMDASH]) cells in
  if (length headers =? length display)%nat then
    let pairs :=
      join (SP :: MIDDOT :: [SP])
        (imap (fun i h => h ++ lit ": " ++ default [] (display !! i)) headers) in
    BULLET :: SP :: pairs
  else BULLET :: SP :: join (SP :: MIDDOT :: [SP]) display.

Definition tableToBullets (block : str) : str :=
  let lines := List.map trim (split [LF] block) in
  if (length lines <? 3)%nat then block else
  let first := default [] (lines !! 0%nat) in
  if negb (includes [PIPE] first) then block else
  let sepIdx := findIndex isSeparatorAt lines in
  if (sepIdx <? 1)%Z then block else
  let dataLines := List.filter (includes [PIPE]) (drop (Z.to_nat (sepIdx + 1)) lines) in
  if (length dataLines =? 0)%nat then block else
  let headers := parseRow first in
  join [LF] (List.map (bulletOf headers) dataLines).

Definition processBlock (block : str) : str :=
  let trimmed := trim block in
  if negb (nonEmpty trimmed) then [] else
  let lines := split [LF] trimmed in
  if (length lines <? 3)%nat then trimmed else
  let first := default [] (lines !! 0%nat) in
  if negb (includes [PIPE] first) then trimmed else
  let sepIdx := findIndex isSeparatorAt lines in
  if negb (sepIdx =? 1)%Z then trimmed else
  let dataLines := List.filter (includes [PIPE]) (drop 2 lines) in
  if (length dataLines =? 0)%nat then trimmed else
  tableToBullets trimmed.

(** The patterns [/\r\n/g], [/\r/g] and [/\n{3,}/g] of [normalizeWhitespace]. *)
Definition crlfRe : RegExp := mkRegExp (RLit [CR; LF]) true false.
Definition crRe : RegExp := mkRegExp (RChar (N.eqb CR)) true false.
Definition manyLfRe : RegExp := mkRegExp (RRep true 3 None (RChar (N.eqb LF))) true false.

Definition normalizeWhitespace (text : str) : str :=
  trim
    (join [LF]
       (List.map trimEnd
          (split [LF]
             (replaceRe manyLfRe [PLit [LF; LF]]
                (replaceRe crRe [PLit [LF]]
                   (replaceRe crlfRe [PLit [LF]] text)))))).

(** The pattern [/\n\s*\n/] on which paragraphs are split. *)
Definition blankLineRe : RegExp :=
  mkRegExp (RSeq (RChar (N.eqb LF)) (RSeq (RStar isSpace) (RChar (N.eqb LF)))) false false.

Definition convertTablesToBullets (text : str) : str :=
  let normalized := normalizeWhitespace text in
  let blocks := splitRe blankLineRe normalized in
  let processed := List.filter nonEmpty (List.map processBlock blocks) in
  join [LF; LF] processed.

(** [entityRe], flag [g], its tokens set apart:
    [& (?: # \d+ | #x [\da-fA-F]+ | \w+ ) ;]. *)
Definition entityRe : RegExp :=
  mkRegExp
    (RSeq (RChar (N.eqb AMP))
       (RSeq (RAlt (RSeq (RChar (N.eqb 35)) (RPlus isDigit))
                (RAlt (RSeq (RLit (lit "#x")) (RPlus isHex)) (RPlus isWord)))
          (RChar (N.eqb 59))))
    true false.

(** [tagRe]: [/<[^>]+>/g]. *)
Definition tagRe : RegExp :=
  mkRegExp
    (RSeq (RChar (N.eqb LT)) (RSeq (RPlus (fun c => negb (c =? GT))) (RChar (N.eqb GT))))
    true false.

(** [preRe]: [/<pre[\s>][\s\S]*?<\/pre>/g]. *)
Definition preRe : RegExp :=
  mkRegExp
    (RSeq (RLit (lit "<pre"))
       (RSeq (RChar (fun c => isSpace c || (c =? GT)))
          (RSeq (RRep false 0 None (RChar isAny)) (RLit (lit "</pre>")))))
    true false.

(** One of the three scanning loops of [nextSafeBreak]: [best] is lowered to
    the end of a match that ends beyond the window and before [best]. *)
Definition scanBest (re : RegExp) (segment : str) (start maxLen best : Z) : Z :=
  fold_left (fun best m =>
    let end_ := (start + Z.of_nat (m_index m) + Z.of_nat (length (m_text m)))%Z in
    if (start + maxLen <? end_)%Z && (end_ <? best)%Z then end_ else best)
    (matchAll re segment) best.

Definition bestBreak (text : str) (start maxLen : Z) : Z :=
  let best := (start + maxLen)%Z in
  let segment := slice text start (start + maxLen + 200) in
  let best := scanBest entityRe segment start maxLen best in
  let best := scanBest tagRe segment start maxLen best in
  scanBest preRe segment start maxLen best.

(** [maxLen] is a whole number, so [i > maxLen * 0.5] is [maxLen < 2 * i]. *)
Definition nextSafeBreak (text : str) (start maxLen : Z) : Z :=
  let slice_ := slice text start (start + maxLen) in
  let len := Z.of_nat (length slice_) in
  if (len <? maxLen)%Z then (start + len)%Z else
  let best := bestBreak text start maxLen in
  let lastPara := lastIndexOf [LF; LF] slice_ in
  let lastLine := lastIndexOf [LF] slice_ in
  let breakAt :=
    if (maxLen <? 2 * lastPara)%Z then (lastPara + 1)%Z
    else if (maxLen <? 2 * lastLine)%Z then (lastLine + 1)%Z
    else maxLen in
  (start + breakAt)%Z.

(** The inner loop of [splitChunksSafe], which moves [start] over a run of
    line feeds and spaces; [text[start]] is [undefined] at a negative index. *)
Fixpoint blankRun (s : str) : nat :=
  match s with
  | c :: t => if (c =? LF) || (c =? SP) then S (blankRun t) else O
  | [] => O
  end.

Definition skipBlank (text : str) (start : Z) : Z :=
  if (start <? 0)%Z then start
  else (start + Z.of_nat (blankRun (drop (Z.to_nat start) text)))%Z.

(** The outer loop of [splitChunksSafe]; [None] when the fuel runs out. *)
Fixpoint splitLoop (fuel : nat) (text : str) (maxLen start : Z) (chunks : list str)
    : option (list str) :=
  if (start <? Z.of_nat (length text))%Z then
    match fuel with
    | O => None
    | S fuel' =>
        let breakAt := nextSafeBreak text start maxLen in
        splitLoop fuel' text maxLen (skipBlank text breakAt)
          (chunks ++ [trim (slice text start breakAt)])
    end
  else Some chunks.

Definition splitChunksSafe (fuel : nat) (text : str) (maxLen : Z) : option (list str) :=
  if (Z.of_nat (length text) <=? maxLen)%Z then Some [text]
  else List.filter nonEmpty <$> splitLoop fuel text maxLen 0 [].

(** The patterns of [markdownToTelegramHtmlConservative], tokens set apart:
    [^ ## \s+ ( .+ ) $] with flags [gm]; [\* \* ( [^*\n]{1,80} ) \* \*] and
    [(?<!\w) ` ( [^`]+ ) ` (?!\w)] with flag [g]. *)
Definition headingRe : RegExp :=
  mkRegExp
    (RSeq RBol (RSeq (RLit (lit "##")) (RSeq (RPlus isSpace)
       (RSeq (RGroup 1 (RPlus isDot)) REol))))
    true true.

Definition boldRe : RegExp :=
  mkRegExp
    (RSeq (RLit (lit "**"))
       (RSeq (RGroup 1 (RRep true 1 (Some 80%nat)
                          (RChar (fun c => negb ((c =? 42) || (c =? LF))))))
          (RLit (lit "**"))))
    true false.

Definition codeRe : RegExp :=
  mkRegExp
    (RSeq (RNotBehind isWord)
       (RSeq (RChar (N.eqb BACKTICK))
          (RSeq (RGroup 1 (RPlus (fun c => negb (c =? BACKTICK))))
             (RSeq (RChar (N.eqb BACKTICK)) (RNotAhead isWord)))))
    true false.

Definition markdownToTelegramHtmlConservative (text : str) : str :=
  let out := escapeHtml text in
  let out := replaceRe headingRe [PLit (lit "<b>"); PGroup 1; PLit (lit "</b>")] out in
  let out := replaceRe boldRe [PLit (lit "<b>"); PGroup 1; PLit (lit "</b>")] out in
  replaceRe codeRe [PLit (lit "<code>"); PGroup 1; PLit (lit "</code>")] out.

(** A JavaScript value, as far as [typeof] and truthiness tell values apart. *)
#[local] Unset Elimination Schemes.
Inductive jsval : Type :=
| JUndefined
| JNull
| JBool (b : bool)
| JNum (z : Z)
| JStr (s : str)
| JObj (fields : gmap string jsval).
#[local] Set Elimination Schemes.

Definition truthy (v : jsval) : bool :=
  match v with
  | JUndefined | JNull => false
  | JBool b => b
  | JNum z => negb (z =? 0)%Z
  | JStr s => nonEmpty s
  | JObj _ => true
  end.

(** The options object of [preprocess]; a field that is absent is [None]. *)
Record Options : Type := mkOptions {
  style : option str;
  toHtml : option bool;
  maxChunkLength : option Z;
  split_ : option bool
}.

Record PipelineResult : Type := mkResult {
  chunks : list str;
  parseMode : option str
}.

Definition renderChunk (chunk : str) : str :=
  let '(noF, b) := extractFencedBlocks chunk in
  restoreFencedBlocks (markdownToTelegramHtmlConservative noF) b true.

(** [preprocess(text, options)]; [None] when the chunking loop runs out of
    fuel. *)
Definition preprocess (fuel : nat) (text : jsval) (options : Options)
    : option PipelineResult :=
  let maxChunkLength := default TELEGRAM_MAX_LENGTH (maxChunkLength options) in
  let split := default true (split_ options) in
  let style :=
    match style options with
    | Some s => s
    | None => if default false (toHtml options) then lit "telegramHtml"
              else lit "telegramPlain"
    end in
  let toHtml := bool_decide (style = lit "telegramHtml") in
  match text with
  | JStr text =>
      let '(withoutFences, blocks) := extractFencedBlocks text in
      let content := convertTablesToBullets withoutFences in
      let content := restoreFencedBlocks content blocks false in
      chunks ← (if split then splitChunksSafe fuel content maxChunkLength
                 else Some [content]);
      let finalChunks := if toHtml then List.map renderChunk chunks else chunks in
      let parseMode := if toHtml then Some (lit "HTML") else None in
      Some (mkResult finalChunks parseMode)
  | _ => Some (mkResult [[]] None)
  end.

(** An exception of the language itself. *)
Inductive JsError : Type := TypeError.

(** The four bindings of the destructuring pattern in the parameter list of
    [preprocess], as read from the argument, before the defaults of the
    pattern. *)
Record Destructured : Type := mkDestructured {
  styleOpt : jsval;
  toHtmlLegacy : jsval;
  maxChunkLengthArg : jsval;
  splitArg : jsval
}.

(** A data property of an object, [undefined] when absent. *)
Definition prop (fields : gmap string jsval) (k : string) : jsval :=
  default JUndefined (fields !! k).

(** The parameter [options = {}] and its pattern.  The default stands in for
    [undefined] only, and [null] cannot be destructured: a TypeError.  Of a
    primitive the pattern reads the properties of its wrapper; a number and a
    boolean have none of the four, a string has the method [split], a
    function, for which an object stands here: both are truthy, and the
    code reads no more of [split] than that. *)
Definition destructureOptions (options : jsval) : JsError + Destructured :=
  match options with
  | JNull => inl TypeError
  | JObj fields =>
      inr (mkDestructured (prop fields "style") (prop fields "toHtml")
             (prop fields "maxChunkLength") (prop fields "split"))
  | JStr _ => inr (mkDestructured JUndefined JUndefined JUndefined (JObj ∅))
  | JUndefined | JBool _ | JNum _ =>
      inr (mkDestructured JUndefined JUndefined JUndefined JUndefined)
  end.

(** The bindings as the rest of [preprocess] uses them: [??] on the style,
    the truthiness of [toHtml] and [split], the defaults of the pattern for
    [undefined].  A style that is neither nullish nor a string and a chunk
    limit that is not a number are outside this reading: [None]. *)
Definition typedOptions (d : Destructured) : option Options :=
  st ← match styleOpt d with
       | JUndefined | JNull => Some None
       | JStr s => Some (Some s)
       | _ => None
       end;
  ml ← match maxChunkLengthArg d with
       | JUndefined => Some None
       | JNum z => Some (Some z)
       | _ => None
       end;
  Some (mkOptions st
          (match toHtmlLegacy d with JUndefined => None | v => Some (truthy v) end)
          ml
          (match splitArg d with JUndefined => None | v => Some (truthy v) end)).

(** The call [preprocess(text, options)] on any two values: the pattern of
    the parameter list runs first, the test of [typeof text] after it.
    [None] when the text is a string and the chunking loop runs out of fuel
    or the options are outside the typed reading. *)
Definition preprocessCall (fuel : nat) (text options : jsval)
    : option (JsError + PipelineResult) :=
  match destructureOptions options with
  | inl e => Some (inl e)
  | inr d =>
      match text with
      | JStr _ => o ← typedOptions d; inr <$> preprocess fuel text o
      | _ => Some (inr (mkResult [[]] None))
      end
  end.

(** ** proxy.mjs

    The module binds the pipeline entry point of [index.mjs] to the name
    [preprocess].  The wrapped client is an external object: what its
    [sendMessage] answers may depend on everything sent so far, so a client
    is a function of the trace.  A computation of the wrapper reads and
    extends the trace and ends with a value, with a rejection of the client,
    or without an answer when the chunking loop has no fuel left. *)

Inductive event : Type :=
| SendMessage (chatId text : jsval) (options : gmap string jsval)
| Sleep (ms : Z).

Inductive outcome (E A : Type) : Type :=
| Done (a : A)
| Thrown (e : E)
| OutOfFuel.

Arguments Done {E A} a.
Arguments Thrown {E A} e.
Arguments OutOfFuel {E A}.

Definition M (E A : Type) : Type := list event -> outcome E A * list event.

Definition ret {E A : Type} (a : A) : M E A := fun tr => (Done a, tr).

Definition bind {E A B : Type} (m : M E A) (k : A -> M E B) : M E B :=
  fun tr =>
    match m tr with
    | (Done a, tr') => k a tr'
    | (Thrown e, tr') => (Thrown e, tr')
    | (OutOfFuel, tr') => (OutOfFuel, tr')
    end.

Definition Client (E R : Type) : Type :=
  list event -> jsval -> jsval -> gmap string jsval -> E + R.

(** [await client.sendMessage(chatId, text, options)] *)
Definition clientSend {E R : Type} (client : Client E R) (chatId text : jsval)
    (options : gmap string jsval) : M E R :=
  fun tr =>
    let tr' := tr ++ [SendMessage chatId text options] in
    match client tr chatId text options with
    | inl e => (Thrown e, tr')
    | inr r => (Done r, tr')
    end.

(** [await sleep(ms)] *)
Definition sleep {E : Type} (ms : Z) : M E unit := fun tr => (Done tt, tr ++ [Sleep ms]).

(** [this._options], after the constructor has merged the defaults. *)
Record ProxyOptions : Type := mkProxyOptions {
  po_style : str;
  po_maxChunkLength : Z;
  po_split : bool;
  po_chunkDelayMs : Z;
  po_enabled : bool
}.

(** The options object handed to the constructor. *)
Record ProxyConfig : Type := mkProxyConfig {
  pc_style : option str;
  pc_maxChunkLength : option Z;
  pc_split : option bool;
  pc_chunkDelayMs : option Z;
  pc_enabled : option bool
}.

Record TelegramProxy (E R : Type) : Type := mkTelegramProxy {
  _client : Client E R;
  _options : ProxyOptions
}.

Arguments mkTelegramProxy {E R} _ _.
Arguments _client {E R} _.
Arguments _options {E R} _.

(** [new TelegramProxy(client, options)]; a missing client is an error. *)
Definition newTelegramProxy {E R : Type} (client : option (Client E R))
    (options : ProxyConfig) : option (TelegramProxy E R) :=
  match client with
  | None => None
  | Some c =>
      Some (mkTelegramProxy c
              (mkProxyOptions
                 (default (lit "telegramPlain") (pc_style options))
                 (default 4096%Z (pc_maxChunkLength options))
                 (default true (pc_split options))
                 (default 300%Z (pc_chunkDelayMs options))
                 (default true (pc_enabled options))))
  end.

Definition setEnabled {E R : Type} (b : bool) (p : TelegramProxy E R) : TelegramProxy E R :=
  mkTelegramProxy (_client p)
    (mkProxyOptions (po_style (_options p)) (po_maxChunkLength (_options p))
       (po_split (_options p)) (po_chunkDelayMs (_options p)) b).

Definition disable {E R : Type} : TelegramProxy E R -> TelegramProxy E R := setEnabled false.
Definition enable {E R : Type} : TelegramProxy E R -> TelegramProxy E R := setEnabled true.

(** [typeof text !== "string" || text.trim() === ""] *)
Definition blankOrNotString (text : jsval) : bool :=
  match text with
  | JStr s => negb (nonEmpty (trim s))
  | _ => true
  end.

(** [baseOptions]: a copy of the caller's options, with [parse_mode] set
    when the pipeline asks for one and the copy has none that is truthy. *)
Definition mergeParseMode (parseMode : option str) (options : gmap string jsval)
    : gmap string jsval :=
  match parseMode with
  | Some pm =>
      if nonEmpty pm && negb (truthy (default JUndefined (options !! "parse_mode"%string)))
      then <["parse_mode"%string := JStr pm]> options
      else options
  | None => options
  end.

(** The sending loop: [i] counts the chunks already sent. *)
Fixpoint sendChunks {E R : Type} (p : TelegramProxy E R) (chatId : jsval)
    (baseOptions : gmap string jsval) (chunks : list str) (i : nat)
    (responses : list R) : M E (list R) :=
  match chunks with
  | [] => ret responses
  | chunk :: rest =>
      bind (if (0 <? i)%nat && (0 <? po_chunkDelayMs (_options p))%Z
            then sleep (po_chunkDelayMs (_options p)) else ret tt)
        (fun _ =>
           bind (clientSend (_client p) chatId (JStr chunk) baseOptions)
             (fun res => sendChunks p chatId baseOptions rest (S i) (responses ++ [res])))
  end.

Definition sendMessage {E R : Type} (fuel : nat) (p : TelegramProxy E R)
    (chatId text : jsval) (options : gmap string jsval) : M E (list R) :=
  if negb (po_enabled (_options p)) || blankOrNotString text then
    bind (clientSend (_client p) chatId text options) (fun res => ret [res])
  else
    match preprocess fuel text
            (mkOptions (Some (po_style (_options p)))
               None
               (Some (po_maxChunkLength (_options p)))
               (Some (po_split (_options p)))) with
    | None => fun tr => (OutOfFuel, tr)
    | Some result =>
        let baseOptions := mergeParseMode (parseMode result) options in
        sendChunks p chatId baseOptions (chunks result) 0 []
    end.

(** ** Vocabulary of the statements *)

(** [Interleaved text cs]: [text] is the chunks [cs] in order, with runs of
    white space before, between and after them. *)
Inductive Interleaved : str -> list str -> Prop :=
| Interleaved_nil (w : str) :
    forallb isSpace w = true -> Interleaved w []
| Interleaved_cons (w c rest : str) (cs : list str) :
    forallb isSpace w = true -> Interleaved rest cs ->
    Interleaved (w ++ c ++ rest) (c :: cs).

(** The steps of whitespace normalisation, written from their description
    rather than from the patterns of [normalizeWhitespace]. *)

(** Every CR LF pair and every lone CR becomes one LF, in one pass. *)
Fixpoint unifyLineEndings (s : str) : str :=
  match s with
  | [] => []
  | c :: t =>
      if c =? CR then
        LF :: match t with
              | d :: t' => if d =? LF then unifyLineEndings t' else unifyLineEndings t
              | [] => []
              end
      else c :: unifyLineEndings t
  end.

(** What a run of [n] line feeds becomes when runs of [minRun] or more are
    collapsed to two. *)
Definition flushRun (minRun n : nat) : str :=
  if (minRun <=? n)%nat then [LF; LF] else replicate n LF.

(** [pending] counts the line feeds of the run being read. *)
Fixpoint collapseGo (minRun pending : nat) (s : str) : str :=
  match s with
  | [] => flushRun minRun pending
  | c :: t =>
      if c =? LF then collapseGo minRun (S pending) t
      else flushRun minRun pending ++ c :: collapseGo minRun 0 t
  end.

Definition collapseNewlines (minRun : nat) (s : str) : str := collapseGo minRun 0 s.

Definition rtrimLines (s : str) : str := join [LF] (List.map trimEnd (split [LF] s)).

Definition normalizeBySteps (minRun : nat) (text : str) : str :=
  trim (rtrimLines (collapseNewlines minRun (unifyLineEndings text))).

(** The steps as the specification words them: three or more consecutive
    blank lines, that is four or more consecutive line feeds, become one
    blank line. *)
Definition normalize_spec (text : str) : str := normalizeBySteps 4 text.

(** The two passes of [normalizeWhitespace] over line endings, each as a
    recursion over the text: CR LF pairs first, lone CRs next. *)
Fixpoint replaceCR (s : str) : str :=
  match s with
  | [] => []
  | c :: t => (if CR =? c then LF else c) :: replaceCR t
  end.

Fixpoint replaceCRLF (s : str) : str :=
  match s with
  | [] => []
  | c :: t =>
      match t with
      | d :: t' => if (CR =? c) && (LF =? d) then LF :: replaceCRLF t' else c :: replaceCRLF t
      | [] => [c]
      end
  end.

(** Length of the longest prefix within a class, and the unit before the
    position behind it. *)
Fixpoint spanLen (p : N -> bool) (s : str) : nat :=
  match s with
  | c :: t => if p c then S (spanLen p t) else O
  | [] => O
  end.

Fixpoint spanPrev (p : N -> bool) (prev : option N) (s : str) : option N :=
  match s with
  | c :: t => if p c then spanPrev p (Some c) t else prev
  | [] => prev
  end.

(** What the matcher can do, as a relation between states. *)

(** Iterations of a repetition, after RepeatMatcher: [R] is what one pass
    of the body can do. *)
Inductive RepM (R : mstate -> mstate -> Prop) (inner : list nat)
    : nat -> option nat -> mstate -> mstate -> Prop :=
| RepM_max (lo : nat) (x : mstate) : RepM R inner lo (Some O) x x
| RepM_done (hi : option nat) (x : mstate) : RepM R inner O hi x x
| RepM_step (lo : nat) (hi : option nat) (x y z : mstate) :
    hi <> Some O ->
    R (clearCaps inner x) y ->
    ~ (lo = O /\ length (ms_rest y) = length (ms_rest x)) ->
    RepM R inner (pred lo) (pred <$> hi) y z ->
    RepM R inner lo hi x z.

(** [Matches ml r x y]: the pattern [r] can take the matcher from [x] to [y]. *)
Fixpoint Matches (ml : bool) (r : regex) (x y : mstate) : Prop :=
  match r with
  | REmpty => y = x
  | RChar p =>
      exists ch t, ms_rest x = ch :: t /\ p ch = true /\ y = mkMstate (Some ch) t (ms_caps x)
  | RSeq a b => exists m, Matches ml a x m /\ Matches ml b m y
  | RAlt a b => Matches ml a x y \/ Matches ml b x y
  | RRep _ lo hi a => RepM (Matches ml a) (groupsOf a) lo hi x y
  | RGroup i a =>
      exists m, Matches ml a x m /\
        y = mkMstate (ms_prev m) (ms_rest m)
              ((i, take (length (ms_rest x) - length (ms_rest m)) (ms_rest x)) :: ms_caps m)
  | RBackref i =>
      match getCap i (ms_caps x) with
      | None => y = x
      | Some w =>
          isPrefix w (ms_rest x) = true /\
          y = mkMstate (lastUnit (ms_prev x) w) (drop (length w) (ms_rest x)) (ms_caps x)
      end
  | RBol =>
      match ms_prev x with
      | None => y = x
      | Some p => ml && isLineTerminator p = true /\ y = x
      end
  | REol =>
      match ms_rest x with
      | [] => y = x
      | ch :: _ => ml && isLineTerminator ch = true /\ y = x
      end
  | RNotBehind p =>
      match ms_prev x with
      | Some q => p q = false /\ y = x
      | None => y = x
      end
  | RNotAhead p =>
      match ms_rest x with
      | ch :: _ => p ch = false /\ y = x
      | [] => y = x
      end
  end.

(** The lines of [TABLE_SEPARATOR_RE], described without the matcher. *)

(** One or more groups of a pipe followed by one or more units of the
    class of blanks, hyphens and colons. *)
Inductive SepGroups : str -> Prop :=
| SepGroups_one (m : str) :
    m <> [] -> forallb isSepUnit m = true -> SepGroups (PIPE :: m)
| SepGroups_more (m u : str) :
    m <> [] -> forallb isSepUnit m = true -> SepGroups u -> SepGroups (PIPE :: m ++ u).

(** The group that [TABLE_SEPARATOR_RE] repeats. *)
Definition sepGroup : regex :=
  RGroup 1 (RSeq (RChar (N.eqb PIPE)) (RPlus isSepUnit)).

(** The conditions under which a paragraph counts as a table: at least
    three lines, a pipe in the first, the strict separator at index 1, and
    a pipe in some later line. *)
Definition isTable (p : str) : bool :=
  let lines := split [LF] p in
  (3 <=? length lines)%nat
  && includes [PIPE] (default [] (lines !! 0%nat))
  && test TABLE_SEPARATOR_RE (default [] (lines !! 1%nat))
  && existsb (includes [PIPE]) (drop 2 lines).

(** The units of a bullet line: neither a pipe nor a line feed. *)
Definition cellUnit (c : N) : Prop := c <> PIPE /\ c <> LF.

(** The table of the scenario of C6 and what the pipeline makes of it. *)
Definition priceTable : str :=
  join [LF] [lit "| Name | Price |"; lit "|---|---|"; lit "| A | 1 |"; lit "| B | 2 |"].

Definition priceBullets : str :=
  join [LF]
    [BULLET :: lit " Name: A " ++ MIDDOT :: lit " Price: 1";
     BULLET :: lit " Name: B " ++ MIDDOT :: lit " Price: 2"].

(** ** The rest of index.mjs and proxy.mjs *)

Definition TILDE : N := 126.

(** [isFenceLine], which no function of the module calls. *)
Definition isFenceLine (line : str) : bool :=
  let trimmed := trim line in
  (bool_decide (trimmed = lit "```") || bool_decide (trimmed = lit "~~~"))
  && (3 <=? length trimmed)%nat.

(** What [main] hands to [console.log]: a text, or the result that
    [JSON.stringify] is to print. *)
Inductive printed : Type :=
| PrintText (s : str)
| PrintJson (r : PipelineResult).

(** The input of [main]: the argument behind [--text] when there is one,
    else the standard input when it is piped ([stdin] is [None] on a
    terminal), else the empty text. *)
Definition cliInput (args : list str) (stdin : option str) : str :=
  let textIdx := findIndex (fun a _ => bool_decide (a = lit "--text")) args in
  if (0 <=? textIdx)%Z && (textIdx <? Z.of_nat (length args) - 1)%Z
  then default [] (args !! Z.to_nat (textIdx + 1))
  else match stdin with
       | Some s => s
       | None => []
       end.

(** [main()], with [args] for [process.argv.slice(2)]. *)
Definition main (fuel : nat) (args : list str) (stdin : option str)
    : option (list printed) :=
  let jsonOut := existsb (fun a => bool_decide (a = lit "--json")) args in
  let style :=
    if existsb (fun a => bool_decide (a = lit "--html")) args
    then lit "telegramHtml" else lit "telegramPlain" in
  let inputText := cliInput args stdin in
  result ← preprocess fuel (JStr inputText) (mkOptions (Some style) None None (Some true));
  Some (if jsonOut then [PrintJson result]
        else let out := join ([LF; LF] ++ lit "---" ++ [LF; LF]) (chunks result) in
             if nonEmpty out then [PrintText out] else []).

(** [s.endsWith(p)] *)
Definition endsWith (s p : str) : bool :=
  (length p <=? length s)%nat && bool_decide (drop (length s - length p) s = p).

(** The entry point: [filename] stands for [fileURLToPath(import.meta.url)],
    [argv] for [process.argv]. *)
Definition entryArg (argv : list str) : str :=
  match argv !! 1%nat with
  | Some a => if nonEmpty a then a else []
  | None => []
  end.

Definition isEntryScript (filename : str) (argv : list str) : bool :=
  (0 <? length (entryArg argv))%nat
  && (bool_decide (entryArg argv = filename)
      || endsWith (entryArg argv) (lit "telegram-format-preprocessor.mjs")
      || endsWith (entryArg argv) (lit "index.mjs")).

Definition shouldCallMain (filename : str) (argv : list str) : bool :=
  isEntryScript filename argv || (1 <? length argv)%nat.

(** [createProxy(client, options)] *)
Definition createProxy {E R : Type} (client : option (Client E R)) (options : ProxyConfig)
    : option (TelegramProxy E R) :=
  newTelegramProxy client options.

(** ** Vocabulary of the further statements *)

(** What [escapeHtml] makes of one unit. *)
Definition escapeUnit (c : N) : str :=
  if c =? AMP then lit "&amp;"
  else if c =? LT then lit "&lt;"
  else if c =? GT then lit "&gt;"
  else [c].

(** The events of sending [chunks] one after the other, the chunk at index
    [i] first: a pause before every chunk but the first when the delay is
    positive, then the send. *)
Fixpoint expectedSends (delay : Z) (chatId : jsval) (options : gmap string jsval)
    (i : nat) (chunks : list str) : list event :=
  match chunks with
  | [] => []
  | chunk :: rest =>
      (if (0 <? i)%nat && (0 <? delay)%Z then [Sleep delay] else [])
        ++ SendMessage chatId (JStr chunk) options
        :: expectedSends delay chatId options (S i) rest
  end.

(** Where [$] holds under the [m] flag: at the end of the text or before a
    line terminator. *)
Definition atLineEnd (after : str) : bool :=
  match after with
  | [] => true
  | c :: _ => isLineTerminator c
  end.

(** Lines that are trimmed at the right and hold no line feed. *)
Definition cleanLine (l : str) : Prop := trimEnd l = l /\ Forall (fun c => c <> LF) l.

(** * Properties *)

(** ** The entry point on malformed and unsplit input *)

(** C7, as the code has it: for a text argument that is not a string the
    call throws a TypeError when the options argument is [null], and for
    every other options argument, whatever its fields hold, it returns one
    empty chunk and no render mode; the call always ends. *)
Theorem preprocessCall_non_string (fuel : nat) (v options : jsval) :
  (forall s, v <> JStr s) ->
  preprocessCall fuel v options =
    Some (match options with
          | JNull => inl TypeError
          | _ => inr (mkResult [[]] None)
          end).
Proof.
  intros Hv. unfold preprocessCall.
  destruct options; cbn [destructureOptions]; try reflexivity;
    destruct v; try reflexivity; contradiction (Hv s eq_refl) || contradiction (Hv s0 eq_refl).
Qed.

Lemma preprocessCall_non_string_witness :
  (forall s, JNum 42 <> JStr s) /\
  preprocessCall 0 (JNum 42)
    (JObj {[ "style"%string := JNum 5; "maxChunkLength"%string := JStr (lit "x") ]})
    = Some (inr (mkResult [[]] None)).
Proof.
  assert (H : forall s, JNum 42 <> JStr s) by (intros s E; discriminate E).
  split; [exact H|].
  exact (preprocessCall_non_string 0 (JNum 42)
           (JObj {[ "style"%string := JNum 5; "maxChunkLength"%string := JStr (lit "x") ]}) H).
Defined.

(** C7 as stated fails on the options [null]: the pattern of the parameter
    list throws before the text is looked at, while the same text with the
    options left out gives the empty chunk. *)
Lemma preprocessCall_null_options :
  preprocessCall 0 (JNum 42) JNull = Some (inl TypeError) /\
  preprocessCall 0 (JNum 42) JUndefined = Some (inr (mkResult [[]] None)).
Proof. split; reflexivity. Qed.

(** With the options left out, or an object of typed fields, the call is
    the pipeline on the options record. *)
Lemma preprocessCall_typed (fuel : nat) (text : str) :
  preprocessCall fuel (JStr text) JUndefined
    = inr <$> preprocess fuel (JStr text) (mkOptions None None None None) /\
  forall (st : str) (ml : Z) (sp : bool),
    preprocessCall fuel (JStr text)
      (JObj {[ "style"%string := JStr st; "maxChunkLength"%string := JNum ml;
               "split"%string := JBool sp ]})
    = inr <$> preprocess fuel (JStr text) (mkOptions (Some st) None (Some ml) (Some sp)).
Proof. split; [reflexivity|]. intros st ml sp. reflexivity. Qed.

(** C6: with [split: false] the result holds exactly one chunk, the fully
    processed text (rendered to HTML under the HTML style), whatever its
    length, the chunk limit and the fuel; the price table comes out as two
    bullet lines without a pipe. *)
Theorem preprocess_split_false :
  (forall (fuel : nat) (text : str) (o : Options),
     split_ o = Some false ->
     let html :=
       bool_decide
         (match style o with
          | Some s => s
          | None => if default false (toHtml o) then lit "telegramHtml"
                    else lit "telegramPlain"
          end = lit "telegramHtml") in
     let content :=
       restoreFencedBlocks (convertTablesToBullets (extractFencedBlocks text).1)
         (extractFencedBlocks text).2 false in
     preprocess fuel (JStr text) o
       = Some (mkResult [if html then renderChunk content else content]
                 (if html then Some (lit "HTML") else None))) /\
  preprocess 0 (JStr priceTable) (mkOptions None None None (Some false))
    = Some (mkResult [priceBullets] None) /\
  includes [PIPE] priceBullets = false.
Proof.
  split; [|split; vm_compute; reflexivity].
  intros fuel text o Hs html content. subst html content.
  unfold preprocess. rewrite Hs.
  destruct (extractFencedBlocks text) as [withoutFences blocks].
  cbn [fst snd]. case_bool_decide; reflexivity.
Qed.

Lemma preprocess_split_false_witness :
  preprocess 0 (JStr (replicate 5000 97)) (mkOptions None None (Some 10%Z) (Some false))
    = Some (mkResult [replicate 5000 97] None).
Proof.
  destruct preprocess_split_false as [H _].
  rewrite (H 0%nat (replicate 5000 97) (mkOptions None None (Some 10%Z) (Some false)) eq_refl).
  vm_compute. reflexivity.
Defined.

(** ** The wrapper *)

(** C9: when the text is not a string or trims to the empty string, the
    wrapper, enabled or not, sends the original text with the caller's own
    options in exactly one underlying call and returns the one response (or
    passes on the client's rejection). *)
Theorem sendMessage_bypass {E R : Type} (fuel : nat) (p : TelegramProxy E R)
    (chatId text : jsval) (options : gmap string jsval) (tr : list event) :
  (forall s, text = JStr s -> trim s = []) ->
  sendMessage fuel p chatId text options tr =
    (match _client p tr chatId text options with
     | inl e => Thrown e
     | inr r => Done [r]
     end,
     tr ++ [SendMessage chatId text options]).
Proof.
  intros Ht. unfold sendMessage.
  assert (Hb : blankOrNotString text = true).
  { destruct text; try reflexivity. simpl. now rewrite (Ht s eq_refl). }
  rewrite Hb, orb_true_r. unfold bind, clientSend.
  destruct (_client p tr chatId text options); reflexivity.
Qed.

Lemma sendMessage_bypass_witness :
  (forall s, JStr [SP; LF] = JStr s -> trim s = []) /\
  @sendMessage unit nat 0
    (mkTelegramProxy (fun _ _ _ _ => inr 7%nat)
       (mkProxyOptions (lit "telegramHtml") 4096 true 300 true))
    (JNum 1) (JStr [SP; LF]) ∅ []
  = (Done [7%nat], [SendMessage (JNum 1) (JStr [SP; LF]) ∅]).
Proof.
  assert (H : forall s, JStr [SP; LF] = JStr s -> trim s = []).
  { intros s Hs. injection Hs as <-. reflexivity. }
  split; [exact H|].
  exact (sendMessage_bypass 0
           (mkTelegramProxy (fun _ _ _ _ => inr 7%nat)
              (mkProxyOptions (lit "telegramHtml") 4096 true 300 true))
           (JNum 1) (JStr [SP; LF]) ∅ [] H).
Defined.

(** Every event of the sending loop is a pause or a send to the same chat
    with the same options object. *)
Lemma sendChunks_trace {E R : Type} (p : TelegramProxy E R) (chatId : jsval)
    (o : gmap string jsval) (cs : list str) :
  forall (i : nat) (rs : list R) (tr : list event),
  exists evs,
    (sendChunks p chatId o cs i rs tr).2 = tr ++ evs /\
    forall c t o', SendMessage c t o' ∈ evs -> c = chatId /\ o' = o.
Proof.
  induction cs as [|chunk rest IH]; intros i rs tr.
  - exists []. split; [simpl; now rewrite app_nil_r|]. intros c t o' H. inversion H.
  - assert (Hsend : forall tr0, exists evs,
      (bind (clientSend (_client p) chatId (JStr chunk) o)
         (fun res => sendChunks p chatId o rest (S i) (rs ++ [res])) tr0).2 = tr0 ++ evs /\
      forall c t o', SendMessage c t o' ∈ evs -> c = chatId /\ o' = o).
    { intros tr0. unfold bind, clientSend.
      destruct (_client p tr0 chatId (JStr chunk) o) as [e|r].
      - exists [SendMessage chatId (JStr chunk) o]. split; [reflexivity|].
        intros c t o' H. apply list_elem_of_singleton in H. now inversion H.
      - destruct (IH (S i) (rs ++ [r]) (tr0 ++ [SendMessage chatId (JStr chunk) o]))
          as (evs & Heq & Hall).
        exists (SendMessage chatId (JStr chunk) o :: evs). split.
        + rewrite Heq. now rewrite <- app_assoc.
        + intros c t o' H. apply elem_of_cons in H as [H|H]; [now inversion H|eauto]. }
    cbn [sendChunks].
    destruct ((0 <? i)%nat && (0 <? po_chunkDelayMs (_options p))%Z).
    + destruct (Hsend (tr ++ [Sleep (po_chunkDelayMs (_options p))])) as (evs & Heq & Hall).
      exists (Sleep (po_chunkDelayMs (_options p)) :: evs). split.
      * unfold bind at 1. unfold sleep. rewrite Heq. now rewrite <- app_assoc.
      * intros c t o' H. apply elem_of_cons in H as [H|H]; [discriminate H|eauto].
    + destruct (Hsend tr) as (evs & Heq & Hall).
      exists evs. split; [|exact Hall]. unfold bind at 1. unfold ret. exact Heq.
Qed.

(** C8, as the code has it: on the pipeline path every underlying send gets
    the same options object; it carries [parse_mode] ["HTML"] when the render
    mode is HTML and the caller's [parse_mode] is absent or falsy, the
    caller's own [parse_mode] when that one is truthy, the caller's options
    as they are when the render mode is none, and in every case the caller's
    value under every other key. *)
Theorem sendMessage_parse_mode {E R : Type} (fuel : nat) (p : TelegramProxy E R)
    (chatId text : jsval) (options : gmap string jsval) (tr : list event)
    (result : PipelineResult) :
  po_enabled (_options p) = true ->
  blankOrNotString text = false ->
  preprocess fuel text
    (mkOptions (Some (po_style (_options p))) None
       (Some (po_maxChunkLength (_options p))) (Some (po_split (_options p))))
    = Some result ->
  exists evs,
    (sendMessage fuel p chatId text options tr).2 = tr ++ evs /\
    forall c t o', SendMessage c t o' ∈ evs ->
      (parseMode result = Some (lit "HTML") ->
       truthy (default JUndefined (options !! "parse_mode"%string)) = false ->
       o' !! "parse_mode"%string = Some (JStr (lit "HTML"))) /\
      (forall v, options !! "parse_mode"%string = Some v -> truthy v = true ->
                 o' !! "parse_mode"%string = Some v) /\
      (parseMode result = None -> o' = options) /\
      (forall k, k <> "parse_mode"%string -> o' !! k = options !! k).
Proof.
  intros Hen Htext Hpre. unfold sendMessage.
  rewrite Hen, Htext, Hpre. cbn [negb orb].
  destruct (sendChunks_trace p chatId (mergeParseMode (parseMode result) options)
              (chunks result) 0 [] tr) as (evs & Heq & Hall).
  exists evs. split; [exact Heq|].
  intros c t o' Hin. destruct (Hall c t o' Hin) as [_ ->].
  unfold mergeParseMode. repeat split.
  - intros Hpm Hf. rewrite Hpm, Hf. cbn. apply lookup_insert_eq.
  - intros v Hv Ht. destruct (parseMode result); [|exact Hv].
    rewrite Hv. unfold default, from_option, id. rewrite Ht, andb_false_r. exact Hv.
  - intros Hpm. now rewrite Hpm.
  - intros k Hk. destruct (parseMode result) as [pm|]; [|reflexivity].
    destruct (nonEmpty pm && _); [|reflexivity].
    now apply lookup_insert_ne.
Qed.

Lemma sendMessage_parse_mode_witness :
  exists evs,
    (@sendMessage unit nat 0
       (mkTelegramProxy (fun _ _ _ _ => inr 7%nat)
          (mkProxyOptions (lit "telegramHtml") 4096 true 300 true))
       (JNum 1) (JStr (lit "hi")) ∅ []).2 = [] ++ evs /\
    forall c t o', SendMessage c t o' ∈ evs ->
      (Some (lit "HTML") = Some (lit "HTML") ->
       truthy (default JUndefined ((∅ : gmap string jsval) !! "parse_mode"%string)) = false ->
       o' !! "parse_mode"%string = Some (JStr (lit "HTML"))) /\
      (forall v, (∅ : gmap string jsval) !! "parse_mode"%string = Some v -> truthy v = true ->
                 o' !! "parse_mode"%string = Some v) /\
      (Some (lit "HTML") = None -> o' = ∅) /\
      (forall k, k <> "parse_mode"%string -> o' !! k = (∅ : gmap string jsval) !! k).
Proof.
  apply (sendMessage_parse_mode 0
           (mkTelegramProxy (fun _ _ _ _ => inr 7%nat)
              (mkProxyOptions (lit "telegramHtml") 4096 true 300 true))
           (JNum 1) (JStr (lit "hi")) ∅ []
           (mkResult [lit "hi"] (Some (lit "HTML"))));
    vm_compute; reflexivity.
Defined.

(** C8 as stated fails: a caller's [parse_mode] that is the empty string is
    contained in the options, and the underlying send gets ["HTML"]. *)
Lemma sendMessage_parse_mode_overridden :
  let options : gmap string jsval := {[ "parse_mode"%string := JStr [] ]} in
  options !! "parse_mode"%string = Some (JStr []) /\
  @sendMessage unit nat 0
    (mkTelegramProxy (fun _ _ _ _ => inr 7%nat)
       (mkProxyOptions (lit "telegramHtml") 4096 true 300 true))
    (JNum 1) (JStr (lit "hi")) options []
  = (Done [7%nat],
     [SendMessage (JNum 1) (JStr (lit "hi"))
        {[ "parse_mode"%string := JStr (lit "HTML") ]}]) /\
  ({[ "parse_mode"%string := JStr (lit "HTML") ]} : gmap string jsval)
    !! "parse_mode"%string <> Some (JStr []).
Proof.
  cbv zeta. split; [reflexivity|]. split; [vm_compute; reflexivity|].
  rewrite lookup_singleton_eq. discriminate.
Qed.

(** ** Chunk boundaries and structural units *)

(** A scanning loop that starts from the window's end leaves [best] there:
    no end of a match lies beyond the window and before it. *)
Lemma scanBest_window_end (re : RegExp) (segment : str) (start maxLen : Z) :
  scanBest re segment start maxLen (start + maxLen) = (start + maxLen)%Z.
Proof.
  unfold scanBest. induction (matchAll re segment) as [|m ms IH]; [reflexivity|].
  cbn [fold_left].
  replace ((start + maxLen <?
            start + Z.of_nat (m_index m) + Z.of_nat (length (m_text m)))%Z
           && (start + Z.of_nat (m_index m) + Z.of_nat (length (m_text m)) <?
               start + maxLen)%Z) with false; [exact IH|].
  symmetry. apply andb_false_iff.
  destruct (Z.ltb_spec (start + maxLen)
              (start + Z.of_nat (m_index m) + Z.of_nat (length (m_text m)))) as [H|H];
    [right; apply Z.ltb_ge; lia|now left].
Qed.

(** The three scans of [nextSafeBreak] never move [best], and the function
    does not read it. *)
Lemma bestBreak_window_end (text : str) (start maxLen : Z) :
  bestBreak text start maxLen = (start + maxLen)%Z.
Proof.
  unfold bestBreak. cbv zeta. now rewrite !scanBest_window_end.
Qed.

(** C1, on the code: 4094 letters followed by the entity reference [&amp;]
    and one more letter, under the default limit of 4096.  The reference
    starts inside the window, at 4094, and ends at 4099, within the slack;
    the break stays at 4096 and the two chunks part the reference. *)
Theorem split_inside_entity :
  let text := replicate 4094 97 ++ lit "&amp;b" in
  nextSafeBreak text 0 4096 = 4096%Z /\
  List.map (fun m => (m_index m, m_text m)) (matchAll entityRe text)
    = [(4094%nat, lit "&amp;")] /\
  preprocess 2 (JStr text) (mkOptions None None None None)
    = Some (mkResult [replicate 4094 97 ++ lit "&a"; lit "mp;b"] None).
Proof.
  cbv zeta. split; [|split]; vm_compute; reflexivity.
Qed.

(** ** Fenced blocks *)

(** C2, on the code: a fenced block does not come back as it went in.  The
    captured body keeps its final line feed and the restored text adds
    another one before the closing delimiter; a language tag comes back
    after a blank.  Under the HTML style the second extraction, which wants
    the tag right behind the delimiter, then no longer finds the block. *)
Theorem fence_restore_not_exact :
  let fenced := join [LF] [lit "```js"; lit "code"; lit "```"] in
  let untagged := join [LF] [lit "```"; lit "code"; lit "```"] in
  (extractFencedBlocks fenced).2
    = [mkFenceBlock (lit "js") (lit "code" ++ [LF]) (lit "```")] /\
  preprocess 0 (JStr fenced) (mkOptions None None None None)
    = Some (mkResult [join [LF] [lit "``` js"; lit "code"; []; lit "```"; []]] None) /\
  preprocess 0 (JStr untagged) (mkOptions None None None None)
    = Some (mkResult [join [LF] [lit "```"; lit "code"; []; lit "```"; []]] None) /\
  preprocess 0 (JStr fenced) (mkOptions (Some (lit "telegramHtml")) None None None)
    = Some (mkResult [join [LF] [lit "``<code> js"; lit "code"; []; lit "</code>``"; []]]
              (Some (lit "HTML"))).
Proof.
  cbv zeta. split; [|split; [|split]]; vm_compute; reflexivity.
Qed.

(** ** String built-ins: slices, trimming, searching *)

Arguments isSpace : simpl never.
Arguments isSepUnit : simpl never.

Lemma slice_nat (s : str) (i j : nat) :
  (i <= j)%nat -> slice s (Z.of_nat i) (Z.of_nat j) = take (j - i) (drop i s).
Proof.
  intros Hij. unfold slice, relIndex.
  destruct (Z.ltb_spec (Z.of_nat i) 0) as [?|_]; [lia|].
  destruct (Z.ltb_spec (Z.of_nat j) 0) as [?|_]; [lia|].
  destruct (Nat.le_gt_cases i (length s)) as [Hi|Hi].
  - replace (Z.to_nat (Z.min (Z.of_nat i) (Z.of_nat (length s)))) with i by lia.
    destruct (Nat.le_gt_cases j (length s)) as [Hj|Hj].
    + f_equal. lia.
    + rewrite !take_ge; [reflexivity| |]; rewrite length_drop; lia.
  - replace (Z.to_nat (Z.min (Z.of_nat i) (Z.of_nat (length s)))) with (length s) by lia.
    rewrite !drop_ge by lia. now rewrite !take_nil.
Qed.

Lemma take_add_drop {A : Type} (l : list A) (a b : nat) :
  take (a + b) l = take a l ++ take b (drop a l).
Proof.
  revert l. induction a as [|a IH]; intros [|x l]; cbn [Nat.add take drop app];
    rewrite ?take_nil; try reflexivity.
  now rewrite IH.
Qed.

Lemma isPrefix_length (p s : str) : isPrefix p s = true -> (length p <= length s)%nat.
Proof.
  revert s. induction p as [|a p IH]; intros [|b s] H; simpl in *; try lia; try discriminate.
  apply andb_true_iff in H as [_ H]. apply IH in H. lia.
Qed.

Lemma lastIndexOf_bounds (p s : str) :
  (-1 <= lastIndexOf p s)%Z /\
  (0 <= lastIndexOf p s -> lastIndexOf p s + Z.of_nat (length p) <= Z.of_nat (length s))%Z.
Proof.
  induction s as [|c t [IH1 IH2]].
  - simpl. destruct p; simpl; lia.
  - cbn [lastIndexOf]. cbv zeta.
    destruct (Z.leb_spec 0 (lastIndexOf p t)) as [H|H].
    + specialize (IH2 H). cbn [length]. lia.
    + destruct (isPrefix p (c :: t)) eqn:Hp; [|lia].
      apply isPrefix_length in Hp. lia.
Qed.

Lemma trimStart_split (s : str) :
  exists l, s = l ++ trimStart s /\ forallb isSpace l = true.
Proof.
  induction s as [|c t (l & Hl & Hs)].
  - now exists [].
  - simpl. destruct (isSpace c) eqn:Hc.
    + exists (c :: l). simpl. rewrite Hc, Hs. now rewrite <- Hl.
    + now exists [].
Qed.

Lemma trimEnd_split (s : str) :
  exists r, s = trimEnd s ++ r /\ forallb isSpace r = true.
Proof.
  induction s as [|c t (r & Hr & Hs)].
  - now exists [].
  - cbn [trimEnd]. destruct (trimEnd t) as [|x t'] eqn:Ht.
    + destruct (isSpace c) eqn:Hc.
      * exists (c :: r). cbn [app forallb] in *. rewrite Hc, Hs. now subst t.
      * exists r. cbn [app] in *. now subst t.
    + exists r. split; [|exact Hs]. cbn [app]. f_equal. exact Hr.
Qed.

Lemma trim_split (s : str) :
  exists l r, s = l ++ trim s ++ r /\ forallb isSpace l = true /\ forallb isSpace r = true.
Proof.
  destruct (trimStart_split s) as (l & Hl & Hsl).
  destruct (trimEnd_split (trimStart s)) as (r & Hr & Hsr).
  exists l, r. unfold trim. now rewrite <- Hr.
Qed.

Lemma trimEnd_idem (s : str) : trimEnd (trimEnd s) = trimEnd s.
Proof.
  induction s as [|c t IH]; [reflexivity|].
  cbn [trimEnd]. destruct (trimEnd t) as [|x t'] eqn:Ht.
  - destruct (isSpace c) eqn:Hc; simpl; [reflexivity|now rewrite Hc].
  - cbn [trimEnd]. cbn [trimEnd] in IH. now rewrite IH.
Qed.

Lemma trimStart_head (s : str) :
  trimStart s = [] \/ exists c t, trimStart s = c :: t /\ isSpace c = false.
Proof.
  induction s as [|c t IH]; [now left|].
  simpl. destruct (isSpace c) eqn:Hc; [exact IH|]. right. now exists c, t.
Qed.

Lemma trimEnd_head (c : N) (t : str) :
  isSpace c = false -> exists t', trimEnd (c :: t) = c :: t'.
Proof.
  intros Hc. cbn [trimEnd]. destruct (trimEnd t); [rewrite Hc|]; eauto.
Qed.

Lemma trim_idem (s : str) : trim (trim s) = trim s.
Proof.
  unfold trim. destruct (trimStart_head s) as [H|(c & t & H & Hc)]; rewrite H.
  - reflexivity.
  - destruct (trimEnd_head c t Hc) as (t' & Ht). rewrite Ht at 1.
    simpl trimStart. rewrite Hc. rewrite <- Ht. apply trimEnd_idem.
Qed.

Lemma blankRun_split (s : str) :
  (blankRun s <= length s)%nat /\ forallb isSpace (take (blankRun s) s) = true.
Proof.
  induction s as [|c t [IH1 IH2]]; [split; [simpl; lia|reflexivity]|].
  cbn [blankRun]. destruct ((c =? LF) || (c =? SP)) eqn:Hc.
  - split; [simpl; lia|]. cbn [take forallb]. rewrite IH2, andb_true_r.
    apply orb_true_iff in Hc as [Hc|Hc]; apply N.eqb_eq in Hc; subst c; reflexivity.
  - split; [simpl; lia|reflexivity].
Qed.

(** ** The chunking loop *)

Lemma nextSafeBreak_bounds (text : str) (i : nat) (maxLen : Z) :
  (i < length text)%nat -> (1 <= maxLen)%Z ->
  exists j, nextSafeBreak text (Z.of_nat i) maxLen = Z.of_nat j /\
            (i < j <= length text)%nat.
Proof.
  intros Hi Hm. unfold nextSafeBreak. cbv zeta.
  replace (Z.of_nat i + maxLen)%Z with (Z.of_nat (i + Z.to_nat maxLen)) by lia.
  rewrite slice_nat by lia.
  set (sl := take (i + Z.to_nat maxLen - i) (drop i text)).
  assert (Hlen : length sl = Nat.min (Z.to_nat maxLen) (length text - i)).
  { subst sl. rewrite length_take, length_drop. lia. }
  destruct (Z.ltb_spec (Z.of_nat (length sl)) maxLen) as [Hlt|Hge].
  - exists (i + length sl)%nat. split; lia.
  - destruct (lastIndexOf_bounds [LF; LF] sl) as [Hp1 Hp2].
    destruct (lastIndexOf_bounds [LF] sl) as [Hl1 Hl2].
    cbn [length] in Hp2, Hl2.
    destruct (Z.ltb_spec maxLen (2 * lastIndexOf [LF; LF] sl)) as [H1|H1].
    + exists (i + Z.to_nat (lastIndexOf [LF; LF] sl + 1))%nat. split; lia.
    + destruct (Z.ltb_spec maxLen (2 * lastIndexOf [LF] sl)) as [H2|H2].
      * exists (i + Z.to_nat (lastIndexOf [LF] sl + 1))%nat. split; lia.
      * exists (i + Z.to_nat maxLen)%nat. split; lia.
Qed.

Lemma skipBlank_bounds (text : str) (j : nat) :
  (j <= length text)%nat ->
  exists k, skipBlank text (Z.of_nat j) = Z.of_nat k /\
            (j <= k <= length text)%nat /\
            forallb isSpace (take (k - j) (drop j text)) = true.
Proof.
  intros Hj. unfold skipBlank.
  destruct (Z.ltb_spec (Z.of_nat j) 0) as [?|_]; [lia|].
  rewrite Nat2Z.id.
  destruct (blankRun_split (drop j text)) as [Hb1 Hb2].
  rewrite length_drop in Hb1.
  exists (j + blankRun (drop j text))%nat. split; [lia|]. split; [lia|].
  now replace (j + blankRun (drop j text) - j)%nat with (blankRun (drop j text)) by lia.
Qed.

Lemma Interleaved_space_l (w t : str) (cs : list str) :
  forallb isSpace w = true -> Interleaved t cs -> Interleaved (w ++ t) cs.
Proof.
  intros Hw H. destruct H as [w0 H0|w0 c rest cs H0 H].
  - constructor. now rewrite forallb_app, Hw, H0.
  - rewrite app_assoc. constructor; [|exact H]. now rewrite forallb_app, Hw, H0.
Qed.

Lemma Interleaved_snoc (t l c r : str) (cs : list str) :
  Interleaved t cs -> forallb isSpace l = true -> forallb isSpace r = true ->
  Interleaved (t ++ l ++ c ++ r) (cs ++ [c]).
Proof.
  intros H Hl Hr. induction H as [w Hw|w c0 rest cs Hw H IH].
  - rewrite app_assoc. cbn [app]. constructor.
    + now rewrite forallb_app, Hw, Hl.
    + now constructor.
  - rewrite <- !app_assoc. cbn [app]. constructor; [exact Hw|]. exact IH.
Qed.

Lemma Interleaved_filter (t : str) (cs : list str) :
  Interleaved t cs -> Interleaved t (List.filter nonEmpty cs).
Proof.
  intros H. induction H as [w Hw|w c rest cs Hw H IH].
  - now constructor.
  - cbn [List.filter]. destruct c as [|x c]; cbn [nonEmpty].
    + cbn [app]. now apply Interleaved_space_l.
    + now constructor.
Qed.

Lemma Interleaved_single (t : str) : Interleaved t [t].
Proof.
  pose proof (Interleaved_cons [] t [] [] eq_refl (Interleaved_nil [] eq_refl)) as H.
  cbn [app] in H. now rewrite app_nil_r in H.
Qed.

(** One run of the loop from position [i]: with fuel for the units still to
    read it returns, and what it returns extends the chunks so far to the
    whole text. *)
Lemma splitLoop_spec (text : str) (maxLen : Z) :
  (1 <= maxLen)%Z ->
  forall (fuel i : nat) (cs : list str),
    (i <= length text)%nat -> (length text - i <= fuel)%nat ->
    Interleaved (take i text) cs ->
    Forall (fun c => trim c = c) cs ->
    exists res,
      splitLoop fuel text maxLen (Z.of_nat i) cs = Some res /\
      Interleaved text res /\ Forall (fun c => trim c = c) res.
Proof.
  intros Hm. induction fuel as [|fuel IH]; intros i cs Hi Hf Hint Htr.
  - assert (i = length text) as -> by lia.
    exists cs. cbn [splitLoop]. rewrite Z.ltb_irrefl.
    rewrite take_ge in Hint by lia. auto.
  - cbn [splitLoop].
    destruct (Z.ltb_spec (Z.of_nat i) (Z.of_nat (length text))) as [Hlt|Hge].
    + destruct (nextSafeBreak_bounds text i maxLen) as (j & Hj & Hij); [lia|exact Hm|].
      destruct (skipBlank_bounds text j) as (k & Hk & Hjk & Hblank); [lia|].
      cbv zeta. rewrite Hj, Hk. rewrite slice_nat by lia.
      apply IH; [lia|lia| |].
      * destruct (trim_split (take (j - i) (drop i text))) as (l & r & Hpiece & Hl & Hr).
        assert (Htake : take k text
                        = take i text ++ l ++ trim (take (j - i) (drop i text))
                            ++ r ++ take (k - j) (drop j text)).
        { rewrite (app_assoc _ r), (app_assoc l), <- Hpiece.
          replace k with (j + (k - j))%nat at 1 by lia.
          rewrite take_add_drop.
          replace j with (i + (j - i))%nat at 1 by lia.
          now rewrite take_add_drop, <- app_assoc. }
        rewrite Htake. apply Interleaved_snoc; [exact Hint|exact Hl|].
        now rewrite forallb_app, Hr, Hblank.
      * apply Forall_app. split; [exact Htr|]. constructor; [|constructor].
        apply trim_idem.
    + exists cs. assert (i = length text) as -> by lia.
      rewrite take_ge in Hint by lia. auto.
Qed.

(** With a limit of zero the break never moves past a unit that is not
    blank: no amount of fuel lets the loop return. *)
Lemma splitChunksSafe_zero_limit_loops (fuel : nat) :
  splitChunksSafe fuel (lit "a") 0 = None.
Proof.
  unfold splitChunksSafe. change (Z.of_nat (length (lit "a")) <=? 0)%Z with false.
  cbv iota. enough (H : forall cs, splitLoop fuel (lit "a") 0 0 cs = None) by now rewrite H.
  induction fuel as [|fuel IH]; intros cs; [reflexivity|].
  cbn [splitLoop]. change (0 <? Z.of_nat (length (lit "a")))%Z with true. cbv iota zeta.
  change (nextSafeBreak (lit "a") 0 0) with 0%Z.
  change (skipBlank (lit "a") 0) with 0%Z. apply IH.
Qed.

(** C10: under a limit of at least one unit every break lies strictly after
    the start it was computed from and within the text, the skip over blanks
    does not move back, and the loop returns once it has fuel for the length
    of the text. *)
Theorem splitChunksSafe_terminates (text : str) (maxLen : Z) :
  (1 <= maxLen)%Z ->
  (forall start, (0 <= start < Z.of_nat (length text))%Z ->
     (start < nextSafeBreak text start maxLen <= Z.of_nat (length text))%Z /\
     (nextSafeBreak text start maxLen
        <= skipBlank text (nextSafeBreak text start maxLen))%Z) /\
  (forall fuel, (length text <= fuel)%nat ->
     exists chunks, splitChunksSafe fuel text maxLen = Some chunks).
Proof.
  intros Hm. split.
  - intros start Hs.
    destruct (nextSafeBreak_bounds text (Z.to_nat start) maxLen) as (j & Hj & Hij);
      [lia|exact Hm|].
    rewrite Z2Nat.id in Hj by lia. rewrite Hj.
    destruct (skipBlank_bounds text j) as (k & Hk & Hjk & _); [lia|].
    rewrite Hk. lia.
  - intros fuel Hf. unfold splitChunksSafe.
    destruct (Z.of_nat (length text) <=? maxLen)%Z; [eauto|].
    destruct (splitLoop_spec text maxLen Hm fuel 0 []) as (res & Hres & _);
      [lia|lia|now constructor|constructor|].
    change (Z.of_nat 0) with 0%Z in Hres. rewrite Hres. cbn. eauto.
Qed.

Lemma splitChunksSafe_terminates_witness :
  (1 <= 4)%Z /\
  exists chunks, splitChunksSafe 11 (lit "hello world") 4 = Some chunks.
Proof.
  split; [lia|].
  destruct (splitChunksSafe_terminates (lit "hello world") 4 ltac:(lia)) as [_ H].
  apply H. vm_compute. lia.
Defined.

(** C3, as the code has it: under a limit of at least one unit the call
    returns; a text within the limit comes back as the single chunk it is;
    the chunks of a longer text are non-empty and trimmed; and in both cases
    the text is the chunks in order with white space around them. *)
Theorem splitChunksSafe_chunks (text : str) (maxLen : Z) :
  (1 <= maxLen)%Z ->
  exists chunks,
    splitChunksSafe (length text) text maxLen = Some chunks /\
    ((Z.of_nat (length text) <= maxLen)%Z -> chunks = [text]) /\
    ((maxLen < Z.of_nat (length text))%Z ->
       Forall (fun c => c <> [] /\ trim c = c) chunks) /\
    Interleaved text chunks.
Proof.
  intros Hm. unfold splitChunksSafe.
  destruct (Z.leb_spec (Z.of_nat (length text)) maxLen) as [Hle|Hgt].
  - exists [text]. split; [reflexivity|]. split; [reflexivity|].
    split; [lia|apply Interleaved_single].
  - destruct (splitLoop_spec text maxLen Hm (length text) 0 []) as (res & Hres & Hint & Htr);
      [lia|lia|now constructor|constructor|].
    change (Z.of_nat 0) with 0%Z in Hres. rewrite Hres.
    exists (List.filter nonEmpty res). split; [reflexivity|]. split; [lia|].
    split; [|now apply Interleaved_filter].
    intros _. clear -Htr. induction Htr as [|c res Hc _ IH]; [constructor|].
    cbn [List.filter]. destruct c as [|x c]; cbn [nonEmpty]; [exact IH|].
    constructor; [|exact IH]. split; [discriminate|exact Hc].
Qed.

Lemma splitChunksSafe_chunks_witness :
  (1 <= 4)%Z /\
  exists chunks,
    splitChunksSafe 11 (lit "hello world") 4 = Some chunks /\
    ((11 <= 4)%Z -> chunks = [lit "hello world"]) /\
    ((4 < 11)%Z -> Forall (fun c => c <> [] /\ trim c = c) chunks) /\
    Interleaved (lit "hello world") chunks.
Proof.
  split; [lia|]. exact (splitChunksSafe_chunks (lit "hello world") 4 ltac:(lia)).
Defined.

(** C3 as stated fails on a text within the limit: it is returned as it is,
    empty or with blanks at its ends; the empty text reaches the chunker
    from the entry point. *)
Lemma splitChunksSafe_short_text_kept :
  splitChunksSafe 0 [] 4096 = Some [[]] /\
  splitChunksSafe 3 (lit " a ") 4096 = Some [lit " a "] /\
  trim (lit " a ") <> lit " a " /\
  preprocess 0 (JStr []) (mkOptions None None None None) = Some (mkResult [[]] None).
Proof.
  split; [reflexivity|]. split; [reflexivity|]. split; [|vm_compute; reflexivity].
  vm_compute. discriminate.
Qed.

(** ** Replacement under the [g] flag, one position at a time *)

Lemma rxSearch_index (re : RegExp) (rest : str) :
  forall prev idx m, rxSearch re prev rest idx = Some m -> (idx <= m_index m)%nat.
Proof.
  induction rest as [|c t IH]; intros prev idx m; cbn [rxSearch];
    destruct (matchHere re prev _) as [y|].
  - intros [= <-]. simpl. lia.
  - discriminate.
  - intros [= <-]. simpl. lia.
  - intros H. apply IH in H. lia.
Qed.

Lemma execAll_index (fuel : nat) (re : RegExp) (prev : option N) (rest : str) (pos : nat) :
  match execAll fuel re prev rest pos with
  | m :: _ => (pos <= m_index m)%nat
  | [] => True
  end.
Proof.
  destruct fuel as [|fuel]; [exact I|]. cbn [execAll].
  destruct (rxSearch re prev rest pos) as [m|] eqn:Hs; [|exact I].
  now apply rxSearch_index in Hs.
Qed.

(** No match at the current position: the unit is kept and the scan moves on. *)
Lemma replace_step_keep (tpl : list rpart) (fuel : nat) (re : RegExp)
    (prev : option N) (c : N) (t : str) (pos : nat) :
  matchHere re prev (c :: t) = None ->
  splice tpl (execAll fuel re prev (c :: t) pos) pos (c :: t)
  = c :: splice tpl (execAll fuel re (Some c) t (S pos)) (S pos) t.
Proof.
  intros Hno. destruct fuel as [|fuel]; [reflexivity|].
  assert (Heq : execAll (S fuel) re prev (c :: t) pos
                = execAll (S fuel) re (Some c) t (S pos)).
  { cbn [execAll rxSearch]. now rewrite Hno. }
  rewrite Heq. pose proof (execAll_index (S fuel) re (Some c) t (S pos)) as Hidx.
  destruct (execAll (S fuel) re (Some c) t (S pos)) as [|m ms]; [reflexivity|].
  cbn [splice].
  replace (m_index m - pos)%nat with (S (m_index m - S pos)) by lia.
  reflexivity.
Qed.

(** A match of [n] units, [n] at least one, at the current position: its
    replacement is emitted and the scan goes on behind it. *)
Lemma replace_step_match (tpl : list rpart) (fuel : nat) (re : RegExp)
    (prev : option N) (rest : str) (pos : nat) (y : mstate) (n : nat) :
  matchHere re prev rest = Some y ->
  (0 < n <= length rest)%nat -> ms_rest y = drop n rest ->
  splice tpl (execAll (S fuel) re prev rest pos) pos rest
  = expand tpl (mkRmatch pos (take n rest) (ms_caps y) (ms_prev y) (ms_rest y))
      ++ splice tpl (execAll fuel re (ms_prev y) (drop n rest) (pos + n)) (pos + n)
           (drop n rest).
Proof.
  intros Hy Hn Hrest. cbn [execAll].
  assert (Hs : rxSearch re prev rest pos
               = Some (mkRmatch pos (take n rest) (ms_caps y) (ms_prev y) (ms_rest y))).
  { destruct rest as [|c t]; cbn [rxSearch]; rewrite Hy; repeat f_equal;
      rewrite Hrest, length_drop; lia. }
  rewrite Hs. cbn [m_text m_after m_index m_prev].
  assert (Hlen : length (take n rest) = n) by (rewrite length_take; lia).
  destruct (take n rest) as [|x w] eqn:Htake; [simpl in Hlen; lia|].
  cbn [splice m_index m_text]. rewrite Hlen, Hrest.
  rewrite Nat.sub_diag. cbn [take app Nat.add]. reflexivity.
Qed.

Lemma execAll_nil (fuel : nat) (re : RegExp) (prev : option N) (pos : nat) :
  matchHere re prev [] = None -> execAll fuel re prev [] pos = [].
Proof.
  intros H. destruct fuel; [reflexivity|]. cbn [execAll rxSearch]. now rewrite H.
Qed.

Lemma replace_crRe_scan (rest : str) :
  forall (fuel : nat) (prev : option N) (pos : nat),
    (length rest < fuel)%nat ->
    splice [PLit [LF]] (execAll fuel crRe prev rest pos) pos rest = replaceCR rest.
Proof.
  induction rest as [|c t IH]; intros fuel prev pos Hf.
  - now rewrite execAll_nil.
  - cbn [replaceCR]. destruct (CR =? c) eqn:Hc.
    + destruct fuel as [|fuel]; [simpl in Hf; lia|].
      rewrite (replace_step_match _ fuel crRe prev (c :: t) pos (mkMstate (Some c) t []) 1).
      * cbn [expand app drop ms_prev]. f_equal. apply IH. simpl in Hf; lia.
      * unfold matchHere. cbn [source multiline crRe crlfRe RLit rxMatch ms_rest ms_caps ms_prev]. now rewrite Hc.
      * simpl; lia.
      * reflexivity.
    + rewrite replace_step_keep.
      * f_equal. apply IH. simpl in Hf; lia.
      * unfold matchHere. cbn [source multiline crRe crlfRe RLit rxMatch ms_rest ms_caps ms_prev]. now rewrite Hc.
Qed.

Lemma replaceRe_crRe (s : str) : replaceRe crRe [PLit [LF]] s = replaceCR s.
Proof. unfold replaceRe, matchAll. cbn [global crRe]. apply replace_crRe_scan. lia. Qed.

Lemma replace_crlfRe_scan (n : nat) :
  forall (rest : str) (fuel : nat) (prev : option N) (pos : nat),
    (length rest <= n)%nat -> (length rest < fuel)%nat ->
    splice [PLit [LF]] (execAll fuel crlfRe prev rest pos) pos rest = replaceCRLF rest.
Proof.
  induction n as [|n IH]; intros rest fuel prev pos Hn Hf.
  - destruct rest; [|simpl in Hn; lia]. now rewrite execAll_nil.
  - destruct rest as [|c [|d t]].
    + now rewrite execAll_nil.
    + rewrite replace_step_keep.
      * now rewrite execAll_nil.
      * unfold matchHere. cbn [source multiline crRe crlfRe RLit rxMatch ms_rest ms_caps ms_prev]. now destruct (CR =? c).
    + cbn [replaceCRLF]. destruct ((CR =? c) && (LF =? d)) eqn:Hcd.
      * apply andb_true_iff in Hcd as [Hc Hd].
        destruct fuel as [|fuel]; [simpl in Hf; lia|].
        rewrite (replace_step_match _ fuel crlfRe prev (c :: d :: t) pos
                   (mkMstate (Some d) t []) 2).
        -- cbn [expand app drop ms_prev]. f_equal. apply IH; simpl in *; lia.
        -- unfold matchHere. cbn [source multiline crRe crlfRe RLit rxMatch ms_rest ms_caps ms_prev]. now rewrite Hc, Hd.
        -- simpl; lia.
        -- reflexivity.
      * rewrite replace_step_keep.
        -- f_equal. apply IH; simpl in *; lia.
        -- unfold matchHere. cbn [source multiline crRe crlfRe RLit rxMatch ms_rest ms_caps ms_prev]. destruct (CR =? c); [|reflexivity].
           cbn [andb] in Hcd. now rewrite Hcd.
Qed.

Lemma replaceRe_crlfRe (s : str) : replaceRe crlfRe [PLit [LF]] s = replaceCRLF s.
Proof.
  unfold replaceRe, matchAll. cbn [global crlfRe].
  apply (replace_crlfRe_scan (length s)); lia.
Qed.

Lemma replaceCRLF_cons2 (c d : N) (t : str) :
  replaceCRLF (c :: d :: t)
  = if (CR =? c) && (LF =? d) then LF :: replaceCRLF t else c :: replaceCRLF (d :: t).
Proof. reflexivity. Qed.

Lemma unifyLineEndings_cons2 (c d : N) (t : str) :
  unifyLineEndings (c :: d :: t)
  = if c =? CR
    then LF :: (if d =? LF then unifyLineEndings t else unifyLineEndings (d :: t))
    else c :: unifyLineEndings (d :: t).
Proof. reflexivity. Qed.

Lemma replaceCR_cons (c : N) (t : str) :
  replaceCR (c :: t) = (if CR =? c then LF else c) :: replaceCR t.
Proof. reflexivity. Qed.

Lemma unifyLineEndings_two_passes (s : str) :
  replaceCR (replaceCRLF s) = unifyLineEndings s.
Proof.
  enough (H : forall n s, (length s <= n)%nat -> replaceCR (replaceCRLF s) = unifyLineEndings s)
    by (apply (H (length s)); lia).
  clear s. induction n as [|n IH]; intros s Hn.
  - destruct s; [reflexivity|simpl in Hn; lia].
  - destruct s as [|c [|d t]]; [reflexivity| |].
    + cbn [replaceCRLF replaceCR unifyLineEndings].
      rewrite (N.eqb_sym c CR). now destruct (CR =? c).
    + rewrite replaceCRLF_cons2, unifyLineEndings_cons2.
      rewrite (N.eqb_sym c CR), (N.eqb_sym d LF).
      cbn [length] in Hn.
      destruct (CR =? c) eqn:Hc; cbn [andb].
      * destruct (LF =? d) eqn:Hd; rewrite replaceCR_cons.
        -- change (CR =? LF) with false. cbv iota. f_equal. apply IH. lia.
        -- rewrite Hc. f_equal. apply IH. cbn [length]. lia.
      * rewrite replaceCR_cons, Hc. f_equal. apply IH. cbn [length]. lia.
Qed.

Lemma clearCaps_nil (x : mstate) : clearCaps [] x = x.
Proof.
  destruct x as [prev rest caps]. unfold clearCaps. cbn [ms_prev ms_rest ms_caps].
  f_equal. induction caps as [|[j w] caps IH]; [reflexivity|].
  simpl. f_equal. exact IH.
Qed.

(** A greedy repetition of a one-unit class, with nothing after it, takes
    the longest run, provided the run has the minimum length. *)
Lemma repLoop_class_greedy (ml : bool) (p : N -> bool) :
  forall (fuel lo : nat) (prev : option N) (rest : str) (caps : list (nat * str)),
    (lo + length rest < fuel)%nat ->
    repLoop (rxMatch ml (RChar p)) [] true fuel lo None (mkMstate prev rest caps) Some
    = if (lo <=? spanLen p rest)%nat
      then Some (mkMstate (spanPrev p prev rest) (drop (spanLen p rest) rest) caps)
      else None.
Proof.
  induction fuel as [|fuel IH]; intros lo prev rest caps Hf; [lia|].
  cbn [repLoop]. rewrite clearCaps_nil. cbn [rxMatch ms_rest ms_caps].
  destruct lo as [|lo]; cbn [Nat.eqb andb pred fmap option_fmap option_map].
  - destruct rest as [|c t]; [reflexivity|].
    cbn [spanLen spanPrev]. destruct (p c) eqn:Hp; [|reflexivity].
    cbn [length ms_rest].
    replace (length t =? S (length t))%nat with false
      by (symmetry; apply Nat.eqb_neq; lia).
    rewrite IH by (cbn [length] in Hf; lia). reflexivity.
  - destruct rest as [|c t]; [reflexivity|].
    cbn [spanLen spanPrev]. destruct (p c) eqn:Hp; [|reflexivity].
    rewrite IH by (cbn [length] in Hf; lia). reflexivity.
Qed.

Lemma matchHere_manyLfRe (prev : option N) (rest : str) :
  matchHere manyLfRe prev rest
  = if (3 <=? spanLen (N.eqb LF) rest)%nat
    then Some (mkMstate (spanPrev (N.eqb LF) prev rest)
                 (drop (spanLen (N.eqb LF) rest) rest) [])
    else None.
Proof.
  unfold matchHere. cbn [source multiline manyLfRe rxMatch ms_rest].
  apply (repLoop_class_greedy false). lia.
Qed.

Lemma spanLen_le (p : N -> bool) (s : str) : (spanLen p s <= length s)%nat.
Proof. induction s as [|c t IH]; simpl; [lia|]. destruct (p c); simpl; lia. Qed.

Lemma spanLen_drop (p : N -> bool) (s : str) : spanLen p (drop (spanLen p s) s) = O.
Proof.
  induction s as [|c t IH]; [reflexivity|]. cbn [spanLen].
  destruct (p c) eqn:Hp; [exact IH|]. cbn [drop spanLen]. now rewrite Hp.
Qed.

Lemma collapseGo_run (k pending : nat) (s : str) :
  collapseGo k pending s
  = collapseGo k (pending + spanLen (N.eqb LF) s) (drop (spanLen (N.eqb LF) s) s).
Proof.
  revert pending. induction s as [|c t IH]; intros pending.
  - cbn [spanLen drop]. now rewrite Nat.add_0_r.
  - cbn [spanLen collapseGo]. rewrite (N.eqb_sym c LF).
    destruct (LF =? c) eqn:Hc.
    + rewrite IH. cbn [drop]. f_equal. lia.
    + cbn [drop collapseGo]. rewrite (N.eqb_sym c LF), Hc. now rewrite Nat.add_0_r.
Qed.

Lemma flushRun_zero (k : nat) : (1 <= k)%nat -> flushRun k 0 = [].
Proof.
  intros Hk. unfold flushRun. destruct (Nat.leb_spec k 0); [lia|reflexivity].
Qed.

Lemma collapseGo_flush (k pending : nat) (s : str) :
  (1 <= k)%nat -> spanLen (N.eqb LF) s = O ->
  collapseGo k pending s = flushRun k pending ++ collapseGo k 0 s.
Proof.
  intros Hk. destruct s as [|c t]; cbn [spanLen collapseGo].
  - intros _. now rewrite flushRun_zero, app_nil_r.
  - rewrite (N.eqb_sym c LF). destruct (LF =? c); [discriminate|]. intros _.
    now rewrite flushRun_zero.
Qed.

Lemma replicate_snoc_cons {A : Type} (n : nat) (x : A) (l : list A) :
  replicate n x ++ x :: l = x :: replicate n x ++ l.
Proof. induction n as [|n IH]; [reflexivity|]. cbn [replicate app]. now rewrite IH. Qed.

(** The scan for runs of three line feeds against the counting pass: [p]
    line feeds of a run too short to match have been kept already. *)
Lemma replace_manyLfRe_scan (n : nat) :
  forall (rest : str) (p fuel : nat) (prev : option N) (pos : nat),
    (length rest <= n)%nat -> (length rest < fuel)%nat ->
    (p = 0 \/ p + spanLen (N.eqb LF) rest < 3)%nat ->
    replicate p LF ++ splice [PLit [LF; LF]] (execAll fuel manyLfRe prev rest pos) pos rest
    = collapseGo 3 p rest.
Proof.
  induction n as [|n IH]; intros rest p fuel prev pos Hn Hf Hp.
  - destruct rest; [|simpl in Hn; lia].
    rewrite execAll_nil by reflexivity. cbn [splice collapseGo spanLen] in *.
    rewrite app_nil_r. unfold flushRun. destruct (Nat.leb_spec 3 p); [lia|reflexivity].
  - destruct (Nat.leb_spec 3 (spanLen (N.eqb LF) rest)) as [Hrun|Hrun].
    + assert (p = 0)%nat as -> by lia. cbn [replicate app].
      pose proof (spanLen_le (N.eqb LF) rest) as Hle.
      destruct fuel as [|fuel]; [lia|].
      rewrite (replace_step_match _ fuel manyLfRe prev rest pos
                 (mkMstate (spanPrev (N.eqb LF) prev rest)
                    (drop (spanLen (N.eqb LF) rest) rest) [])
                 (spanLen (N.eqb LF) rest)).
      * cbn [expand app ms_prev].
        rewrite collapseGo_run, collapseGo_flush by (try apply spanLen_drop; lia).
        cbn [Nat.add]. unfold flushRun.
        destruct (Nat.leb_spec 3 (spanLen (N.eqb LF) rest)); [|lia].
        cbn [app]. do 2 f_equal.
        specialize (IH (drop (spanLen (N.eqb LF) rest) rest) 0%nat fuel
                      (spanPrev (N.eqb LF) prev rest) (pos + spanLen (N.eqb LF) rest)%nat).
        cbn [replicate app] in IH. apply IH; [rewrite length_drop; lia..|now left].
      * rewrite matchHere_manyLfRe.
        destruct (Nat.leb_spec 3 (spanLen (N.eqb LF) rest)); [reflexivity|lia].
      * lia.
      * reflexivity.
    + destruct rest as [|c t].
      * rewrite execAll_nil by reflexivity. cbn [splice collapseGo].
        rewrite app_nil_r. unfold flushRun.
        cbn [spanLen] in Hp. destruct (Nat.leb_spec 3 p); [lia|reflexivity].
      * rewrite replace_step_keep.
        2:{ rewrite matchHere_manyLfRe.
            destruct (Nat.leb_spec 3 (spanLen (N.eqb LF) (c :: t))); [lia|reflexivity]. }
        cbn [collapseGo]. cbn [spanLen] in Hrun, Hp. rewrite (N.eqb_sym c LF).
        cbn [length] in Hn, Hf.
        destruct (LF =? c) eqn:Hc.
        -- apply N.eqb_eq in Hc. subst c. rewrite replicate_snoc_cons.
           change (LF :: replicate p LF ++ ?l) with (replicate (S p) LF ++ l).
           apply IH; [lia|lia|right; lia].
        -- specialize (IH t 0%nat fuel (Some c) (S pos)). cbn [replicate app] in IH.
           rewrite IH by (try lia; now left).
           unfold flushRun. destruct (Nat.leb_spec 3 p); [lia|reflexivity].
Qed.

Lemma replaceRe_manyLfRe (s : str) :
  replaceRe manyLfRe [PLit [LF; LF]] s = collapseNewlines 3 s.
Proof.
  unfold replaceRe, matchAll, collapseNewlines. cbn [global manyLfRe].
  apply (replace_manyLfRe_scan (length s) s 0); [lia|lia|now left].
Qed.

(** C5, as the code has it: normalisation is, in this order, the line endings
    CR LF and CR made LF, every run of three or more line feeds (two or more
    consecutive blank lines) made two line feeds, every line trimmed at its
    right end, and the whole text trimmed. *)
Theorem normalizeWhitespace_steps (text : str) :
  normalizeWhitespace text = normalizeBySteps 3 text.
Proof.
  unfold normalizeWhitespace, normalizeBySteps, rtrimLines.
  now rewrite replaceRe_crlfRe, replaceRe_crRe, replaceRe_manyLfRe,
    unifyLineEndings_two_passes.
Qed.

(** C5 as stated fails on two consecutive blank lines: the code collapses
    them to one, the steps as worded leave them. *)
Lemma normalizeWhitespace_two_blank_lines :
  let text := join [LF] [lit "a"; []; []; lit "b"] in
  normalizeWhitespace text = join [LF] [lit "a"; []; lit "b"] /\
  normalize_spec text = text /\
  normalizeWhitespace text <> normalize_spec text.
Proof.
  cbv zeta. split; [vm_compute; reflexivity|]. split; [vm_compute; reflexivity|].
  vm_compute. discriminate.
Qed.

(** ** The matcher against the relation *)

Lemma RepM_length (R : mstate -> mstate -> Prop) (inner : list nat) :
  (forall x y, R x y -> (length (ms_rest y) <= length (ms_rest x))%nat) ->
  forall lo hi x y, RepM R inner lo hi x y ->
    (length (ms_rest y) <= length (ms_rest x))%nat.
Proof.
  intros HR lo hi x y H. induction H as [| |lo hi x y z _ Hxy _ _ IH]; [lia..|].
  apply HR in Hxy. cbn [clearCaps ms_rest] in Hxy. lia.
Qed.

Lemma Matches_length (ml : bool) (r : regex) :
  forall x y, Matches ml r x y -> (length (ms_rest y) <= length (ms_rest x))%nat.
Proof.
  induction r as [|p|a IHa b IHb|a IHa b IHb|g lo hi a IHa|i a IHa|i| | |p|p];
    intros x y; cbn [Matches].
  - now intros ->.
  - intros (ch & t & Hx & _ & ->). rewrite Hx. simpl. lia.
  - intros (m & Ha & Hb). apply IHa in Ha. apply IHb in Hb. lia.
  - intros [H|H]; auto.
  - now apply RepM_length.
  - intros (m & Ha & ->). cbn [ms_rest]. now apply IHa.
  - destruct (getCap i (ms_caps x)); [|now intros ->].
    intros [_ ->]. cbn [ms_rest]. rewrite length_drop. lia.
  - intros H. assert (y = x) as -> by (destruct (ms_prev x); [exact (proj2 H)|exact H]). lia.
  - intros H. assert (y = x) as -> by (destruct (ms_rest x); [exact H|exact (proj2 H)]). lia.
  - intros H. assert (y = x) as -> by (destruct (ms_prev x); [exact (proj2 H)|exact H]). lia.
  - intros H. assert (y = x) as -> by (destruct (ms_rest x); [exact H|exact (proj2 H)]). lia.
Qed.

Lemma repLoop_S (body : mstate -> cont -> option mstate) (inner : list nat) (g : bool)
    (fuel lo : nat) (hi : option nat) (x : mstate) (c : cont) :
  hi <> Some O ->
  repLoop body inner g (S fuel) lo hi x c
  = let d : cont := fun y =>
      if (lo =? 0)%nat && (length (ms_rest y) =? length (ms_rest x))%nat then None
      else repLoop body inner g fuel (pred lo) (pred <$> hi) y c in
    let xr := clearCaps inner x in
    if (lo =? 0)%nat then
      if g then match body xr d with Some z => Some z | None => c x end
      else match c x with Some z => Some z | None => body xr d end
    else body xr d.
Proof. intros Hhi. destruct hi as [[|h]|]; done. Qed.

Lemma is_Some_orelse {A : Type} (a b : option A) :
  is_Some (match a with Some z => Some z | None => b end) <-> is_Some a \/ is_Some b.
Proof.
  destruct a; split; [now left|done|now right|intros [H|H]; [by destruct H|done]].
Qed.

(** The loop of a repetition succeeds exactly when some sequence of
    iterations leads to a state from which the continuation succeeds. *)
Lemma repLoop_complete (R : mstate -> mstate -> Prop)
    (body : mstate -> cont -> option mstate) (inner : list nat) (g : bool) :
  (forall x y, R x y -> (length (ms_rest y) <= length (ms_rest x))%nat) ->
  (forall x c, is_Some (body x c) <-> exists y, R x y /\ is_Some (c y)) ->
  forall (fuel lo : nat) (hi : option nat) (x : mstate) (c : cont),
    (lo + length (ms_rest x) < fuel)%nat ->
    is_Some (repLoop body inner g fuel lo hi x c)
    <-> exists y, RepM R inner lo hi x y /\ is_Some (c y).
Proof.
  intros Hlen Hbody. induction fuel as [|fuel IH]; intros lo hi x c Hf; [lia|].
  destruct (decide (hi = Some O)) as [->|Hhi].
  - cbn [repLoop]. split.
    + intros Hc. exists x. split; [constructor|exact Hc].
    + intros (y & H & Hc). inversion H; subst; done.
  - rewrite repLoop_S by exact Hhi. cbv zeta.
    set (d := fun y : mstate =>
                if (lo =? 0)%nat && (length (ms_rest y) =? length (ms_rest x))%nat
                then None
                else repLoop body inner g fuel (pred lo) (pred <$> hi) y c).
    assert (Hd : forall y, R (clearCaps inner x) y ->
              (is_Some (d y) <->
               ~ (lo = O /\ length (ms_rest y) = length (ms_rest x)) /\
               exists z, RepM R inner (pred lo) (pred <$> hi) y z /\ is_Some (c z))).
    { intros y Hy. apply Hlen in Hy. cbn [clearCaps ms_rest] in Hy. unfold d.
      destruct (Nat.eqb_spec lo 0) as [Hlo|Hlo];
        destruct (Nat.eqb_spec (length (ms_rest y)) (length (ms_rest x))) as [He|He];
        cbn [andb].
      - split; [intros H; by destruct H|intros [H _]; by destruct H].
      - rewrite IH by lia. split; [intros H; split; [lia|exact H]|now intros [_ H]].
      - rewrite IH by lia. split; [intros H; split; [lia|exact H]|now intros [_ H]].
      - rewrite IH by lia. split; [intros H; split; [lia|exact H]|now intros [_ H]]. }
    assert (Hstep : is_Some (body (clearCaps inner x) d) <->
              exists z, (exists y, R (clearCaps inner x) y /\
                           ~ (lo = O /\ length (ms_rest y) = length (ms_rest x)) /\
                           RepM R inner (pred lo) (pred <$> hi) y z) /\ is_Some (c z)).
    { rewrite Hbody. split.
      - intros (y & Hy & H). apply (Hd y Hy) in H as (Hne & z & Hz & Hc).
        exists z. split; [exists y; auto|exact Hc].
      - intros (z & (y & Hy & Hne & Hz) & Hc). exists y. split; [exact Hy|].
        apply (Hd y Hy). split; [exact Hne|exists z; auto]. }
    assert (Hinv : forall z, RepM R inner lo hi x z <->
              (lo = O /\ z = x) \/
              exists y, R (clearCaps inner x) y /\
                        ~ (lo = O /\ length (ms_rest y) = length (ms_rest x)) /\
                        RepM R inner (pred lo) (pred <$> hi) y z).
    { intros z. split.
      - intros H. inversion H; subst; [done|left; auto|right; eauto].
      - intros [[-> ->]|(y & Hy & Hne & Hz)]; [constructor|].
        eapply RepM_step; eauto. }
    assert (Hall : (exists z, RepM R inner lo hi x z /\ is_Some (c z)) <->
              (lo = O /\ is_Some (c x)) \/ is_Some (body (clearCaps inner x) d)).
    { rewrite Hstep. split.
      - intros (z & Hz & Hc). apply Hinv in Hz as [[-> ->]|Hz]; [left; auto|right; eauto].
      - intros [[-> Hc]|(z & Hz & Hc)].
        + exists x. split; [constructor|exact Hc].
        + exists z. split; [apply Hinv; right; exact Hz|exact Hc]. }
    rewrite Hall. destruct (Nat.eqb_spec lo 0) as [Hlo|Hlo].
    + destruct g; rewrite is_Some_orelse; tauto.
    + tauto.
Qed.

(** The matcher succeeds exactly when the pattern can lead to a state from
    which the continuation succeeds. *)
Theorem rxMatch_complete (ml : bool) (r : regex) :
  forall (x : mstate) (c : cont),
    is_Some (rxMatch ml r x c) <-> exists y, Matches ml r x y /\ is_Some (c y).
Proof.
  induction r as [|p|a IHa b IHb|a IHa b IHb|g lo hi a IHa|i a IHa|i| | |p|p];
    intros x c; cbn [rxMatch Matches].
  - split; [intros H; eauto|now intros (y & -> & H)].
  - destruct (ms_rest x) as [|ch t] eqn:E.
    + split; [intros H; by destruct H|intros (y & (ch & t & [=] & _) & _)].
    + destruct (p ch) eqn:Hp.
      * split; [intros H; eexists; split; [exists ch, t; eauto|exact H]|].
        intros (y & (ch' & t' & Heq & _ & ->) & Hc). now injection Heq as <- <-.
      * split; [intros H; by destruct H|].
        intros (y & (ch' & t' & Heq & Hp' & _) & _). injection Heq as <- <-. congruence.
  - rewrite IHa. split.
    + intros (m & Ha & H). apply IHb in H as (y & Hb & Hc). eauto.
    + intros (y & (m & Ha & Hb) & Hc). exists m. split; [exact Ha|].
      apply IHb. eauto.
  - rewrite is_Some_orelse, IHa, IHb. split.
    + intros [(y & H & Hc)|(y & H & Hc)]; eauto.
    + intros (y & [H|H] & Hc); eauto.
  - apply repLoop_complete; [apply Matches_length|exact IHa|lia].
  - rewrite IHa. split.
    + intros (m & Ha & Hc). eauto.
    + intros (y & (m & Ha & ->) & Hc). eauto.
  - destruct (getCap i (ms_caps x)) as [w|].
    + destruct (isPrefix w (ms_rest x)).
      * split; [intros H; eauto|now intros (y & (_ & ->) & H)].
      * split; [intros H; by destruct H|intros (y & ([=] & _) & _)].
    + split; [intros H; eauto|now intros (y & -> & H)].
  - destruct (ms_prev x) as [q|].
    + destruct (ml && isLineTerminator q).
      * split; [intros H; eauto|now intros (y & (_ & ->) & H)].
      * split; [intros H; by destruct H|intros (y & ([=] & _) & _)].
    + split; [intros H; eauto|now intros (y & -> & H)].
  - destruct (ms_rest x) as [|ch t].
    + split; [intros H; eauto|now intros (y & -> & H)].
    + destruct (ml && isLineTerminator ch).
      * split; [intros H; eauto|now intros (y & (_ & ->) & H)].
      * split; [intros H; by destruct H|intros (y & ([=] & _) & _)].
  - destruct (ms_prev x) as [q|].
    + destruct (p q).
      * split; [intros H; by destruct H|intros (y & ([=] & _) & _)].
      * split; [intros H; eauto|now intros (y & (_ & ->) & H)].
    + split; [intros H; eauto|now intros (y & -> & H)].
  - destruct (ms_rest x) as [|ch t].
    + split; [intros H; eauto|now intros (y & -> & H)].
    + destruct (p ch).
      * split; [intros H; by destruct H|intros (y & ([=] & _) & _)].
      * split; [intros H; eauto|now intros (y & (_ & ->) & H)].
Qed.

(** ** The separator pattern *)


Lemma RepM_class_elim (ml : bool) (p : N -> bool) (inner : list nat) :
  forall lo hi x y, RepM (Matches ml (RChar p)) inner lo hi x y ->
    exists w, ms_rest x = w ++ ms_rest y /\ forallb p w = true /\
              (hi = None -> (lo <= length w)%nat).
Proof.
  intros lo hi x y H.
  induction H as [lo x|hi x|lo hi x y z Hhi Hxy Hne Hrep (w & Hw & Hp & Hlo)].
  - exists []. split; [reflexivity|]. split; [reflexivity|discriminate].
  - exists []. split; [reflexivity|]. split; [reflexivity|]. intros _. cbn; lia.
  - cbn [Matches] in Hxy. destruct Hxy as (ch & t & Hx & Hch & ->).
    cbn [clearCaps ms_rest] in Hx. cbn [ms_rest] in Hw.
    exists (ch :: w). split; [now rewrite Hx, Hw|]. split; [cbn; now rewrite Hch, Hp|].
    intros ->. specialize (Hlo eq_refl). cbn [length]. lia.
Qed.

Lemma RepM_class_intro (ml : bool) (p : N -> bool) (inner : list nat) (r : str) :
  forall (w : str) (lo : nat) (x : mstate),
    forallb p w = true -> (lo <= length w)%nat -> ms_rest x = w ++ r ->
    exists y, RepM (Matches ml (RChar p)) inner lo None x y /\ ms_rest y = r.
Proof.
  induction w as [|ch w IH]; intros lo x Hp Hlo Hx.
  - cbn [length] in Hlo. assert (lo = O) as -> by lia. exists x. split; [constructor|exact Hx].
  - cbn [forallb] in Hp. apply andb_true_iff in Hp as [Hch Hp].
    destruct (IH (pred lo) (mkMstate (Some ch) (w ++ r) (ms_caps (clearCaps inner x))))
      as (y & Hy & Hr); [exact Hp|cbn [length] in Hlo; lia|reflexivity|].
    exists y. split; [|exact Hr].
    eapply RepM_step; [discriminate| | |exact Hy].
    + cbn [Matches]. exists ch, (w ++ r). cbn [clearCaps ms_rest]. auto.
    + cbn [ms_rest]. rewrite Hx. cbn [length app]. lia.
Qed.

Lemma RepM_groups_elim :
  forall lo x y, RepM (Matches false sepGroup) [1%nat] lo None x y ->
    (lo = O /\ ms_rest x = ms_rest y) \/
    exists u, SepGroups u /\ ms_rest x = u ++ ms_rest y.
Proof.
  intros lo x y H. remember None as hi eqn:Hhi.
  induction H as [lo x|hi x|lo hi x y z _ Hxy Hne Hrep IH]; [discriminate|now left|].
  subst hi. specialize (IH eq_refl). right.
  cbn [Matches sepGroup] in Hxy.
  destruct Hxy as (m & (m1 & (ch & t & Hx & Hch & ->) & Hplus) & ->).
  apply N.eqb_eq in Hch. subst ch. cbn [clearCaps ms_rest] in Hx.
  apply RepM_class_elim in Hplus as (w & Hw & Hp & Hlo).
  specialize (Hlo eq_refl). cbn [ms_rest] in Hw, IH.
  assert (Hne' : w <> []) by (intros ->; cbn in Hlo; lia).
  destruct IH as [[_ IH]|(u & Hu & IH)].
  - exists (PIPE :: w). split; [now constructor|]. rewrite Hx, Hw, IH. reflexivity.
  - exists (PIPE :: w ++ u). split; [now constructor|].
    rewrite Hx, Hw, IH. cbn [app]. now rewrite <- app_assoc.
Qed.

Lemma Matches_sepGroup_intro (m r : str) (x : mstate) :
  m <> [] -> forallb isSepUnit m = true -> ms_rest x = PIPE :: m ++ r ->
  exists y, Matches false sepGroup (clearCaps [1%nat] x) y /\ ms_rest y = r.
Proof.
  intros Hm Hp Hx.
  destruct (RepM_class_intro false isSepUnit (groupsOf (RChar isSepUnit)) r m 1
              (mkMstate (Some PIPE) (m ++ r) (ms_caps (clearCaps [1%nat] x))))
    as (y & Hy & Hr); [exact Hp|destruct m; [done|cbn; lia]|reflexivity|].
  eexists. split.
  - cbn [Matches sepGroup]. exists y. split; [|reflexivity].
    eexists. split; [|exact Hy]. exists PIPE, (m ++ r). cbn [clearCaps ms_rest]. auto.
  - exact Hr.
Qed.

Lemma RepM_groups_intro (r : str) (u : str) :
  SepGroups u ->
  forall (lo : nat) (x : mstate), (lo <= 1)%nat -> ms_rest x = u ++ r ->
    exists y, RepM (Matches false sepGroup) [1%nat] lo None x y /\ ms_rest y = r.
Proof.
  intros Hu. induction Hu as [m Hm Hp|m u Hm Hp Hu IH]; intros lo x Hlo Hx.
  - destruct (Matches_sepGroup_intro m r x Hm Hp Hx) as (y & Hy & Hr).
    exists y. split; [|exact Hr].
    eapply RepM_step; [discriminate|exact Hy| |].
    + rewrite Hr, Hx. cbn [length app]. rewrite length_app. lia.
    + replace (pred lo) with O by lia. constructor.
  - cbn [app] in Hx. rewrite <- app_assoc in Hx.
    destruct (Matches_sepGroup_intro m (u ++ r) x Hm Hp Hx) as (y & Hy & Hr).
    destruct (IH (pred lo) y ltac:(lia) Hr) as (z & Hz & Hrz).
    exists z. split; [|exact Hrz].
    eapply RepM_step; [discriminate|exact Hy| |exact Hz].
    rewrite Hr, Hx. cbn [length]. rewrite !length_app. lia.
Qed.

Lemma rxSearch_sep_later (rest : str) :
  forall p idx, rxSearch TABLE_SEPARATOR_RE (Some p) rest idx = None.
Proof.
  induction rest as [|c t IH]; intros p idx; cbn [rxSearch];
    (replace (matchHere TABLE_SEPARATOR_RE (Some p) _) with (@None mstate) by reflexivity);
    [reflexivity|apply IH].
Qed.

Lemma test_sep_head (l : str) :
  test TABLE_SEPARATOR_RE l = true <-> is_Some (matchHere TABLE_SEPARATOR_RE None l).
Proof.
  unfold test. destruct l as [|c t]; cbn [rxSearch];
    destruct (matchHere TABLE_SEPARATOR_RE None _) as [y|] eqn:E.
  - split; [eauto|reflexivity].
  - split; [discriminate|intros H; by destruct H].
  - split; [eauto|reflexivity].
  - rewrite rxSearch_sep_later. split; [discriminate|intros H; by destruct H].
Qed.

(** The lines that [TABLE_SEPARATOR_RE] accepts: groups, a closing pipe and
    blanks up to the end. *)
Theorem test_separator (l : str) :
  test TABLE_SEPARATOR_RE l = true <->
  exists u w, l = u ++ PIPE :: w /\ SepGroups u /\ forallb isSpace w = true.
Proof.
  rewrite test_sep_head. unfold matchHere. rewrite rxMatch_complete.
  cbn [source multiline TABLE_SEPARATOR_RE].
  change (RRep true 1 None (RGroup 1 (RSeq (RChar (N.eqb PIPE)) (RPlus isSepUnit))))
    with (RRep true 1 None sepGroup).
  split.
  - intros (y & Hm & _). cbn [Matches ms_prev] in Hm.
    destruct Hm as (m0 & -> & m1 & Hgroups & m2 & (ch & t & Hm1 & Hch & ->) & m3 & Hblank & Hend).
    apply N.eqb_eq in Hch. subst ch.
    apply RepM_groups_elim in Hgroups as [[[=] _]|(u & Hu & Hx)].
    apply RepM_class_elim in Hblank as (w & Hw & Hp & _).
    cbn [ms_rest] in Hx, Hw.
    assert (Hm3 : ms_rest m3 = []).
    { destruct (ms_rest m3); [reflexivity|]. cbn in Hend. now destruct Hend. }
    exists u, w. split; [|split; [exact Hu|exact Hp]].
    rewrite Hx, Hm1, Hw, Hm3. now rewrite app_nil_r.
  - intros (u & w & -> & Hu & Hp).
    destruct (RepM_groups_intro (PIPE :: w) u Hu 1 (mkMstate None (u ++ PIPE :: w) []))
      as (m1 & Hm1 & Hr1); [lia|reflexivity|].
    destruct (RepM_class_intro false isSpace (groupsOf (RChar isSpace)) [] w 0
                (mkMstate (Some PIPE) w (ms_caps m1)))
      as (m3 & Hm3 & Hr3); [exact Hp|lia|cbn [ms_rest]; now rewrite app_nil_r|].
    exists m3. split; [|eauto].
    cbn [Matches ms_prev]. eexists. split; [reflexivity|].
    exists m1. split; [exact Hm1|].
    eexists. split; [exists PIPE, w; auto|].
    exists m3. split; [exact Hm3|]. now rewrite Hr3.
Qed.

Lemma trimEnd_space (w : str) : forallb isSpace w = true -> trimEnd w = [].
Proof.
  induction w as [|c w IH]; [reflexivity|]. cbn [forallb trimEnd].
  intros H. apply andb_true_iff in H as [Hc Hw]. now rewrite (IH Hw), Hc.
Qed.

Lemma trimEnd_app_space (a w : str) :
  forallb isSpace w = true -> trimEnd (a ++ w) = trimEnd a.
Proof.
  intros Hw. induction a as [|c a IH]; [now apply trimEnd_space|].
  cbn [app trimEnd]. now rewrite IH.
Qed.

Lemma trimEnd_snoc (a : str) (c : N) : isSpace c = false -> trimEnd (a ++ [c]) = a ++ [c].
Proof.
  intros Hc. induction a as [|x a IH]; cbn [app trimEnd].
  - now rewrite Hc.
  - rewrite IH. now destruct a.
Qed.

Lemma SepGroups_head (u : str) : SepGroups u -> exists t, u = PIPE :: t.
Proof. intros [m _ _|m u' _ _ _]; eauto. Qed.

(** A separator line stays one when it is trimmed. *)
Lemma test_separator_trim (l : str) :
  test TABLE_SEPARATOR_RE l = true -> test TABLE_SEPARATOR_RE (trim l) = true.
Proof.
  intros H. apply test_separator in H as (u & w & -> & Hu & Hw).
  apply test_separator. exists u, []. split; [|auto].
  destruct (SepGroups_head u Hu) as (t & ->). unfold trim.
  cbn [app trimStart]. change (isSpace PIPE) with false. cbv iota.
  change (PIPE :: t ++ PIPE :: w) with ((PIPE :: t) ++ [PIPE] ++ w).
  rewrite app_assoc, trimEnd_app_space by exact Hw.
  now rewrite trimEnd_snoc.
Qed.

(** ** Lines, cells and bullets *)

Lemma includes_single (c : N) (s : str) : includes [c] s = existsb (N.eqb c) s.
Proof.
  unfold includes. induction s as [|x t IH]; [reflexivity|].
  cbn [indexOf isPrefix existsb]. rewrite andb_true_r.
  destruct (c =? x); [reflexivity|]. cbn [orb]. rewrite <- IH.
  destruct (Z.ltb_spec (indexOf [c] t) 0) as [H|H].
  - symmetry. apply Z.leb_gt. exact H.
  - transitivity true; [apply Z.leb_le; lia|symmetry; apply Z.leb_le; lia].
Qed.

Lemma existsb_trimStart (p : N -> bool) (s : str) :
  (forall c, isSpace c = true -> p c = false) ->
  existsb p (trimStart s) = existsb p s.
Proof.
  intros Hp. induction s as [|c t IH]; [reflexivity|].
  cbn [trimStart]. destruct (isSpace c) eqn:Hc; [|reflexivity].
  cbn [existsb]. now rewrite (Hp c Hc), IH.
Qed.

Lemma existsb_trimEnd (p : N -> bool) (s : str) :
  (forall c, isSpace c = true -> p c = false) ->
  existsb p (trimEnd s) = existsb p s.
Proof.
  intros Hp. induction s as [|c t IH]; [reflexivity|].
  cbn [trimEnd existsb]. rewrite <- IH. destruct (trimEnd t) as [|x t'].
  - destruct (isSpace c) eqn:Hc; cbn [existsb]; [now rewrite (Hp c Hc)|reflexivity].
  - reflexivity.
Qed.

Lemma includes_pipe_trim (l : str) : includes [PIPE] (trim l) = includes [PIPE] l.
Proof.
  rewrite !includes_single. unfold trim.
  assert (Hp : forall c, isSpace c = true -> (PIPE =? c) = false).
  { intros c Hc. destruct (N.eqb_spec PIPE c) as [<-|]; [discriminate Hc|reflexivity]. }
  now rewrite existsb_trimEnd, existsb_trimStart.
Qed.

Lemma splitBy_cons (d c : N) (t : str) :
  splitBy [d] 0 (c :: t)
  = if d =? c then [] :: splitBy [d] 0 t
    else match splitBy [d] 0 t with
         | h :: r => (c :: h) :: r
         | [] => [[c]]
         end.
Proof. cbn [splitBy isPrefix length Nat.sub]. now rewrite andb_true_r. Qed.

Lemma splitBy_not_nil (d : N) (s : str) : splitBy [d] 0 s <> [].
Proof.
  destruct s as [|c t]; [discriminate|]. rewrite splitBy_cons.
  destruct (d =? c); [discriminate|]. now destruct (splitBy [d] 0 t).
Qed.

Lemma split_Forall (P : N -> Prop) (d : N) (s : str) :
  Forall P s -> Forall (Forall P) (split [d] s).
Proof.
  unfold split. induction s as [|c t IH]; intros H.
  - repeat constructor.
  - apply Forall_cons in H as [Hc Ht]. specialize (IH Ht). rewrite splitBy_cons.
    destruct (d =? c); [now constructor|].
    destruct (splitBy [d] 0 t) as [|h r]; [repeat constructor; exact Hc|].
    apply Forall_cons in IH as [Hh Hr]. constructor; [now constructor|exact Hr].
Qed.

Lemma split_no_sep (d : N) (s : str) :
  Forall (Forall (fun c => c <> d)) (split [d] s).
Proof.
  unfold split. induction s as [|c t IH]; [repeat constructor|].
  rewrite splitBy_cons. destruct (N.eqb_spec d c) as [Hd|Hd]; [now constructor|].
  destruct (splitBy [d] 0 t) as [|h r]; [repeat constructor; congruence|].
  apply Forall_cons in IH as [Hh Hr]. constructor; [constructor; congruence|exact Hr].
Qed.

Lemma split_one (d : N) (x : str) :
  Forall (fun c => c <> d) x -> split [d] x = [x].
Proof.
  unfold split. induction x as [|c x IH]; intros H; [reflexivity|].
  apply Forall_cons in H as [Hc Hx]. rewrite splitBy_cons, (IH Hx).
  destruct (N.eqb_spec d c); [congruence|reflexivity].
Qed.

Lemma split_app_sep (d : N) (x rest : str) :
  Forall (fun c => c <> d) x -> split [d] (x ++ d :: rest) = x :: split [d] rest.
Proof.
  unfold split. induction x as [|c x IH]; intros H.
  - cbn [app]. rewrite splitBy_cons. now rewrite N.eqb_refl.
  - apply Forall_cons in H as [Hc Hx]. cbn [app]. rewrite splitBy_cons, (IH Hx).
    destruct (N.eqb_spec d c); [congruence|reflexivity].
Qed.

Lemma split_join (d : N) (l : list str) :
  l <> [] -> Forall (Forall (fun c => c <> d)) l -> split [d] (join [d] l) = l.
Proof.
  induction l as [|x l IH]; intros Hne H; [done|].
  apply Forall_cons in H as [Hx Hl]. destruct l as [|y l].
  - cbn [join]. now apply split_one.
  - change (join [d] (x :: y :: l)) with (x ++ d :: join [d] (y :: l)).
    rewrite split_app_sep by exact Hx. f_equal. now apply IH.
Qed.

Lemma join_Forall (P : N -> Prop) (sep : str) (l : list str) :
  Forall P sep -> Forall (Forall P) l -> Forall P (join sep l).
Proof.
  intros Hs H. induction H as [|x l Hx Hl IH]; [constructor|].
  destruct l as [|y l]; [exact Hx|].
  change (join sep (x :: y :: l)) with (x ++ sep ++ join sep (y :: l)).
  apply Forall_app. split; [exact Hx|]. apply Forall_app. split; [exact Hs|exact IH].
Qed.

Lemma trim_Forall (P : N -> Prop) (s : str) : Forall P s -> Forall P (trim s).
Proof.
  intros H. destruct (trim_split s) as (l & r & Hs & _ & _). rewrite Hs in H.
  apply Forall_app in H as [_ H]. now apply Forall_app in H as [H _].
Qed.

(** A pattern replaced by nothing only removes units. *)
Lemma replaceRe_empty_Forall (P : N -> Prop) (re : RegExp) (s : str) :
  global re = false -> Forall P s -> Forall P (replaceRe re [] s).
Proof.
  intros Hg H. unfold replaceRe. rewrite Hg.
  destruct (rxSearch re None s 0) as [m|]; [|exact H].
  cbn [splice expand app]. apply Forall_app. split; [apply Forall_take; exact H|apply Forall_drop; exact H].
Qed.

Lemma parseRow_no_pipe (line : str) :
  Forall (Forall (fun c => c <> PIPE)) (parseRow line).
Proof.
  unfold parseRow. apply Forall_map.
  eapply Forall_impl; [apply split_no_sep|]. intros x Hx. now apply trim_Forall.
Qed.

Lemma parseRow_Forall (P : N -> Prop) (line : str) :
  Forall P line -> Forall (Forall P) (parseRow line).
Proof.
  intros H. unfold parseRow. apply Forall_map.
  eapply Forall_impl.
  - apply (split_Forall P). apply replaceRe_empty_Forall; [reflexivity|].
    apply replaceRe_empty_Forall; [reflexivity|]. apply trim_Forall. exact H.
  - intros x Hx. apply trim_Forall. exact Hx.
Qed.

Lemma parseRow_cellUnit (line : str) :
  Forall (fun c => c <> LF) line -> Forall (Forall cellUnit) (parseRow line).
Proof.
  intros H. pose proof (parseRow_no_pipe line) as H1.
  pose proof (parseRow_Forall _ line H) as H2.
  induction H1 as [|x l Hx Hl IH]; [constructor|].
  apply Forall_cons in H2 as [Hx2 Hl2]. constructor; [|now apply IH].
  clear -Hx Hx2. induction Hx as [|c x Hc Hx IH]; [constructor|].
  apply Forall_cons in Hx2 as [Hc2 Hx2]. constructor; [now split|now apply IH].
Qed.

Lemma bulletOf_cellUnit (headers : list str) (row : str) :
  Forall (Forall cellUnit) headers -> Forall (fun c => c <> LF) row ->
  Forall cellUnit (bulletOf headers row).
Proof.
  intros Hh Hr. unfold bulletOf. cbv zeta.
  set (display := List.map (fun c => if nonEmpty c then c else [EMDASH]) (parseRow row)).
  assert (Hsep : Forall cellUnit [SP; MIDDOT; SP]) by (repeat constructor; discriminate).
  assert (Hd : Forall (Forall cellUnit) display).
  { apply Forall_map. eapply Forall_impl; [apply parseRow_cellUnit, Hr|].
    intros x Hx. cbn beta. destruct (nonEmpty x); [exact Hx|].
    repeat constructor; discriminate. }
  destruct (length headers =? length display)%nat.
  - constructor; [split; discriminate|]. constructor; [split; discriminate|].
    apply join_Forall; [exact Hsep|].
    apply Forall_forall. intros x Hx.
    apply elem_of_lookup_imap_1 in Hx as (i & h & -> & Hi).
    apply Forall_app. split.
    + eapply Forall_forall in Hh; [exact Hh|]. eapply list_elem_of_lookup_2, Hi.
    + apply Forall_app. split; [repeat constructor; discriminate|].
      destruct (display !! i) as [y|] eqn:Hy; [|constructor].
      cbn [default]. eapply Forall_forall in Hd; [exact Hd|].
      eapply list_elem_of_lookup_2, Hy.
  - constructor; [split; discriminate|]. constructor; [split; discriminate|].
    now apply join_Forall.
Qed.

Lemma bulletOf_prefix (headers : list str) (row : str) :
  isPrefix [BULLET; SP] (bulletOf headers row) = true.
Proof. unfold bulletOf. cbv zeta. now destruct (length headers =? _)%nat. Qed.

Lemma findIndexFrom_range (f : str -> nat -> bool) (l : list str) :
  forall i, findIndexFrom f i l = (-1)%Z \/ (Z.of_nat i <= findIndexFrom f i l)%Z.
Proof.
  induction l as [|x l IH]; intros i; cbn [findIndexFrom]; [now left|].
  destruct (f x i); [right; lia|]. destruct (IH (S i)) as [H|H]; [now left|right; lia].
Qed.

(** The search for the separator finds index 1 exactly when the line there
    is a separator. *)
Lemma findIndex_separator (a b : str) (r : list str) :
  (findIndex isSeparatorAt (a :: b :: r) =? 1)%Z = test TABLE_SEPARATOR_RE b.
Proof.
  unfold findIndex. cbn [findIndexFrom]. unfold isSeparatorAt at 1 2.
  cbn [Nat.ltb Nat.leb andb]. destruct (test TABLE_SEPARATOR_RE b); [reflexivity|].
  destruct (findIndexFrom_range isSeparatorAt r 2) as [H|H]; rewrite ?H; [reflexivity|].
  apply Z.eqb_neq. lia.
Qed.

Lemma filter_length_zero {A : Type} (f : A -> bool) (l : list A) :
  (length (List.filter f l) =? 0)%nat = negb (existsb f l).
Proof.
  induction l as [|x l IH]; [reflexivity|]. cbn [List.filter existsb].
  destruct (f x); [reflexivity|exact IH].
Qed.

Lemma filter_map_trim (l : list str) :
  List.filter (includes [PIPE]) (List.map trim l)
  = List.map trim (List.filter (includes [PIPE]) l).
Proof.
  induction l as [|x l IH]; [reflexivity|]. cbn [List.map List.filter].
  rewrite includes_pipe_trim. destruct (includes [PIPE] x); cbn [List.map]; now rewrite IH.
Qed.

Lemma parseRow_trim (line : str) : parseRow (trim line) = parseRow line.
Proof. unfold parseRow. now rewrite trim_idem. Qed.

Lemma bulletOf_trim (headers : list str) (row : str) :
  bulletOf headers (trim row) = bulletOf headers row.
Proof. unfold bulletOf. now rewrite parseRow_trim. Qed.

(** [processBlock] trims the paragraph and rewrites it when it is a table. *)
Lemma processBlock_cases (block : str) :
  processBlock block
  = if isTable (trim block) then tableToBullets (trim block) else trim block.
Proof.
  unfold processBlock, isTable. cbv zeta. generalize (trim block). intros t.
  destruct (nonEmpty t) eqn:Hn; cbn [negb]; [|now destruct t].
  rewrite Nat.ltb_antisym. destruct (3 <=? length (split [LF] t))%nat eqn:Hlen;
    cbn [negb andb]; [|reflexivity].
  destruct (includes [PIPE] (default [] (split [LF] t !! 0%nat))); cbn [negb andb];
    [|reflexivity].
  destruct (split [LF] t) as [|a [|b r]] eqn:Hl; [discriminate Hlen..|].
  rewrite findIndex_separator. cbn [lookup list_lookup default from_option id].
  destruct (test TABLE_SEPARATOR_RE b); cbn [negb andb]; [|reflexivity].
  rewrite filter_length_zero. now destruct (existsb _ _).
Qed.

(** On a table the rewriter yields the bullet of every row with a pipe. *)
Lemma tableToBullets_table (t : str) :
  isTable t = true ->
  tableToBullets t
  = join [LF]
      (List.map (bulletOf (parseRow (default [] (split [LF] t !! 0%nat))))
         (List.filter (includes [PIPE]) (drop 2 (split [LF] t)))).
Proof.
  unfold isTable, tableToBullets. cbv zeta. intros H.
  apply andb_true_iff in H as [H Hrows]. apply andb_true_iff in H as [H Hsep].
  apply andb_true_iff in H as [Hlen Hfirst].
  rewrite length_map, Nat.ltb_antisym, Hlen. cbn [negb].
  destruct (split [LF] t) as [|a [|b r]] eqn:Hl; [discriminate Hlen..|].
  cbn [List.map lookup list_lookup default from_option id] in *.
  rewrite includes_pipe_trim, Hfirst. cbn [negb].
  assert (Hidx : findIndex isSeparatorAt (trim a :: trim b :: List.map trim r) = 1%Z).
  { apply Z.eqb_eq. rewrite findIndex_separator. now apply test_separator_trim. }
  rewrite Hidx. change (1 <? 1)%Z with false. change (Z.to_nat (1 + 1)) with 2%nat.
  cbv iota. cbn [drop] in *. rewrite !drop_0 in *.
  rewrite filter_map_trim, length_map, filter_length_zero, Hrows. cbn [negb].
  rewrite parseRow_trim. f_equal. rewrite map_map.
  apply map_ext. intros row. apply bulletOf_trim.
Qed.

Lemma Forall_List_filter {A : Type} (P : A -> Prop) (f : A -> bool) (l : list A) :
  Forall P l -> Forall P (List.filter f l).
Proof.
  induction 1 as [|x l Hx _ IH]; [constructor|]. cbn [List.filter].
  destruct (f x); [now constructor|exact IH].
Qed.

Lemma existsb_false_Forall (d : N) (s : str) :
  Forall (fun c => c <> d) s -> existsb (N.eqb d) s = false.
Proof.
  induction 1 as [|c s Hc _ IH]; [reflexivity|]. cbn [existsb].
  rewrite IH, orb_false_r. now apply N.eqb_neq.
Qed.

(** C4, as the code has it: the rewriter trims the paragraph; unless the
    trimmed paragraph has at least three lines, a pipe in its first line,
    the strict separator at index 1 and a pipe in some later line, it
    returns the trimmed paragraph; when it has, the output holds no pipe and
    its lines are the bullets of the rows with a pipe, one each, in order. *)
Theorem processBlock_table (paragraph : str) :
  let t := trim paragraph in
  let rows := List.filter (includes [PIPE]) (drop 2 (split [LF] t)) in
  (isTable t = false -> processBlock paragraph = t) /\
  (isTable t = true ->
     includes [PIPE] (processBlock paragraph) = false /\
     split [LF] (processBlock paragraph)
       = List.map (bulletOf (parseRow (default [] (split [LF] t !! 0%nat)))) rows /\
     length (split [LF] (processBlock paragraph)) = length rows /\
     Forall (fun l => isPrefix [BULLET; SP] l = true) (split [LF] (processBlock paragraph))).
Proof.
  cbv zeta. rewrite processBlock_cases. split; [now intros ->|]. intros Ht.
  rewrite Ht, (tableToBullets_table _ Ht).
  set (t := trim paragraph) in *.
  set (headers := parseRow (default [] (split [LF] t !! 0%nat))).
  set (rows := List.filter (includes [PIPE]) (drop 2 (split [LF] t))).
  assert (Hrows : Forall (Forall (fun c => c <> LF)) rows).
  { subst rows. apply Forall_List_filter, Forall_drop, split_no_sep. }
  assert (Hne : rows <> []).
  { unfold isTable in Ht. cbv zeta in Ht. apply andb_true_iff in Ht as [_ Ht].
    subst rows. intros Hnil. pose proof (filter_length_zero (includes [PIPE])
      (drop 2 (split [LF] t))) as Hz. rewrite Hnil, Ht in Hz. discriminate Hz. }
  assert (Hheaders : Forall (Forall cellUnit) headers).
  { subst headers. apply parseRow_cellUnit.
    destruct (split [LF] t !! 0%nat) as [a|] eqn:Ha; [|constructor].
    pose proof (split_no_sep LF t) as Hs. eapply Forall_forall in Hs; [exact Hs|].
    eapply list_elem_of_lookup_2, Ha. }
  assert (Hbullets : Forall (Forall cellUnit) (List.map (bulletOf headers) rows)).
  { apply Forall_map. eapply Forall_impl; [exact Hrows|].
    intros row Hrow. now apply bulletOf_cellUnit. }
  assert (Hsplit : split [LF] (join [LF] (List.map (bulletOf headers) rows))
                   = List.map (bulletOf headers) rows).
  { apply split_join; [now destruct rows|].
    eapply Forall_impl; [exact Hbullets|]. intros x Hx.
    eapply Forall_impl; [exact Hx|]. now intros c [_ Hc]. }
  rewrite Hsplit. split; [|split; [reflexivity|split; [apply length_map|]]].
  - rewrite includes_single. apply existsb_false_Forall.
    apply join_Forall; [repeat constructor; discriminate|].
    eapply Forall_impl; [exact Hbullets|]. intros x Hx.
    eapply Forall_impl; [exact Hx|]. now intros c [Hc _].
  - apply Forall_map. apply Forall_forall. intros row _. apply bulletOf_prefix.
Qed.

Lemma processBlock_table_witness :
  isTable (trim priceTable) = true /\
  includes [PIPE] (processBlock priceTable) = false /\
  length (split [LF] (processBlock priceTable)) = 2%nat.
Proof.
  assert (Ht : isTable (trim priceTable) = true) by (vm_compute; reflexivity).
  destruct (processBlock_table priceTable) as [_ H].
  destruct (H Ht) as (H1 & _ & H3 & _).
  split; [exact Ht|]. split; [exact H1|]. rewrite H3. vm_compute. reflexivity.
Defined.

(** C4 as stated fails on a paragraph that is no table and starts with a
    blank: it comes back trimmed, not unchanged; such a paragraph reaches
    the rewriter when an indented paragraph follows a blank line. *)
Lemma processBlock_trims_paragraph :
  isTable (lit " a") = false /\
  processBlock (lit " a") = lit "a" /\
  processBlock (lit " a") <> lit " a" /\
  convertTablesToBullets (join [LF] [lit "x"; []; lit "  y"])
    = join [LF] [lit "x"; []; lit "y"].
Proof.
  split; [vm_compute; reflexivity|]. split; [vm_compute; reflexivity|].
  split; [vm_compute; discriminate|vm_compute; reflexivity].
Qed.

(** * Further properties *)

(** ** Escaping *)

(** A pattern of one unit under [g], replaced by a literal: every unit is
    looked at once. *)
Lemma replace_unit_scan (c : N) (r : str) (rest : str) :
  forall (fuel : nat) (prev : option N) (pos : nat),
    (length rest < fuel)%nat ->
    splice [PLit r] (execAll fuel (mkRegExp (RChar (N.eqb c)) true false) prev rest pos)
      pos rest
    = flat_map (fun x => if c =? x then r else [x]) rest.
Proof.
  induction rest as [|x t IH]; intros fuel prev pos Hf.
  - now rewrite execAll_nil.
  - cbn [flat_map]. destruct (c =? x) eqn:Hc.
    + destruct fuel as [|fuel]; [simpl in Hf; lia|].
      rewrite (replace_step_match _ fuel _ prev (x :: t) pos (mkMstate (Some x) t []) 1).
      * cbn [expand app drop ms_prev]. rewrite app_nil_r. f_equal.
        apply IH. simpl in Hf; lia.
      * unfold matchHere. cbn [source multiline rxMatch ms_rest ms_caps]. now rewrite Hc.
      * simpl; lia.
      * reflexivity.
    + rewrite replace_step_keep.
      * cbn [app]. f_equal. apply IH. simpl in Hf; lia.
      * unfold matchHere. cbn [source multiline rxMatch ms_rest ms_caps]. now rewrite Hc.
Qed.

Lemma replaceRe_unit (c : N) (r s : str) :
  replaceRe (mkRegExp (RChar (N.eqb c)) true false) [PLit r] s
  = flat_map (fun x => if c =? x then r else [x]) s.
Proof. unfold replaceRe, matchAll. cbn [global]. apply replace_unit_scan. lia. Qed.

Lemma flat_map_flat_map {A B C : Type} (f : A -> list B) (g : B -> list C) (l : list A) :
  flat_map g (flat_map f l) = flat_map (fun x => flat_map g (f x)) l.
Proof.
  induction l as [|x l IH]; [reflexivity|]. cbn [flat_map].
  now rewrite flat_map_app, IH.
Qed.

Lemma escapeHtml_flat_map (text : str) : escapeHtml text = flat_map escapeUnit text.
Proof.
  unfold escapeHtml, gtRe, ltRe, ampRe. rewrite !replaceRe_unit, !flat_map_flat_map.
  apply flat_map_ext. intros x. unfold escapeUnit.
  rewrite (N.eqb_sym x AMP), (N.eqb_sym x LT), (N.eqb_sym x GT).
  destruct (AMP =? x) eqn:Ha; [reflexivity|]. cbn [flat_map app].
  destruct (LT =? x) eqn:Hl; [reflexivity|]. cbn [flat_map app].
  now destruct (GT =? x).
Qed.

Lemma escapeUnit_inj (x y : N) (r1 r2 : str) :
  escapeUnit x ++ r1 = escapeUnit y ++ r2 -> x = y /\ r1 = r2.
Proof.
  unfold escapeUnit.
  change (lit "&amp;") with [38; 97; 109; 112; 59].
  change (lit "&lt;") with [38; 108; 116; 59].
  change (lit "&gt;") with [38; 103; 116; 59].
  unfold AMP, LT, GT.
  destruct (N.eqb_spec x 38) as [->|Hxa]; [|destruct (N.eqb_spec x 60) as [->|Hxl];
    [|destruct (N.eqb_spec x 62) as [->|Hxg]]];
  (destruct (N.eqb_spec y 38) as [->|Hya]; [|destruct (N.eqb_spec y 60) as [->|Hyl];
    [|destruct (N.eqb_spec y 62) as [->|Hyg]]]);
  cbn [app]; intros H; injection H; intros; subst;
    first [discriminate | congruence | (split; congruence)].
Qed.

(** [escapeHtml] replaces unit by unit, an ampersand by [&amp;], the angle
    brackets by [&lt;] and [&gt;], without escaping what an earlier pass has
    written; its output holds no angle bracket; and it loses nothing: two
    texts with the same escape are the same text. *)
Theorem escapeHtml_units (text : str) :
  escapeHtml text = flat_map escapeUnit text /\
  Forall (fun c => c <> LT /\ c <> GT) (escapeHtml text) /\
  (forall text', escapeHtml text = escapeHtml text' -> text = text').
Proof.
  split; [apply escapeHtml_flat_map|]. split.
  - rewrite escapeHtml_flat_map. induction text as [|x t IH]; [constructor|].
    cbn [flat_map]. apply Forall_app. split; [|exact IH]. unfold escapeUnit.
    destruct (N.eqb_spec x AMP); [repeat constructor; discriminate|].
    destruct (N.eqb_spec x LT); [repeat constructor; discriminate|].
    destruct (N.eqb_spec x GT); [repeat constructor; discriminate|].
    repeat constructor; assumption.
  - intros text'. rewrite !escapeHtml_flat_map. revert text'.
    induction text as [|x t IH]; intros [|y t']; cbn [flat_map].
    + reflexivity.
    + intros H. exfalso. unfold escapeUnit in H.
      destruct (y =? AMP); [discriminate|]. destruct (y =? LT); [discriminate|].
      destruct (y =? GT); discriminate.
    + intros H. exfalso. unfold escapeUnit in H.
      destruct (x =? AMP); [discriminate|]. destruct (x =? LT); [discriminate|].
      destruct (x =? GT); discriminate.
    + intros H. apply escapeUnit_inj in H as [-> H]. f_equal. now apply IH.
Qed.

(** ** Where the chunker breaks *)

Lemma lastIndexOf_found (p s : str) :
  (0 <= lastIndexOf p s)%Z ->
  isPrefix p (drop (Z.to_nat (lastIndexOf p s)) s) = true.
Proof.
  induction s as [|c t IH].
  - cbn [lastIndexOf]. destruct (isPrefix p []) eqn:Hp; [intros _; exact Hp|lia].
  - cbn [lastIndexOf]. cbv zeta.
    destruct (Z.leb_spec 0 (lastIndexOf p t)) as [H|H].
    + intros _. replace (Z.to_nat (lastIndexOf p t + 1)) with (S (Z.to_nat (lastIndexOf p t))) by lia.
      cbn [drop]. now apply IH.
    + destruct (isPrefix p (c :: t)) eqn:Hp; [intros _; exact Hp|lia].
Qed.

Lemma isPrefix_head (a : N) (p s : str) :
  isPrefix (a :: p) s = true -> s !! 0%nat = Some a.
Proof.
  destruct s as [|b s]; [discriminate|]. cbn [isPrefix]. intros H.
  apply andb_true_iff in H as [H _]. apply N.eqb_eq in H. now subst.
Qed.

Lemma lastIndexOf_LF (p s : str) :
  (0 <= lastIndexOf (LF :: p) s)%Z ->
  s !! Z.to_nat (lastIndexOf (LF :: p) s) = Some LF.
Proof.
  intros H. apply lastIndexOf_found, isPrefix_head in H.
  rewrite lookup_drop in H. now rewrite Nat.add_0_r in H.
Qed.

(** The break computed from position [i]: the end of the text when what is
    left is shorter than the window; else the end of the window, or the
    position behind a line feed that lies in the second half of the window. *)
Lemma nextSafeBreak_shape (text : str) (i : nat) (maxLen : Z) :
  (i < length text)%nat -> (1 <= maxLen)%Z ->
  exists j, nextSafeBreak text (Z.of_nat i) maxLen = Z.of_nat j /\
    ((j = length text /\ (Z.of_nat (length text - i) < maxLen)%Z) \/
     (Z.of_nat j = Z.of_nat i + maxLen /\ (j <= length text)%nat)%Z \/
     ((maxLen < 2 * (Z.of_nat j - Z.of_nat i - 1))%Z /\
      (Z.of_nat j <= Z.of_nat i + maxLen)%Z /\ (i < j)%nat /\
      text !! (j - 1)%nat = Some LF)).
Proof.
  intros Hi Hm. unfold nextSafeBreak. cbv zeta.
  replace (Z.of_nat i + maxLen)%Z with (Z.of_nat (i + Z.to_nat maxLen)) by lia.
  rewrite slice_nat by lia.
  replace (i + Z.to_nat maxLen - i)%nat with (Z.to_nat maxLen) by lia.
  set (sl := take (Z.to_nat maxLen) (drop i text)).
  assert (Hlen : length sl = Nat.min (Z.to_nat maxLen) (length text - i)).
  { subst sl. rewrite length_take, length_drop. lia. }
  assert (Hsl : forall k, (k < length sl)%nat -> sl !! k = text !! (i + k)%nat).
  { intros k Hk. subst sl. rewrite lookup_take_lt by lia. apply lookup_drop. }
  destruct (Z.ltb_spec (Z.of_nat (length sl)) maxLen) as [Hlt|Hge].
  - exists (i + length sl)%nat. split; [lia|]. left. lia.
  - destruct (lastIndexOf_bounds [LF; LF] sl) as [Hp1 Hp2].
    destruct (lastIndexOf_bounds [LF] sl) as [Hl1 Hl2].
    cbn [length] in Hp2, Hl2.
    destruct (Z.ltb_spec maxLen (2 * lastIndexOf [LF; LF] sl)) as [H1|H1].
    + exists (i + Z.to_nat (lastIndexOf [LF; LF] sl + 1))%nat. split; [lia|].
      right; right. split; [lia|]. split; [lia|]. split; [lia|].
      replace (i + Z.to_nat (lastIndexOf [LF; LF] sl + 1) - 1)%nat
        with (i + Z.to_nat (lastIndexOf [LF; LF] sl))%nat by lia.
      rewrite <- Hsl by lia. apply lastIndexOf_LF. lia.
    + destruct (Z.ltb_spec maxLen (2 * lastIndexOf [LF] sl)) as [H2|H2].
      * exists (i + Z.to_nat (lastIndexOf [LF] sl + 1))%nat. split; [lia|].
        right; right. split; [lia|]. split; [lia|]. split; [lia|].
        replace (i + Z.to_nat (lastIndexOf [LF] sl + 1) - 1)%nat
          with (i + Z.to_nat (lastIndexOf [LF] sl))%nat by lia.
        rewrite <- Hsl by lia. apply lastIndexOf_LF. lia.
      * exists (i + Z.to_nat maxLen)%nat. split; [lia|]. right; left. lia.
Qed.

(** The break lies behind the start, within the window and within the
    text; a break that is neither the end of the text nor the end of the
    window follows a line feed in the second half of the window. *)
Theorem nextSafeBreak_cases (text : str) (start maxLen : Z) :
  (0 <= start < Z.of_nat (length text))%Z -> (1 <= maxLen)%Z ->
  let b := nextSafeBreak text start maxLen in
  (start < b <= Z.min (start + maxLen) (Z.of_nat (length text)))%Z /\
  (b = Z.min (start + maxLen) (Z.of_nat (length text)) \/
   ((maxLen < 2 * (b - start - 1))%Z /\ text !! Z.to_nat (b - 1) = Some LF)).
Proof.
  intros Hs Hm. cbv zeta.
  destruct (nextSafeBreak_shape text (Z.to_nat start) maxLen) as (j & Hj & Hcases);
    [lia|exact Hm|].
  rewrite Z2Nat.id in Hj by lia. rewrite Hj.
  destruct Hcases as [[-> Hlt]|[[Heq Hle]|(Hhalf & Hle & Hlt & Hlf)]].
  - split; [lia|]. left. lia.
  - split; [lia|]. left. lia.
  - apply lookup_lt_Some in Hlf as Hb. split; [lia|]. right. split; [lia|].
    now replace (Z.to_nat (Z.of_nat j - 1)) with (j - 1)%nat by lia.
Qed.

Lemma nextSafeBreak_cases_witness :
  let text := lit "ab cd" ++ [LF] ++ lit "efgh" in
  (0 <= 0 < Z.of_nat (length text))%Z /\ (1 <= 8)%Z /\
  let b := nextSafeBreak text 0 8 in
  (0 < b <= Z.min (0 + 8) (Z.of_nat (length text)))%Z /\
  (b = Z.min (0 + 8) (Z.of_nat (length text)) \/
   ((8 < 2 * (b - 0 - 1))%Z /\ text !! Z.to_nat (b - 1) = Some LF)).
Proof.
  intros text.
  assert (H1 : (0 <= 0 < Z.of_nat (length text))%Z)
    by (vm_compute; split; [discriminate|reflexivity]).
  assert (H2 : (1 <= 8)%Z) by lia.
  split; [exact H1|]. split; [exact H2|].
  exact (nextSafeBreak_cases text 0 8 H1 H2).
Defined.

Lemma trim_length (s : str) : (length (trim s) <= length s)%nat.
Proof.
  destruct (trim_split s) as (l & r & Hs & _ & _). rewrite Hs at 2.
  rewrite !length_app. lia.
Qed.

(** What holds of every trimmed window holds of every chunk the loop adds. *)
Lemma splitLoop_Forall (P : str -> Prop) (text : str) (maxLen : Z) :
  (1 <= maxLen)%Z ->
  (forall i j, (i < j <= length text)%nat -> (Z.of_nat j <= Z.of_nat i + maxLen)%Z ->
     P (trim (take (j - i) (drop i text)))) ->
  forall (fuel i : nat) (cs res : list str),
    (i <= length text)%nat -> Forall P cs ->
    splitLoop fuel text maxLen (Z.of_nat i) cs = Some res -> Forall P res.
Proof.
  intros Hm HP. induction fuel as [|fuel IH]; intros i cs res Hi Hcs; cbn [splitLoop].
  - destruct (Z.of_nat i <? Z.of_nat (length text))%Z; [discriminate|]. now intros [= <-].
  - destruct (Z.ltb_spec (Z.of_nat i) (Z.of_nat (length text))) as [Hlt|Hge];
      [|now intros [= <-]].
    destruct (nextSafeBreak_shape text i maxLen) as (j & Hj & Hcases); [lia|exact Hm|].
    assert (Hij : (i < j <= length text)%nat /\ (Z.of_nat j <= Z.of_nat i + maxLen)%Z).
    { destruct Hcases as [[-> Hl]|[[Heq Hle]|(Hhalf & Hle & Hl & Hlf)]]; [lia|lia|].
      apply lookup_lt_Some in Hlf. lia. }
    destruct (skipBlank_bounds text j) as (k & Hk & Hjk & _); [lia|].
    cbv zeta. rewrite Hj, Hk, slice_nat by lia.
    apply IH; [lia|]. apply Forall_app. split; [exact Hcs|].
    constructor; [|constructor]. apply HP; tauto.
Qed.

(** No chunk is longer than the limit: the break never leaves the window. *)
Theorem splitChunksSafe_within_limit (fuel : nat) (text : str) (maxLen : Z)
    (chunks : list str) :
  (1 <= maxLen)%Z ->
  splitChunksSafe fuel text maxLen = Some chunks ->
  Forall (fun c => (Z.of_nat (length c) <= maxLen)%Z) chunks.
Proof.
  intros Hm. unfold splitChunksSafe.
  destruct (Z.leb_spec (Z.of_nat (length text)) maxLen) as [Hle|Hgt].
  - intros [= <-]. now repeat constructor.
  - destruct (splitLoop fuel text maxLen 0 []) as [res|] eqn:Hres; [|discriminate].
    cbn. intros [= <-]. apply Forall_List_filter.
    apply (splitLoop_Forall _ text maxLen Hm) with (fuel := fuel) (i := 0%nat) (cs := []);
      [|lia|constructor|exact Hres].
    intros i j Hij Hw. pose proof (trim_length (take (j - i) (drop i text))) as Ht.
    rewrite length_take in Ht. lia.
Qed.

Lemma splitChunksSafe_within_limit_witness :
  (1 <= 4)%Z /\
  splitChunksSafe 11 (lit "hello world") 4 = Some [lit "hell"; lit "o wo"; lit "rld"] /\
  Forall (fun c => (Z.of_nat (length c) <= 4)%Z) [lit "hell"; lit "o wo"; lit "rld"].
Proof.
  assert (H1 : (1 <= 4)%Z) by lia.
  assert (H2 : splitChunksSafe 11 (lit "hello world") 4
               = Some [lit "hell"; lit "o wo"; lit "rld"]) by (vm_compute; reflexivity).
  split; [exact H1|]. split; [exact H2|].
  exact (splitChunksSafe_within_limit 11 (lit "hello world") 4 _ H1 H2).
Defined.

(** ** Rows and bullets, trimmed *)

Lemma trimEnd_app_fixed (a b : str) :
  b <> [] -> trimEnd b = b -> trimEnd (a ++ b) = a ++ b.
Proof.
  intros Hb Hf. induction a as [|x a IH]; [exact Hf|].
  cbn [app trimEnd]. rewrite IH. destruct (a ++ b) eqn:E; [|reflexivity].
  apply app_eq_nil in E as [_ E]. contradiction.
Qed.

Lemma trimEnd_trim (s : str) : trimEnd (trim s) = trim s.
Proof. unfold trim. apply trimEnd_idem. Qed.

Lemma join_trimEnd (sep : str) (l : list str) :
  l <> [] -> Forall (fun x => x <> [] /\ trimEnd x = x) l ->
  join sep l <> [] /\ trimEnd (join sep l) = join sep l.
Proof.
  intros Hne H. induction H as [|x l [Hx Hf] Hl IH]; [done|].
  destruct l as [|y l]; [cbn [join]; auto|].
  change (join sep (x :: y :: l)) with (x ++ sep ++ join sep (y :: l)).
  destruct IH as [IH1 IH2]; [discriminate|]. split.
  - destruct x; [done|discriminate].
  - rewrite app_assoc. now apply trimEnd_app_fixed.
Qed.

Lemma splitBy_length (d : N) (s : str) : (1 <= length (splitBy [d] 0 s))%nat.
Proof.
  pose proof (splitBy_not_nil d s). destruct (splitBy [d] 0 s); [done|simpl; lia].
Qed.

Lemma parseRow_not_nil (line : str) : parseRow line <> [].
Proof.
  unfold parseRow, split. intros H. apply map_eq_nil in H.
  now apply splitBy_not_nil in H.
Qed.

(** The cells a bullet shows: not empty, nothing to trim at the right. *)
Lemma display_fixed (row : str) :
  Forall (fun d => d <> [] /\ trimEnd d = d)
    (List.map (fun c => if nonEmpty c then c else [EMDASH]) (parseRow row)).
Proof.
  apply Forall_map. unfold parseRow. apply Forall_map.
  apply Forall_forall. intros x _. cbn beta.
  destruct (trim x) as [|c t] eqn:E; cbn [nonEmpty].
  - split; [discriminate|reflexivity].
  - split; [discriminate|]. rewrite <- E. apply trimEnd_trim.
Qed.

Lemma bulletOf_fixed (headers : list str) (row : str) :
  bulletOf headers row <> [] /\ trim (bulletOf headers row) = bulletOf headers row.
Proof.
  unfold bulletOf. cbv zeta.
  set (display := List.map (fun c => if nonEmpty c then c else [EMDASH]) (parseRow row)).
  assert (Hd : Forall (fun d => d <> [] /\ trimEnd d = d) display) by apply display_fixed.
  assert (Hne : display <> []).
  { subst display. intros H. apply map_eq_nil in H. now apply parseRow_not_nil in H. }
  assert (Hkey : forall l, l <> [] -> Forall (fun x => x <> [] /\ trimEnd x = x) l ->
            BULLET :: SP :: join [SP; MIDDOT; SP] l <> [] /\
            trim (BULLET :: SP :: join [SP; MIDDOT; SP] l)
              = BULLET :: SP :: join [SP; MIDDOT; SP] l).
  { intros l Hl Hf. split; [discriminate|]. unfold trim. cbn [trimStart].
    change (isSpace BULLET) with false. cbv iota.
    destruct (join_trimEnd [SP; MIDDOT; SP] l Hl Hf) as [H1 H2].
    change (BULLET :: SP :: join [SP; MIDDOT; SP] l)
      with ([BULLET; SP] ++ join [SP; MIDDOT; SP] l).
    now apply trimEnd_app_fixed. }
  destruct (Nat.eqb_spec (length headers) (length display)) as [Hlen|Hlen];
    [|now apply Hkey].
  apply Hkey.
  - destruct headers; [|now destruct display]. destruct display; [done|discriminate].
  - apply Forall_forall. intros x Hx.
    apply elem_of_lookup_imap_1 in Hx as (i & h & -> & Hi).
    apply lookup_lt_Some in Hi as Hlt. rewrite Hlen in Hlt.
    apply lookup_lt_is_Some_2 in Hlt as [d Hd'].
    rewrite Hd'. cbn [default from_option id].
    eapply Forall_forall in Hd; [|eapply list_elem_of_lookup_2, Hd'].
    destruct Hd as [Hd1 Hd2]. split.
    + intros H. apply app_eq_nil in H as [_ H]. apply app_eq_nil in H as [_ H]. done.
    + rewrite app_assoc. now apply trimEnd_app_fixed.
Qed.

(** What the rewriter makes of a table: not a table again, and trimmed. *)
Lemma tableToBullets_fixed (t : str) :
  isTable t = true ->
  trim (tableToBullets t) = tableToBullets t /\ isTable (tableToBullets t) = false.
Proof.
  intros Ht. rewrite (tableToBullets_table t Ht).
  set (headers := parseRow (default [] (split [LF] t !! 0%nat))).
  set (rows := List.filter (includes [PIPE]) (drop 2 (split [LF] t))).
  assert (Hrows : Forall (Forall (fun c => c <> LF)) rows).
  { subst rows. apply Forall_List_filter, Forall_drop, split_no_sep. }
  assert (Hne : rows <> []).
  { unfold isTable in Ht. cbv zeta in Ht. apply andb_true_iff in Ht as [_ Ht].
    subst rows. intros Hnil. pose proof (filter_length_zero (includes [PIPE])
      (drop 2 (split [LF] t))) as Hz. rewrite Hnil, Ht in Hz. discriminate Hz. }
  assert (Hheaders : Forall (Forall cellUnit) headers).
  { subst headers. apply parseRow_cellUnit.
    destruct (split [LF] t !! 0%nat) as [a|] eqn:Ha; [|constructor].
    pose proof (split_no_sep LF t) as Hs. eapply Forall_forall in Hs; [exact Hs|].
    eapply list_elem_of_lookup_2, Ha. }
  assert (Hbullets : Forall (Forall cellUnit) (List.map (bulletOf headers) rows)).
  { apply Forall_map. eapply Forall_impl; [exact Hrows|].
    intros row Hrow. now apply bulletOf_cellUnit. }
  set (out := join [LF] (List.map (bulletOf headers) rows)).
  assert (Hout : Forall (fun c => c <> PIPE) out).
  { apply join_Forall; [repeat constructor; discriminate|].
    eapply Forall_impl; [exact Hbullets|]. intros x Hx.
    eapply Forall_impl; [exact Hx|]. now intros c [Hc _]. }
  split.
  - destruct rows as [|r0 rows']; [done|].
    assert (Hfix : Forall (fun x => x <> [] /\ trimEnd x = x)
                     (List.map (bulletOf headers) (r0 :: rows'))).
    { apply Forall_map, Forall_forall. intros row _.
      destruct (bulletOf_fixed headers row) as [H1 H2]. split; [exact H1|].
      rewrite <- H2. apply trimEnd_trim. }
    assert (Hnn : List.map (bulletOf headers) (r0 :: rows') <> [])
      by (cbn [List.map]; discriminate).
    destruct (join_trimEnd [LF] _ Hnn Hfix) as [_ Hend].
    unfold trim. subst out. cbn [List.map] in *.
    assert (Hstart : forall l, trimStart (join [LF] (bulletOf headers r0 :: l))
                               = join [LF] (bulletOf headers r0 :: l)).
    { intros l. unfold bulletOf. cbv zeta.
      destruct (length headers =? _)%nat; destruct l; reflexivity. }
    now rewrite Hstart.
  - unfold isTable. cbv zeta.
    assert (Hfirst : includes [PIPE] (default [] (split [LF] out !! 0%nat)) = false).
    { rewrite includes_single. apply existsb_false_Forall.
      destruct (split [LF] out !! 0%nat) as [a|] eqn:Ha; [|constructor].
      pose proof (split_Forall _ LF out Hout) as Hs.
      eapply Forall_forall in Hs; [exact Hs|]. eapply list_elem_of_lookup_2, Ha. }
    rewrite Hfirst. now rewrite andb_false_r.
Qed.

(** Rewriting a paragraph twice is rewriting it once. *)
Theorem processBlock_idempotent (block : str) :
  processBlock (processBlock block) = processBlock block.
Proof.
  rewrite (processBlock_cases block).
  destruct (isTable (trim block)) eqn:Ht.
  - destruct (tableToBullets_fixed _ Ht) as [Htrim Hno].
    rewrite processBlock_cases, Htrim, Hno. reflexivity.
  - rewrite processBlock_cases, trim_idem, Ht. reflexivity.
Qed.

(** A row always has a cell; every cell is trimmed and holds no pipe; blanks
    around the line do not matter. *)
Theorem parseRow_cells (line : str) :
  parseRow line <> [] /\
  Forall (fun c => trim c = c /\ Forall (fun u => u <> PIPE) c) (parseRow line) /\
  parseRow (trim line) = parseRow line.
Proof.
  split; [apply parseRow_not_nil|]. split; [|apply parseRow_trim].
  pose proof (parseRow_no_pipe line) as Hp.
  apply Forall_forall. intros c Hc. split.
  - unfold parseRow in Hc. apply list_elem_of_In, in_map_iff in Hc as (x & <- & _).
    apply trim_idem.
  - eapply Forall_forall in Hp; [exact Hp|exact Hc].
Qed.

(** ** Patterns that cannot start *)

(** A pattern that can only start at a unit of the class [p] finds nothing
    in a text without such a unit. *)
Lemma rxSearch_none (re : RegExp) (p : N -> bool) :
  (forall prev rest, is_Some (matchHere re prev rest) ->
     exists c t, rest = c :: t /\ p c = true) ->
  forall rest prev idx,
    Forall (fun c => p c = false) rest -> rxSearch re prev rest idx = None.
Proof.
  intros Hstart. induction rest as [|c t IH]; intros prev idx Hf; cbn [rxSearch].
  - destruct (matchHere re prev []) as [y|] eqn:E; [|reflexivity].
    destruct (Hstart prev [] ltac:(rewrite E; eauto)) as (c & t & [=] & _).
  - apply Forall_cons in Hf as [Hc Ht].
    destruct (matchHere re prev (c :: t)) as [y|] eqn:E.
    + destruct (Hstart prev (c :: t) ltac:(rewrite E; eauto)) as (c' & t' & [= <- <-] & Hp).
      congruence.
    + now apply IH.
Qed.

Lemma replaceRe_none (re : RegExp) (p : N -> bool) (tpl : list rpart) (s : str) :
  (forall prev rest, is_Some (matchHere re prev rest) ->
     exists c t, rest = c :: t /\ p c = true) ->
  Forall (fun c => p c = false) s ->
  matchAll re s = [] /\ replaceRe re tpl s = s.
Proof.
  intros Hstart Hf. assert (Hm : matchAll re s = []).
  { unfold matchAll. cbn [execAll]. now rewrite (rxSearch_none re p Hstart). }
  split; [exact Hm|]. unfold replaceRe. rewrite Hm.
  destruct (global re); [reflexivity|]. now rewrite (rxSearch_none re p Hstart).
Qed.

Lemma Matches_RLit_head (ml : bool) (c : N) (s : str) (x y : mstate) :
  Matches ml (RLit (c :: s)) x y -> exists t, ms_rest x = c :: t.
Proof.
  destruct s as [|d s]; cbn [RLit Matches].
  - intros (ch & t & Hx & Hc & _). apply N.eqb_eq in Hc. subst. eauto.
  - intros (m & (ch & t & Hx & Hc & _) & _). apply N.eqb_eq in Hc. subst. eauto.
Qed.

Lemma fenceRe_start (prev : option N) (rest : str) :
  is_Some (matchHere fenceRe prev rest) ->
  exists c t, rest = c :: t /\ (c =? BACKTICK) || (c =? TILDE) = true.
Proof.
  unfold matchHere. rewrite rxMatch_complete. intros (y & Hm & _).
  cbn [source fenceRe Matches] in Hm.
  destruct Hm as (m1 & (m0 & [H|H] & _) & _);
    apply Matches_RLit_head in H as (t & Ht); cbn [ms_rest] in Ht; subst rest;
    eexists _, t; (split; [reflexivity|reflexivity]).
Qed.

Lemma headingRe_start (prev : option N) (rest : str) :
  is_Some (matchHere headingRe prev rest) ->
  exists c t, rest = c :: t /\ (c =? 35) = true.
Proof.
  unfold matchHere. rewrite rxMatch_complete. intros (y & Hm & _).
  cbn [source headingRe Matches] in Hm.
  destruct Hm as (m0 & Hbol & m1 & H & _).
  assert (m0 = mkMstate prev rest []) as ->.
  { cbn [ms_prev] in Hbol. destruct prev; [exact (proj2 Hbol)|exact Hbol]. }
  apply Matches_RLit_head in H as (t & Ht). cbn [ms_rest] in Ht. subst rest.
  eexists _, t. split; reflexivity.
Qed.

Lemma boldRe_start (prev : option N) (rest : str) :
  is_Some (matchHere boldRe prev rest) ->
  exists c t, rest = c :: t /\ (c =? 42) = true.
Proof.
  unfold matchHere. rewrite rxMatch_complete. intros (y & Hm & _).
  cbn [source boldRe Matches] in Hm.
  destruct Hm as (m1 & H & _).
  apply Matches_RLit_head in H as (t & Ht). cbn [ms_rest] in Ht. subst rest.
  eexists _, t. split; reflexivity.
Qed.

Lemma codeRe_start (prev : option N) (rest : str) :
  is_Some (matchHere codeRe prev rest) ->
  exists c t, rest = c :: t /\ (c =? BACKTICK) = true.
Proof.
  unfold matchHere. rewrite rxMatch_complete. intros (y & Hm & _).
  cbn [source codeRe Matches] in Hm.
  destruct Hm as (m0 & Hnb & m1 & (ch & t & Hx & Hc & _) & _).
  assert (m0 = mkMstate prev rest []) as ->.
  { cbn [ms_prev] in Hnb. destruct prev; [exact (proj2 Hnb)|exact Hnb]. }
  cbn [ms_rest] in Hx. subst rest. apply N.eqb_eq in Hc. subst ch.
  eexists _, t. split; reflexivity.
Qed.

Lemma extractFencedBlocks_plain (text : str) :
  Forall (fun c => c <> BACKTICK /\ c <> TILDE) text ->
  extractFencedBlocks text = (text, []) /\ matchAll fenceRe text = [].
Proof.
  intros Hf.
  assert (Hm : matchAll fenceRe text = []).
  { apply (replaceRe_none fenceRe _ [] text fenceRe_start).
    eapply Forall_impl; [exact Hf|]. intros c [H1 H2]. cbn beta.
    apply orb_false_iff. split; now apply N.eqb_neq. }
  split; [|exact Hm]. unfold extractFencedBlocks. cbv zeta. now rewrite Hm.
Qed.

(** Text without a backtick and without a tilde holds no fenced block and
    passes the extraction as it is; restoring gives it back. *)
Theorem extractFencedBlocks_no_fence (text : str) :
  Forall (fun c => c <> BACKTICK /\ c <> TILDE) text ->
  extractFencedBlocks text = (text, []) /\
  forall toHtml, restoreFencedBlocks (extractFencedBlocks text).1
                   (extractFencedBlocks text).2 toHtml = text.
Proof.
  intros Hf. destruct (extractFencedBlocks_plain text Hf) as [He _].
  split; [exact He|]. intros toHtml. now rewrite He.
Qed.

Lemma extractFencedBlocks_no_fence_witness :
  Forall (fun c => c <> BACKTICK /\ c <> TILDE) (lit "a|b") /\
  extractFencedBlocks (lit "a|b") = (lit "a|b", []).
Proof.
  assert (H : Forall (fun c => c <> BACKTICK /\ c <> TILDE) (lit "a|b"))
    by (repeat constructor; discriminate).
  split; [exact H|]. exact (proj1 (extractFencedBlocks_no_fence (lit "a|b") H)).
Defined.

(** ** Rendering text without markup *)

Lemma escapeHtml_Forall (P : N -> Prop) (text : str) :
  Forall P (lit "&amp;") -> Forall P (lit "&lt;") -> Forall P (lit "&gt;") ->
  Forall P text -> Forall P (escapeHtml text).
Proof.
  intros Ha Hl Hg H. rewrite escapeHtml_flat_map.
  induction H as [|x t Hx _ IH]; [constructor|]. cbn [flat_map].
  apply Forall_app. split; [|exact IH]. unfold escapeUnit.
  destruct (x =? AMP); [exact Ha|]. destruct (x =? LT); [exact Hl|].
  destruct (x =? GT); [exact Hg|]. now constructor.
Qed.

(** Text without a hash, an asterisk, a backtick or a tilde has no markup:
    rendering it is escaping it. *)
Theorem renderChunk_plain_text (text : str) :
  Forall (fun c => c <> 35 /\ c <> 42 /\ c <> BACKTICK /\ c <> TILDE) text ->
  markdownToTelegramHtmlConservative text = escapeHtml text /\
  renderChunk text = escapeHtml text.
Proof.
  intros Hf.
  assert (He : Forall (fun c => c <> 35 /\ c <> 42 /\ c <> BACKTICK /\ c <> TILDE)
                 (escapeHtml text)).
  { apply escapeHtml_Forall; [repeat constructor; discriminate..|exact Hf]. }
  assert (Hmd : markdownToTelegramHtmlConservative text = escapeHtml text).
  { unfold markdownToTelegramHtmlConservative. cbv zeta.
    assert (H1 : replaceRe headingRe [PLit (lit "<b>"); PGroup 1; PLit (lit "</b>")]
                   (escapeHtml text) = escapeHtml text).
    { apply (replaceRe_none headingRe _ _ _ headingRe_start).
      eapply Forall_impl; [exact He|]. intros c (H & _). now apply N.eqb_neq. }
    rewrite H1.
    assert (H2 : replaceRe boldRe [PLit (lit "<b>"); PGroup 1; PLit (lit "</b>")]
                   (escapeHtml text) = escapeHtml text).
    { apply (replaceRe_none boldRe _ _ _ boldRe_start).
      eapply Forall_impl; [exact He|]. intros c (_ & H & _). now apply N.eqb_neq. }
    rewrite H2.
    apply (replaceRe_none codeRe _ _ _ codeRe_start).
    eapply Forall_impl; [exact He|]. intros c (_ & _ & H & _). now apply N.eqb_neq. }
  split; [exact Hmd|]. unfold renderChunk.
  destruct (extractFencedBlocks_plain text) as [-> _].
  - eapply Forall_impl; [exact Hf|]. now intros c (_ & _ & H1 & H2).
  - now rewrite Hmd.
Qed.

Lemma renderChunk_plain_text_witness :
  Forall (fun c => c <> 35 /\ c <> 42 /\ c <> BACKTICK /\ c <> TILDE) (lit "a<b & c") /\
  markdownToTelegramHtmlConservative (lit "a<b & c") = escapeHtml (lit "a<b & c") /\
  renderChunk (lit "a<b & c") = escapeHtml (lit "a<b & c").
Proof.
  assert (H : Forall (fun c => c <> 35 /\ c <> 42 /\ c <> BACKTICK /\ c <> TILDE)
                (lit "a<b & c")) by (repeat constructor; discriminate).
  split; [exact H|]. exact (renderChunk_plain_text (lit "a<b & c") H).
Defined.

(** ** What normalisation leaves *)

Lemma unifyLineEndings_units (P : N -> Prop) (s : str) :
  P LF -> Forall (fun c => c <> CR -> P c) s -> Forall P (unifyLineEndings s).
Proof.
  intros HLF.
  enough (H : forall n s, (length s <= n)%nat -> Forall (fun c => c <> CR -> P c) s ->
                Forall P (unifyLineEndings s)) by (apply (H (length s)); lia).
  clear s. induction n as [|n IH]; intros s Hn Hs.
  - destruct s; [constructor|simpl in Hn; lia].
  - destruct s as [|c [|d t]]; [constructor| |].
    + cbn [unifyLineEndings]. apply Forall_cons in Hs as [Hc _].
      destruct (N.eqb_spec c CR); repeat constructor; auto.
    + rewrite unifyLineEndings_cons2. cbn [length] in Hn.
      apply Forall_cons in Hs as [Hc Hs]. pose proof Hs as Hs'.
      apply Forall_cons in Hs' as [Hd Ht].
      destruct (N.eqb_spec c CR).
      * constructor; [exact HLF|].
        destruct (d =? LF); apply IH; try (cbn [length]; lia); assumption.
      * constructor; [auto|]. apply IH; [cbn [length]; lia|exact Hs].
Qed.

Lemma flushRun_Forall (P : N -> Prop) (k n : nat) : P LF -> Forall P (flushRun k n).
Proof.
  intros H. unfold flushRun. destruct (k <=? n)%nat; [now repeat constructor|].
  now apply Forall_replicate.
Qed.

Lemma collapseGo_Forall (P : N -> Prop) (k : nat) (s : str) :
  P LF -> Forall P s -> forall p, Forall P (collapseGo k p s).
Proof.
  intros HLF H. induction H as [|c t Hc _ IH]; intros p; cbn [collapseGo].
  - now apply flushRun_Forall.
  - destruct (c =? LF); [apply IH|].
    apply Forall_app. split; [now apply flushRun_Forall|]. constructor; [exact Hc|apply IH].
Qed.

Lemma trimEnd_Forall (P : N -> Prop) (s : str) : Forall P s -> Forall P (trimEnd s).
Proof.
  intros H. destruct (trimEnd_split s) as (r & Hs & _). rewrite Hs in H.
  now apply Forall_app in H as [H _].
Qed.

Lemma trimStart_Forall (P : N -> Prop) (s : str) : Forall P s -> Forall P (trimStart s).
Proof.
  intros H. destruct (trimStart_split s) as (l & Hs & _). rewrite Hs in H.
  now apply Forall_app in H as [_ H].
Qed.

Lemma rtrimLines_Forall (P : N -> Prop) (s : str) :
  P LF -> Forall P s -> Forall P (rtrimLines s).
Proof.
  intros HLF H. unfold rtrimLines. apply join_Forall; [now repeat constructor|].
  apply Forall_map. eapply Forall_impl; [apply (split_Forall P), H|].
  intros x Hx. now apply trimEnd_Forall.
Qed.

(** [normalizeWhitespace] as the four steps, for the proofs below. *)
Lemma normalizeWhitespace_unfold (text : str) :
  normalizeWhitespace text
  = trim (rtrimLines (collapseNewlines 3 (unifyLineEndings text))).
Proof.
  unfold normalizeWhitespace, rtrimLines.
  now rewrite replaceRe_crlfRe, replaceRe_crRe, replaceRe_manyLfRe,
    unifyLineEndings_two_passes.
Qed.

Lemma normalizeWhitespace_units (P : N -> Prop) (text : str) :
  P LF -> Forall (fun c => c <> CR -> P c) text -> Forall P (normalizeWhitespace text).
Proof.
  intros HLF H. rewrite normalizeWhitespace_unfold.
  apply trim_Forall, rtrimLines_Forall; [exact HLF|].
  apply collapseGo_Forall; [exact HLF|]. now apply unifyLineEndings_units.
Qed.

Lemma trimStart_space (w : str) : forallb isSpace w = true -> trimStart w = [].
Proof.
  induction w as [|c w IH]; [reflexivity|]. cbn [forallb trimStart].
  intros H. apply andb_true_iff in H as [Hc Hw]. rewrite Hc. now apply IH.
Qed.

Lemma trimEnd_tail (x : N) (t : str) : trimEnd (x :: t) = x :: t -> trimEnd t = t.
Proof.
  cbn [trimEnd]. destruct (trimEnd t) as [|y t'] eqn:E.
  - destruct (isSpace x); [discriminate|]. now intros [= <-].
  - now intros [= <-].
Qed.

Lemma trimStart_fixed (l : str) : trimEnd l = l -> trimEnd (trimStart l) = trimStart l.
Proof.
  induction l as [|c l IH]; [reflexivity|]. intros H. cbn [trimStart].
  destruct (isSpace c); [|exact H]. apply IH. now apply trimEnd_tail in H.
Qed.

Lemma trimStart_not_nil (l : str) : trimEnd l = l -> l <> [] -> trimStart l <> [].
Proof.
  intros Hf Hne Hs. destruct (trimStart_split l) as (w & Hl & Hw).
  rewrite Hs, app_nil_r in Hl. subst w. rewrite (trimEnd_space l Hw) in Hf. congruence.
Qed.

Lemma trimStart_app (l r : str) : trimStart l <> [] -> trimStart (l ++ r) = trimStart l ++ r.
Proof.
  induction l as [|c l IH]; [done|]. cbn [app trimStart].
  destruct (isSpace c); [exact IH|reflexivity].
Qed.

Lemma join_cons (sep x : str) (l : list str) :
  l <> [] -> join sep (x :: l) = x ++ sep ++ join sep l.
Proof. now destruct l. Qed.

Lemma join_snoc (sep x : str) (l : list str) :
  l <> [] -> join sep (l ++ [x]) = join sep l ++ sep ++ x.
Proof.
  induction l as [|y l IH]; [done|]. intros _. destruct l as [|z l]; [reflexivity|].
  change ((y :: z :: l) ++ [x]) with (y :: (z :: l) ++ [x]).
  rewrite join_cons by (destruct l; discriminate).
  rewrite IH by discriminate. rewrite (join_cons sep y (z :: l)) by discriminate.
  now rewrite <- !app_assoc.
Qed.

Lemma trimStart_join (ls : list str) :
  Forall cleanLine ls ->
  exists ls', trimStart (join [LF] ls) = join [LF] ls' /\ Forall cleanLine ls'.
Proof.
  induction 1 as [|l rest [Hl1 Hl2] Hrest IH]; [now exists []|].
  destruct l as [|c l0].
  - destruct rest as [|r rest']; [now exists []|].
    rewrite join_cons by discriminate. cbn [app trimStart].
    change (isSpace LF) with true. cbv iota. exact IH.
  - assert (Hne : trimStart (c :: l0) <> []) by (now apply trimStart_not_nil).
    exists (trimStart (c :: l0) :: rest). split.
    + destruct rest as [|r rest']; [reflexivity|].
      rewrite !join_cons by discriminate. now apply trimStart_app.
    + constructor; [|exact Hrest]. split; [now apply trimStart_fixed|].
      now apply trimStart_Forall.
Qed.

Lemma trimEnd_join (ls : list str) :
  Forall cleanLine ls ->
  exists ls', trimEnd (join [LF] ls) = join [LF] ls' /\ Forall cleanLine ls'.
Proof.
  induction ls as [|l init IH] using rev_ind; intros H; [now exists []|].
  apply Forall_app in H as [Hinit Hl]. apply Forall_cons in Hl as [[Hl1 Hl2] _].
  destruct init as [|i0 init'].
  - exists [l]. split; [exact Hl1|]. constructor; [split; assumption|constructor].
  - rewrite join_snoc by discriminate. destruct l as [|c l0].
    + rewrite trimEnd_app_space by reflexivity. now apply IH.
    + exists ((i0 :: init') ++ [c :: l0]). split.
      * rewrite join_snoc by discriminate. rewrite app_assoc.
        now apply trimEnd_app_fixed.
      * apply Forall_app. split; [exact Hinit|].
        constructor; [split; assumption|constructor].
Qed.

Lemma split_join_clean (ls : list str) :
  Forall cleanLine ls -> Forall (fun l => trimEnd l = l) (split [LF] (join [LF] ls)).
Proof.
  intros H. destruct ls as [|l ls]; [now repeat constructor|].
  rewrite split_join; [|discriminate|].
  - eapply Forall_impl; [exact H|]. now intros x [Hx _].
  - eapply Forall_impl; [exact H|]. now intros x [_ Hx].
Qed.

(** The normalised text holds no carriage return, is trimmed, and none of
    its lines ends in white space. *)
Theorem normalizeWhitespace_clean (text : str) :
  Forall (fun c => c <> CR) (normalizeWhitespace text) /\
  trim (normalizeWhitespace text) = normalizeWhitespace text /\
  Forall (fun l => trimEnd l = l) (split [LF] (normalizeWhitespace text)).
Proof.
  split; [|split].
  - apply normalizeWhitespace_units; [discriminate|].
    apply Forall_forall. now intros c _ Hc.
  - rewrite normalizeWhitespace_unfold. apply trim_idem.
  - rewrite normalizeWhitespace_unfold. unfold rtrimLines, trim.
    set (u := collapseNewlines 3 (unifyLineEndings text)).
    assert (H0 : Forall cleanLine (List.map trimEnd (split [LF] u))).
    { apply Forall_map. eapply Forall_impl; [apply (split_no_sep LF u)|].
      intros x Hx. split; [apply trimEnd_idem|now apply trimEnd_Forall]. }
    destruct (trimStart_join _ H0) as (ls1 & -> & H1).
    destruct (trimEnd_join _ H1) as (ls2 & -> & H2).
    now apply split_join_clean.
Qed.

(** ** Blank input *)

Lemma forallb_Forall_space (s : str) :
  forallb isSpace s = true <-> Forall (fun c => isSpace c = true) s.
Proof.
  induction s as [|c s IH]; [split; [constructor|reflexivity]|].
  cbn [forallb]. rewrite andb_true_iff, IH. split.
  - intros [H1 H2]. now constructor.
  - intros H. now apply Forall_cons in H.
Qed.

Lemma normalizeWhitespace_blank (text : str) :
  forallb isSpace text = true -> normalizeWhitespace text = [].
Proof.
  intros H. apply forallb_Forall_space in H.
  assert (Hn : Forall (fun c => isSpace c = true)
                 (rtrimLines (collapseNewlines 3 (unifyLineEndings text)))).
  { apply rtrimLines_Forall; [reflexivity|]. apply collapseGo_Forall; [reflexivity|].
    apply unifyLineEndings_units; [reflexivity|].
    eapply Forall_impl; [exact H|]. auto. }
  rewrite normalizeWhitespace_unfold. unfold trim.
  apply forallb_Forall_space in Hn. now rewrite (trimStart_space _ Hn).
Qed.

(** The text between extraction and chunking, for a blank input: empty. *)
Lemma content_blank (text : str) :
  forallb isSpace text = true ->
  extractFencedBlocks text = (text, []) /\ convertTablesToBullets text = [].
Proof.
  intros H. split.
  - apply extractFencedBlocks_plain. apply forallb_Forall_space in H.
    eapply Forall_impl; [exact H|]. intros c Hc.
    split; intros ->; discriminate Hc.
  - unfold convertTablesToBullets. cbv zeta. now rewrite normalizeWhitespace_blank.
Qed.

(** A text of white space only, the empty text included, gives one empty
    chunk under every style, with or without splitting, for every limit
    that is not negative. *)
Theorem preprocess_blank (fuel : nat) (text : str) (o : Options) :
  forallb isSpace text = true ->
  (0 <= default TELEGRAM_MAX_LENGTH (maxChunkLength o))%Z ->
  chunks <$> preprocess fuel (JStr text) o = Some [[]].
Proof.
  intros Hb Hm. unfold preprocess. destruct (content_blank text Hb) as [-> ->].
  cbv zeta. change (restoreFencedBlocks [] [] false) with ([] : str).
  assert (Hs : (if default true (split_ o)
                then splitChunksSafe fuel [] (default TELEGRAM_MAX_LENGTH (maxChunkLength o))
                else Some [[]]) = Some [[]]).
  { destruct (default true (split_ o)); [|reflexivity]. unfold splitChunksSafe.
    cbn [length]. destruct (Z.leb_spec (Z.of_nat 0) (default TELEGRAM_MAX_LENGTH (maxChunkLength o)));
      [reflexivity|lia]. }
  rewrite Hs. cbn [mbind option_bind]. case_bool_decide; reflexivity.
Qed.

Lemma preprocess_blank_witness :
  forallb isSpace [SP; LF; 9] = true /\
  (0 <= default TELEGRAM_MAX_LENGTH (maxChunkLength (mkOptions None (Some true) None None)))%Z /\
  chunks <$> preprocess 0 (JStr [SP; LF; 9]) (mkOptions None (Some true) None None)
    = Some [[]].
Proof.
  assert (H1 : forallb isSpace [SP; LF; 9] = true) by reflexivity.
  assert (H2 : (0 <= default TELEGRAM_MAX_LENGTH
                       (maxChunkLength (mkOptions None (Some true) None None)))%Z)
    by (vm_compute; discriminate).
  split; [exact H1|]. split; [exact H2|].
  exact (preprocess_blank 0 [SP; LF; 9] _ H1 H2).
Defined.

(** ** The command line *)

(** Without [--json], a blank input, whether it comes from [--text], from
    the standard input or from neither, prints nothing. *)
Theorem main_blank_prints_nothing (fuel : nat) (args : list str) (stdin : option str) :
  existsb (fun a => bool_decide (a = lit "--json")) args = false ->
  forallb isSpace (cliInput args stdin) = true ->
  main fuel args stdin = Some [].
Proof.
  intros Hj Hb. unfold main. cbv zeta. rewrite Hj. unfold preprocess.
  destruct (content_blank _ Hb) as [-> ->]. cbv zeta.
  change (restoreFencedBlocks [] [] false) with ([] : str).
  cbn [split_ default from_option id maxChunkLength].
  change (splitChunksSafe fuel [] TELEGRAM_MAX_LENGTH) with (Some [([] : str)]).
  cbn [mbind option_bind]. case_bool_decide; reflexivity.
Qed.

Lemma main_blank_prints_nothing_witness :
  existsb (fun a => bool_decide (a = lit "--json")) [lit "--html"; lit "--text"] = false /\
  forallb isSpace (cliInput [lit "--html"; lit "--text"] (Some [LF])) = true /\
  main 0 [lit "--html"; lit "--text"] (Some [LF]) = Some [].
Proof.
  assert (H1 : existsb (fun a => bool_decide (a = lit "--json"))
                 [lit "--html"; lit "--text"] = false) by (vm_compute; reflexivity).
  assert (H2 : forallb isSpace (cliInput [lit "--html"; lit "--text"] (Some [LF])) = true)
    by (vm_compute; reflexivity).
  split; [exact H1|]. split; [exact H2|].
  exact (main_blank_prints_nothing 0 _ _ H1 H2).
Defined.

(** ** The wrapper: switching off, sending in order, rejections *)

(** After [disable()] every text, a table included, goes out as it is in
    exactly one underlying call; [enable()] brings back the options of a
    wrapper that was enabled. *)
Theorem disable_bypasses {E R : Type} (fuel : nat) (p : TelegramProxy E R)
    (chatId text : jsval) (options : gmap string jsval) (tr : list event) :
  sendMessage fuel (disable p) chatId text options tr =
    (match _client p tr chatId text options with
     | inl e => Thrown e
     | inr r => Done [r]
     end,
     tr ++ [SendMessage chatId text options]) /\
  (po_enabled (_options p) = true -> enable (disable p) = p).
Proof.
  split.
  - unfold sendMessage, disable, setEnabled. cbn [_options _client po_enabled negb orb].
    unfold bind, clientSend. destruct (_client p tr chatId text options); reflexivity.
  - destruct p as [c [st ml sp dl en]]. cbn. now intros ->.
Qed.

Lemma disable_bypasses_witness :
  let p := @mkTelegramProxy unit nat (fun _ _ _ _ => inr 7%nat)
             (mkProxyOptions (lit "telegramPlain") 4096 true 300 true) in
  po_enabled (_options p) = true /\
  sendMessage 0 (disable p) (JNum 1) (JStr priceTable) ∅ []
    = (Done [7%nat], [SendMessage (JNum 1) (JStr priceTable) ∅]) /\
  enable (disable p) = p.
Proof.
  intros p. assert (H : po_enabled (_options p) = true) by reflexivity.
  split; [exact H|].
  destruct (disable_bypasses 0 p (JNum 1) (JStr priceTable) ∅ []) as [H1 H2].
  split; [exact H1|exact (H2 H)].
Defined.

(** With a client that answers every call, the loop sends every chunk, in
    order, pausing before each but the first, and returns one response
    more per chunk. *)
Lemma sendChunks_all {E R : Type} (p : TelegramProxy E R) (chatId : jsval)
    (o : gmap string jsval) (cs : list str) :
  (forall tr c t o', exists r, _client p tr c t o' = inr r) ->
  forall (i : nat) (rs : list R) (tr : list event),
  exists rs',
    sendChunks p chatId o cs i rs tr
    = (Done (rs ++ rs'),
       tr ++ expectedSends (po_chunkDelayMs (_options p)) chatId o i cs) /\
    length rs' = length cs.
Proof.
  intros Hok. induction cs as [|chunk rest IH]; intros i rs tr.
  - exists []. cbn [sendChunks expectedSends]. unfold ret. now rewrite !app_nil_r.
  - cbn [sendChunks expectedSends].
    set (pause := if (0 <? i)%nat && (0 <? po_chunkDelayMs (_options p))%Z
                  then [Sleep (po_chunkDelayMs (_options p))] else []).
    assert (Hpause : forall k : unit -> M E (list R),
              bind (if (0 <? i)%nat && (0 <? po_chunkDelayMs (_options p))%Z
                    then sleep (po_chunkDelayMs (_options p)) else ret tt) k tr
              = k tt (tr ++ pause)).
    { intros k. subst pause. unfold bind, sleep, ret.
      destruct ((0 <? i)%nat && (0 <? po_chunkDelayMs (_options p))%Z);
        [reflexivity|now rewrite app_nil_r]. }
    rewrite Hpause. unfold bind at 1. unfold clientSend.
    destruct (Hok (tr ++ pause) chatId (JStr chunk) o) as [r Hr]. rewrite Hr.
    destruct (IH (S i) (rs ++ [r]) ((tr ++ pause) ++ [SendMessage chatId (JStr chunk) o]))
      as (rs' & Heq & Hlen).
    exists (r :: rs'). split; [|cbn [length]; now rewrite Hlen].
    rewrite Heq. f_equal; [now rewrite <- app_assoc|].
    now rewrite <- !app_assoc.
Qed.

(** On the pipeline path, with a client that answers every call, the
    wrapper makes one underlying call per chunk, in the order of the chunks
    and with the merged options, pauses before every chunk but the first
    when the delay is positive, and returns as many responses as chunks. *)
Theorem sendMessage_sends_all {E R : Type} (fuel : nat) (p : TelegramProxy E R)
    (chatId text : jsval) (options : gmap string jsval) (tr : list event)
    (result : PipelineResult) :
  (forall tr c t o', exists r, _client p tr c t o' = inr r) ->
  po_enabled (_options p) = true ->
  blankOrNotString text = false ->
  preprocess fuel text
    (mkOptions (Some (po_style (_options p))) None
       (Some (po_maxChunkLength (_options p))) (Some (po_split (_options p))))
    = Some result ->
  exists responses,
    sendMessage fuel p chatId text options tr
    = (Done responses,
       tr ++ expectedSends (po_chunkDelayMs (_options p)) chatId
               (mergeParseMode (parseMode result) options) 0 (chunks result)) /\
    length responses = length (chunks result).
Proof.
  intros Hok Hen Htext Hpre. unfold sendMessage.
  rewrite Hen, Htext, Hpre. cbn [negb orb].
  destruct (sendChunks_all p chatId (mergeParseMode (parseMode result) options)
              (chunks result) Hok 0 [] tr) as (rs & Heq & Hlen).
  exists rs. split; [exact Heq|exact Hlen].
Qed.

Lemma sendMessage_sends_all_witness :
  let p := @mkTelegramProxy unit nat (fun _ _ _ _ => inr 7%nat)
             (mkProxyOptions (lit "telegramPlain") 4 true 300 true) in
  exists responses,
    sendMessage 11 p (JNum 1) (JStr (lit "hello world")) ∅ []
    = (Done responses,
       [] ++ expectedSends 300 (JNum 1) (mergeParseMode None ∅) 0
               [lit "hell"; lit "o wo"; lit "rld"]) /\
    length responses = 3%nat.
Proof.
  intros p.
  apply (sendMessage_sends_all 11 p (JNum 1) (JStr (lit "hello world")) ∅ []
           (mkResult [lit "hell"; lit "o wo"; lit "rld"] None)).
  - intros tr c t o'. now exists 7%nat.
  - reflexivity.
  - reflexivity.
  - vm_compute. reflexivity.
Defined.

(** A rejection ends the loop at the rejected send. *)
Lemma sendChunks_thrown {E R : Type} (p : TelegramProxy E R) (chatId : jsval)
    (o : gmap string jsval) (cs : list str) :
  forall (i : nat) (rs : list R) (tr tr' : list event) (e : E),
    sendChunks p chatId o cs i rs tr = (Thrown e, tr') ->
    exists evs t,
      tr' = tr ++ evs ++ [SendMessage chatId t o] /\
      _client p (tr ++ evs) chatId t o = inl e.
Proof.
  induction cs as [|chunk rest IH]; intros i rs tr tr' e; cbn [sendChunks].
  - unfold ret. discriminate.
  - set (pause := if (0 <? i)%nat && (0 <? po_chunkDelayMs (_options p))%Z
                  then [Sleep (po_chunkDelayMs (_options p))] else []).
    assert (Hpause : forall k : unit -> M E (list R),
              bind (if (0 <? i)%nat && (0 <? po_chunkDelayMs (_options p))%Z
                    then sleep (po_chunkDelayMs (_options p)) else ret tt) k tr
              = k tt (tr ++ pause)).
    { intros k. subst pause. unfold bind, sleep, ret.
      destruct ((0 <? i)%nat && (0 <? po_chunkDelayMs (_options p))%Z);
        [reflexivity|now rewrite app_nil_r]. }
    rewrite Hpause. unfold bind at 1. unfold clientSend.
    destruct (_client p (tr ++ pause) chatId (JStr chunk) o) as [e'|r] eqn:Hc.
    + intros [= <- <-]. exists pause, (JStr chunk). split; [now rewrite <- app_assoc|exact Hc].
    + intros H. apply IH in H as (evs & t & -> & Hrej).
      exists (pause ++ SendMessage chatId (JStr chunk) o :: evs), t. split.
      * rewrite <- !app_assoc. reflexivity.
      * rewrite <- Hrej. f_equal. rewrite <- !app_assoc. reflexivity.
Qed.

(** When the wrapper ends with an error, the error is the client's
    rejection of the last call in the trace: nothing is sent after a
    rejected send, and what was sent before stays sent. *)
Theorem sendMessage_rejection {E R : Type} (fuel : nat) (p : TelegramProxy E R)
    (chatId text : jsval) (options : gmap string jsval) (tr tr' : list event) (e : E) :
  sendMessage fuel p chatId text options tr = (Thrown e, tr') ->
  exists evs c t o,
    tr' = tr ++ evs ++ [SendMessage c t o] /\
    _client p (tr ++ evs) c t o = inl e.
Proof.
  unfold sendMessage.
  destruct (negb (po_enabled (_options p)) || blankOrNotString text).
  - unfold bind, clientSend.
    destruct (_client p tr chatId text options) as [e'|r] eqn:Hc; [|discriminate].
    intros [= <- <-]. exists [], chatId, text, options. split; [reflexivity|].
    now rewrite app_nil_r.
  - destruct (preprocess fuel text _) as [result|]; [|discriminate].
    intros H. apply sendChunks_thrown in H as (evs & t & -> & Hrej).
    exists evs, chatId, t, (mergeParseMode (parseMode result) options). auto.
Qed.

Lemma sendMessage_rejection_witness :
  let p := @mkTelegramProxy nat nat
             (fun tr _ _ _ => if (length tr =? 1)%nat then inl 9%nat else inr 7%nat)
             (mkProxyOptions (lit "telegramPlain") 4 true 0 true) in
  sendMessage 11 p (JNum 1) (JStr (lit "hello world")) ∅ []
    = (Thrown 9%nat, [SendMessage (JNum 1) (JStr (lit "hell")) ∅;
                      SendMessage (JNum 1) (JStr (lit "o wo")) ∅]) /\
  exists evs c t o,
    [SendMessage (JNum 1) (JStr (lit "hell")) ∅; SendMessage (JNum 1) (JStr (lit "o wo")) ∅]
      = [] ++ evs ++ [SendMessage c t o] /\
    _client p ([] ++ evs) c t o = inl 9%nat.
Proof.
  intros p.
  assert (H : sendMessage 11 p (JNum 1) (JStr (lit "hello world")) ∅ []
              = (Thrown 9%nat, [SendMessage (JNum 1) (JStr (lit "hell")) ∅;
                                SendMessage (JNum 1) (JStr (lit "o wo")) ∅]))
    by (vm_compute; reflexivity).
  split; [exact H|]. exact (sendMessage_rejection 11 p _ _ _ _ _ _ H).
Defined.

(** ** The matcher against the relation, with the state it returns *)

Lemma repLoop_sound (R : mstate -> mstate -> Prop)
    (body : mstate -> cont -> option mstate) (inner : list nat) (g : bool) :
  (forall x c z, body x c = Some z -> exists y, R x y /\ c y = Some z) ->
  forall (fuel lo : nat) (hi : option nat) (x : mstate) (c : cont) (z : mstate),
    repLoop body inner g fuel lo hi x c = Some z ->
    exists y, RepM R inner lo hi x y /\ c y = Some z.
Proof.
  intros Hbody. induction fuel as [|fuel IH]; intros lo hi x c z; [discriminate|].
  destruct (decide (hi = Some O)) as [->|Hhi].
  - cbn [repLoop]. intros H. exists x. split; [constructor|exact H].
  - rewrite repLoop_S by exact Hhi. cbv zeta.
    assert (Hstep : forall z,
              body (clearCaps inner x)
                (fun y => if (lo =? 0)%nat && (length (ms_rest y) =? length (ms_rest x))%nat
                          then None
                          else repLoop body inner g fuel (pred lo) (pred <$> hi) y c)
              = Some z ->
              exists y, RepM R inner lo hi x y /\ c y = Some z).
    { intros z' H. apply Hbody in H as (y & Hy & H).
      destruct ((lo =? 0)%nat && (length (ms_rest y) =? length (ms_rest x))%nat) eqn:Hc;
        [discriminate|].
      apply IH in H as (y' & Hy' & Hz). exists y'. split; [|exact Hz].
      eapply RepM_step; [exact Hhi|exact Hy| |exact Hy'].
      intros [Hlo Hlen]. apply andb_false_iff in Hc as [Hc|Hc].
      - apply Nat.eqb_neq in Hc. contradiction.
      - apply Nat.eqb_neq in Hc. contradiction. }
    destruct (Nat.eqb_spec lo 0) as [->|Hlo]; [|apply Hstep].
    destruct g.
    + destruct (body _ _) as [z'|] eqn:Hb.
      * intros [= <-]. now apply Hstep.
      * intros H. exists x. split; [constructor|exact H].
    + destruct (c x) as [z'|] eqn:Hc.
      * intros [= <-]. exists x. split; [constructor|exact Hc].
      * apply Hstep.
Qed.

(** What the matcher returns, it returns from a state the pattern leads to. *)
Lemma rxMatch_sound (ml : bool) (r : regex) :
  forall (x : mstate) (c : cont) (z : mstate),
    rxMatch ml r x c = Some z -> exists y, Matches ml r x y /\ c y = Some z.
Proof.
  induction r as [|p|a IHa b IHb|a IHa b IHb|g lo hi a IHa|i a IHa|i| | |p|p];
    intros x c z; cbn [rxMatch Matches].
  - eauto.
  - destruct (ms_rest x) as [|ch t]; [discriminate|].
    destruct (p ch) eqn:Hp; [|discriminate]. intros H.
    eexists. split; [exists ch, t; eauto|exact H].
  - intros H. apply IHa in H as (m & Ha & H). apply IHb in H as (y & Hb & H). eauto.
  - destruct (rxMatch ml a x c) as [z'|] eqn:E.
    + intros [= <-]. apply IHa in E as (y & Hy & Hc). eauto.
    + intros H. apply IHb in H as (y & Hy & Hc). eauto.
  - apply repLoop_sound. exact IHa.
  - intros H. apply IHa in H as (m & Ha & H). eauto.
  - destruct (getCap i (ms_caps x)) as [w|]; [|eauto].
    destruct (isPrefix w (ms_rest x)) eqn:Hw; [|discriminate]. eauto.
  - destruct (ms_prev x) as [q|]; [|eauto].
    destruct (ml && isLineTerminator q) eqn:Hq; [|discriminate]. eauto.
  - destruct (ms_rest x) as [|ch t]; [eauto|].
    destruct (ml && isLineTerminator ch) eqn:Hq; [|discriminate]. eauto.
  - destruct (ms_prev x) as [q|]; [|eauto].
    destruct (p q) eqn:Hq; [discriminate|]. eauto.
  - destruct (ms_rest x) as [|ch t]; [eauto|].
    destruct (p ch) eqn:Hq; [discriminate|]. eauto.
Qed.

Lemma matchHere_Matches (re : RegExp) (prev : option N) (rest : str) (y : mstate) :
  matchHere re prev rest = Some y ->
  Matches (multiline re) (source re) (mkMstate prev rest []) y.
Proof.
  unfold matchHere. intros H. apply rxMatch_sound in H as (y' & Hy & [= ->]). exact Hy.
Qed.

(** A pattern reads a prefix of the input. *)
Lemma RepM_consumes (R : mstate -> mstate -> Prop) (inner : list nat) :
  (forall x y, R x y -> exists w, ms_rest x = w ++ ms_rest y) ->
  forall lo hi x y, RepM R inner lo hi x y -> exists w, ms_rest x = w ++ ms_rest y.
Proof.
  intros HR lo hi x y H. induction H as [| |lo hi x y z _ Hxy _ _ (w' & IH)];
    [now exists []..|].
  apply HR in Hxy as (w & Hw). cbn [clearCaps ms_rest] in Hw.
  exists (w ++ w'). now rewrite Hw, IH, app_assoc.
Qed.

Lemma Matches_consumes (ml : bool) (r : regex) :
  forall x y, Matches ml r x y -> exists w, ms_rest x = w ++ ms_rest y.
Proof.
  induction r as [|p|a IHa b IHb|a IHa b IHb|g lo hi a IHa|i a IHa|i| | |p|p];
    intros x y; cbn [Matches].
  - intros ->. now exists [].
  - intros (ch & t & Hx & _ & ->). exists [ch]. now rewrite Hx.
  - intros (m & Ha & Hb). apply IHa in Ha as (w1 & H1). apply IHb in Hb as (w2 & H2).
    exists (w1 ++ w2). now rewrite H1, H2, app_assoc.
  - intros [H|H]; auto.
  - now apply RepM_consumes.
  - intros (m & Ha & ->). now apply IHa in Ha.
  - destruct (getCap i (ms_caps x)); [|intros ->; now exists []].
    intros [_ ->]. cbn [ms_rest]. exists (take (length l) (ms_rest x)). now rewrite take_drop.
  - intros H. assert (y = x) as -> by (destruct (ms_prev x); [exact (proj2 H)|exact H]).
    now exists [].
  - intros H. assert (y = x) as -> by (destruct (ms_rest x); [exact H|exact (proj2 H)]).
    now exists [].
  - intros H. assert (y = x) as -> by (destruct (ms_prev x); [exact (proj2 H)|exact H]).
    now exists [].
  - intros H. assert (y = x) as -> by (destruct (ms_rest x); [exact H|exact (proj2 H)]).
    now exists [].
Qed.

(** ** What a fenced block is made of *)

Lemma Matches_RLit (ml : bool) (s : str) :
  forall x y, Matches ml (RLit s) x y ->
    ms_rest x = s ++ ms_rest y /\ ms_caps y = ms_caps x.
Proof.
  induction s as [|c s IH]; intros x y; [cbn [RLit Matches]; now intros ->|].
  destruct s as [|d s].
  - cbn [RLit Matches]. intros (ch & t & Hx & Hc & ->). apply N.eqb_eq in Hc. subst ch.
    now rewrite Hx.
  - change (RLit (c :: d :: s)) with (RSeq (RChar (N.eqb c)) (RLit (d :: s))).
    cbn [Matches]. intros (m & (ch & t & Hx & Hc & ->) & H).
    apply N.eqb_eq in Hc. subst ch. apply IH in H as [H1 H2].
    cbn [ms_rest ms_caps] in H1, H2. rewrite Hx, H1. auto.
Qed.

Lemma RepM_class_caps (ml : bool) (p : N -> bool) :
  forall lo hi x y, RepM (Matches ml (RChar p)) [] lo hi x y -> ms_caps y = ms_caps x.
Proof.
  intros lo hi x y H. induction H as [| |lo hi x y z _ Hxy _ _ IH]; [reflexivity..|].
  rewrite clearCaps_nil in Hxy. cbn [Matches] in Hxy.
  destruct Hxy as (ch & t & _ & _ & ->). exact IH.
Qed.

(** A match of the fence pattern: delimiter, tag of word units, line feed,
    body, the same delimiter, white space; the groups hold the first
    delimiter, the tag and the body. *)
Lemma fenceRe_match (prev : option N) (rest : str) (y : mstate) :
  matchHere fenceRe prev rest = Some y ->
  exists fence tag body ws,
    (fence = lit "```" \/ fence = lit "~~~") /\
    forallb isWord tag = true /\ forallb isSpace ws = true /\
    rest = fence ++ tag ++ [LF] ++ body ++ fence ++ ws ++ ms_rest y /\
    atLineEnd (ms_rest y) = true /\
    ms_caps y = [(3%nat, body); (2%nat, tag); (1%nat, fence)].
Proof.
  intros H. apply matchHere_Matches in H. unfold fenceRe, RStar in H.
  cbn [source multiline Matches groupsOf] in H.
  destruct H as (m1 & (m1' & Hfence & ->) & m2 & (m2' & Htag & ->) & m3
                 & (ch & t & Hlf & Hch & ->) & m4 & (m4' & Hbody & ->) & m5 & Hback
                 & m6 & Hws & Hend).
  cbn [ms_rest ms_caps ms_prev] in *.
  assert (Hf : exists fence, (fence = lit "```" \/ fence = lit "~~~") /\
                 rest = fence ++ ms_rest m1' /\ ms_caps m1' = []).
  { destruct Hfence as [Hf|Hf]; apply Matches_RLit in Hf as [Hf1 Hf2];
      cbn [ms_rest ms_caps] in Hf1, Hf2; eauto. }
  destruct Hf as (fence & Hfence' & Hrest1 & Hcaps1).
  rewrite Hrest1, Hcaps1 in *.
  rewrite length_app, Nat.add_sub, take_app_length in *.
  pose proof (RepM_class_caps true isWord _ _ _ _ Htag) as Hcaps2.
  apply (RepM_class_elim true isWord) in Htag as (tag & Htag1 & Htag2 & _).
  cbn [ms_rest ms_caps] in Htag1, Hcaps2. rewrite Htag1 in *.
  rewrite length_app, Nat.add_sub, take_app_length in *.
  apply N.eqb_eq in Hch. subst ch. rewrite Hcaps2 in *.
  pose proof (RepM_class_caps true isAny _ _ _ _ Hbody) as Hcaps3.
  apply (RepM_class_elim true isAny) in Hbody as (body & Hbody1 & _ & _).
  cbn [ms_rest ms_caps] in Hbody1, Hcaps3. rewrite Hlf in *. subst t.
  rewrite length_app, Nat.add_sub, take_app_length in *. rewrite Hcaps3 in *.
  cbn [getCap Nat.eqb] in Hback. destruct Hback as [Hpre ->].
  pose proof (RepM_class_caps true isSpace _ _ _ _ Hws) as Hcaps4.
  apply (RepM_class_elim true isSpace) in Hws as (ws & Hws1 & Hws2 & _).
  cbn [ms_rest ms_caps] in Hws1, Hcaps4.
  assert (Hm6 : y = m6).
  { destruct (ms_rest m6) as [|c6 t6]; [exact Hend|exact (proj2 Hend)]. }
  assert (Heol : atLineEnd (ms_rest m6) = true).
  { unfold atLineEnd. destruct (ms_rest m6) as [|c6 t6]; [reflexivity|].
    exact (proj1 Hend). }
  subst y. exists fence, tag, body, ws. split; [exact Hfence'|].
  split; [exact Htag2|]. split; [exact Hws2|]. split; [|split; [exact Heol|exact Hcaps4]].
  f_equal. f_equal. cbn [app]. f_equal. f_equal.
  assert (Hdrop : ms_rest m4' = fence ++ drop (length fence) (ms_rest m4')).
  { clear -Hpre. revert Hpre. generalize (ms_rest m4'). induction fence as [|f fence IH];
      intros [|c s] H; cbn [isPrefix drop app length] in *; try discriminate; try reflexivity.
    apply andb_true_iff in H as [Hc H]. apply N.eqb_eq in Hc. subst. f_equal. now apply IH. }
  rewrite Hdrop at 1. now rewrite Hws1.
Qed.

Lemma rxSearch_found (re : RegExp) (rest : str) :
  forall prev idx m, rxSearch re prev rest idx = Some m ->
    exists pre prev' rest' y,
      rest = pre ++ rest' /\ matchHere re prev' rest' = Some y /\
      m_caps m = ms_caps y /\ m_after m = ms_rest y /\
      m_text m = take (length rest' - length (ms_rest y)) rest'.
Proof.
  induction rest as [|c t IH]; intros prev idx m; cbn [rxSearch];
    destruct (matchHere re prev _) as [y|] eqn:E.
  - intros [= <-]. exists [], prev, [], y. auto.
  - discriminate.
  - intros [= <-]. exists [], prev, (c :: t), y. auto.
  - intros H. apply IH in H as (pre & prev' & rest' & y & -> & H).
    exists (c :: pre), prev', rest', y. auto.
Qed.

Lemma execAll_found (re : RegExp) (fuel : nat) :
  forall prev rest pos m, In m (execAll fuel re prev rest pos) ->
    exists pre prev' rest' y,
      (exists pre0, rest = pre0 ++ pre ++ rest') /\ matchHere re prev' rest' = Some y /\
      m_caps m = ms_caps y /\
      m_text m = take (length rest' - length (ms_rest y)) rest'.
Proof.
  induction fuel as [|fuel IH]; intros prev rest pos m; cbn [execAll]; [intros []|].
  destruct (rxSearch re prev rest pos) as [m0|] eqn:Hs; [|intros []].
  apply rxSearch_found in Hs as (pre & prev' & rest' & y & Hrest & Hy & Hc & Ha & Ht).
  intros [<-|Hin].
  - exists pre, prev', rest', y. split; [exists []; exact Hrest|auto].
  - apply matchHere_Matches, Matches_consumes in Hy as Hw. destruct Hw as (w & Hw).
    cbn [ms_rest] in Hw.
    assert (Hsub : forall after', (exists q, m_after m0 = q ++ after') ->
              exists q, rest = q ++ after').
    { intros after' (q & Hq). rewrite Ha in Hq. exists (pre ++ w ++ q).
      rewrite Hrest, Hw, Hq. now rewrite <- !app_assoc. }
    destruct (m_text m0) as [|x0 tx].
    + destruct (m_after m0) as [|ch t] eqn:Haf; [destruct Hin|].
      apply IH in Hin as (pre1 & prev1 & rest1 & y1 & (pre0 & Hr1) & H1).
      exists pre1, prev1, rest1, y1. split; [|exact H1].
      destruct (Hsub (pre1 ++ rest1)) as (q & Hq); [exists (ch :: pre0); now rewrite Hr1|].
      exists q. exact Hq.
    + apply IH in Hin as (pre1 & prev1 & rest1 & y1 & (pre0 & Hr1) & H1).
      exists pre1, prev1, rest1, y1. split; [|exact H1].
      destruct (Hsub (pre1 ++ rest1)) as (q & Hq); [exists pre0; exact Hr1|].
      exists q. exact Hq.
Qed.

(** Every block that [extractFencedBlocks] returns has one of the two
    delimiters and a tag of word units, and stands in the text as delimiter,
    tag, line feed, body, delimiter, then white space that runs up to a line
    end: what follows it is nothing or starts with a line terminator. *)
Theorem extractFencedBlocks_blocks (text : str) :
  Forall (fun b =>
    (fenceType b = lit "```" \/ fenceType b = lit "~~~") /\
    forallb isWord (lang b) = true /\
    exists before ws after,
      forallb isSpace ws = true /\
      atLineEnd after = true /\
      text = before ++ fenceType b ++ lang b ++ [LF] ++ body b ++ fenceType b
               ++ ws ++ after)
    (extractFencedBlocks text).2.
Proof.
  unfold extractFencedBlocks. cbv zeta. cbn [snd]. apply Forall_map.
  apply Forall_forall. intros m Hm. apply list_elem_of_In in Hm.
  unfold matchAll in Hm.
  apply execAll_found in Hm as (pre & prev' & rest' & y & (pre0 & Htext) & Hy & Hc & _).
  apply fenceRe_match in Hy
    as (fence & tag & bd & ws & Hf & Htag & Hws & Hrest & Heol & Hcaps).
  unfold group. rewrite Hc, Hcaps. cbn [getCap Nat.eqb default from_option id lang body fenceType].
  split; [exact Hf|]. split; [exact Htag|].
  exists (pre0 ++ pre), ws, (ms_rest y). split; [exact Hws|]. split; [exact Heol|].
  rewrite Htext, Hrest. now rewrite <- !app_assoc.
Qed.

(** ** Units that pass through the pipeline *)

Lemma splitLoopRe_Forall (P : N -> Prop) (re : RegExp) (fuel : nat) :
  forall prev cur rest, Forall P cur -> Forall P rest ->
    Forall (Forall P) (splitLoopRe fuel re prev cur rest).
Proof.
  induction fuel as [|fuel IH]; intros prev cur rest Hc Hr; cbn [splitLoopRe].
  - constructor; [|constructor]. now apply Forall_app.
  - destruct rest as [|ch t]; [now repeat constructor|].
    pose proof Hr as Hr'. apply Forall_cons in Hr' as [Hch Ht].
    assert (Hmove : Forall (Forall P) (splitLoopRe fuel re (Some ch) (cur ++ [ch]) t)).
    { apply IH; [|exact Ht]. apply Forall_app. split; [exact Hc|now repeat constructor]. }
    destruct (matchHere re prev (ch :: t)) as [y|] eqn:E; [|exact Hmove].
    apply matchHere_Matches, Matches_consumes in E as (w & Hw). cbn [ms_rest] in Hw.
    assert (Hy : Forall P (ms_rest y)).
    { rewrite Hw in Hr. now apply Forall_app in Hr as [_ Hr]. }
    destruct ((length (ms_rest y) =? length (ch :: t))%nat && negb (nonEmpty cur));
      [exact Hmove|].
    destruct (length (ms_rest y) =? length (ch :: t))%nat.
    + constructor; [exact Hc|]. apply IH; [constructor|exact Hr].
    + constructor; [exact Hc|]. apply IH; [constructor|exact Hy].
Qed.

Lemma splitRe_Forall (P : N -> Prop) (re : RegExp) (s : str) :
  Forall P s -> Forall (Forall P) (splitRe re s).
Proof.
  intros H. unfold splitRe. destruct s as [|c s].
  - destruct (matchHere re None []); now repeat constructor.
  - apply splitLoopRe_Forall; [constructor|exact H].
Qed.

Lemma bulletOf_units (P : N -> Prop) (headers : list str) (row : str) :
  P BULLET -> P SP -> P MIDDOT -> P EMDASH -> P 58 ->
  Forall (Forall P) headers -> Forall P row -> Forall P (bulletOf headers row).
Proof.
  intros Hb Hsp Hmid Hem Hcolon Hh Hr. unfold bulletOf. cbv zeta.
  set (display := List.map (fun c => if nonEmpty c then c else [EMDASH]) (parseRow row)).
  assert (Hsep : Forall P [SP; MIDDOT; SP]) by (now repeat constructor).
  assert (Hd : Forall (Forall P) display).
  { apply Forall_map. eapply Forall_impl; [apply (parseRow_Forall P), Hr|].
    intros x Hx. cbn beta. destruct (nonEmpty x); [exact Hx|]. now repeat constructor. }
  destruct (length headers =? length display)%nat.
  - constructor; [exact Hb|]. constructor; [exact Hsp|].
    apply join_Forall; [exact Hsep|].
    apply Forall_forall. intros x Hx.
    apply elem_of_lookup_imap_1 in Hx as (i & h & -> & Hi).
    apply Forall_app. split.
    + eapply Forall_forall in Hh; [exact Hh|]. eapply list_elem_of_lookup_2, Hi.
    + apply Forall_app. split; [now repeat constructor|].
      destruct (display !! i) as [y|] eqn:Hy; [|constructor].
      cbn [default]. eapply Forall_forall in Hd; [exact Hd|].
      eapply list_elem_of_lookup_2, Hy.
  - constructor; [exact Hb|]. constructor; [exact Hsp|]. now apply join_Forall.
Qed.

Lemma processBlock_units (P : N -> Prop) (block : str) :
  P BULLET -> P SP -> P MIDDOT -> P EMDASH -> P 58 -> P LF ->
  Forall P block -> Forall P (processBlock block).
Proof.
  intros Hb Hsp Hmid Hem Hcolon Hlf H. rewrite processBlock_cases.
  assert (Ht : Forall P (trim block)) by (now apply trim_Forall).
  destruct (isTable (trim block)) eqn:E; [|exact Ht].
  rewrite (tableToBullets_table _ E).
  pose proof (split_Forall P LF (trim block) Ht) as Hlines.
  apply join_Forall; [now repeat constructor|]. apply Forall_map.
  eapply Forall_impl; [apply Forall_List_filter, Forall_drop, Hlines|].
  intros row Hrow. apply bulletOf_units; try assumption.
  apply parseRow_Forall.
  destruct (split [LF] (trim block) !! 0%nat) as [a|] eqn:Ha; [|constructor].
  eapply Forall_forall in Hlines; [exact Hlines|]. eapply list_elem_of_lookup_2, Ha.
Qed.

Lemma convertTablesToBullets_units (P : N -> Prop) (text : str) :
  P BULLET -> P SP -> P MIDDOT -> P EMDASH -> P 58 -> P LF ->
  Forall (fun c => c <> CR -> P c) text -> Forall P (convertTablesToBullets text).
Proof.
  intros Hb Hsp Hmid Hem Hcolon Hlf H. unfold convertTablesToBullets. cbv zeta.
  apply join_Forall; [now repeat constructor|]. apply Forall_List_filter, Forall_map.
  eapply Forall_impl; [apply (splitRe_Forall P), normalizeWhitespace_units; assumption|].
  intros x Hx. now apply processBlock_units.
Qed.

Lemma slice_Forall (P : N -> Prop) (s : str) (a b : Z) : Forall P s -> Forall P (slice s a b).
Proof. intros H. unfold slice. cbv zeta. now apply Forall_take, Forall_drop. Qed.

Lemma splitLoop_units (P : N -> Prop) (text : str) (maxLen : Z) :
  Forall P text ->
  forall (fuel : nat) (start : Z) (cs res : list str),
    Forall (Forall P) cs -> splitLoop fuel text maxLen start cs = Some res ->
    Forall (Forall P) res.
Proof.
  intros Ht. induction fuel as [|fuel IH]; intros start cs res Hcs; cbn [splitLoop].
  - destruct (start <? Z.of_nat (length text))%Z; [discriminate|]. now intros [= <-].
  - destruct (start <? Z.of_nat (length text))%Z; [|now intros [= <-]].
    cbv zeta. apply IH. apply Forall_app. split; [exact Hcs|].
    constructor; [|constructor]. now apply trim_Forall, slice_Forall.
Qed.

(** Line endings stay unified: the text after table conversion holds no
    carriage return, and neither does any chunk of the plain style when the
    text holds no fence delimiter. *)
Theorem pipeline_no_carriage_return (fuel : nat) (text : str) (o : Options)
    (r : PipelineResult) :
  Forall (fun c => c <> CR) (convertTablesToBullets text) /\
  (Forall (fun c => c <> BACKTICK /\ c <> TILDE) text ->
   preprocess fuel (JStr text) o = Some r -> parseMode r = None ->
   Forall (Forall (fun c => c <> CR)) (chunks r)).
Proof.
  assert (Hconv : Forall (fun c => c <> CR) (convertTablesToBullets text)).
  { apply convertTablesToBullets_units; try discriminate.
    apply Forall_forall. now intros c _ Hc. }
  split; [exact Hconv|]. intros Hf. unfold preprocess.
  destruct (extractFencedBlocks_plain text Hf) as [-> _]. cbv zeta.
  change (restoreFencedBlocks (convertTablesToBullets text) [] false)
    with (convertTablesToBullets text).
  set (content := convertTablesToBullets text) in *.
  assert (Hchunks : forall cs,
            (if default true (split_ o)
             then splitChunksSafe fuel content (default TELEGRAM_MAX_LENGTH (maxChunkLength o))
             else Some [content]) = Some cs ->
            Forall (Forall (fun c => c <> CR)) cs).
  { intros cs. destruct (default true (split_ o)).
    - unfold splitChunksSafe. destruct (_ <=? _)%Z.
      + intros [= <-]. now repeat constructor.
      + destruct (splitLoop fuel content _ 0 []) as [res|] eqn:Hres; [|discriminate].
        cbn. intros [= <-]. apply Forall_List_filter.
        eapply (splitLoop_units _ content); [exact Hconv| |exact Hres]. constructor.
    - intros [= <-]. now repeat constructor. }
  destruct (if default true (split_ o) then _ else _) as [cs|] eqn:Hcs; [|discriminate].
  cbn [mbind option_bind]. case_bool_decide; intros [= <-]; cbn [parseMode chunks];
    [discriminate|]. intros _. now apply Hchunks.
Qed.

Lemma pipeline_no_carriage_return_witness :
  let text := lit "a" ++ [CR; LF] ++ lit "b" ++ [CR] ++ lit "c" in
  Forall (fun c => c <> BACKTICK /\ c <> TILDE) text /\
  preprocess 0 (JStr text) (mkOptions None None None None)
    = Some (mkResult [join [LF] [lit "a"; lit "b"; lit "c"]] None) /\
  Forall (Forall (fun c => c <> CR)) [join [LF] [lit "a"; lit "b"; lit "c"]].
Proof.
  intros text.
  assert (H1 : Forall (fun c => c <> BACKTICK /\ c <> TILDE) text)
    by (repeat constructor; discriminate).
  assert (H2 : preprocess 0 (JStr text) (mkOptions None None None None)
               = Some (mkResult [join [LF] [lit "a"; lit "b"; lit "c"]] None))
    by (vm_compute; reflexivity).
  split; [exact H1|]. split; [exact H2|].
  exact (proj2 (pipeline_no_carriage_return 0 text _ _) H1 H2 eq_refl).
Defined.

(** ** The separator pattern and the default wrapper *)

(** [TABLE_SEPARATOR_RE] accepts exactly the lines made of one or more
    groups of a pipe and one or more blanks, hyphens or colons, then a
    closing pipe, then white space; such a line starts with a pipe and
    holds nothing but pipes and units of the class. *)
Theorem TABLE_SEPARATOR_RE_lines (l : str) :
  (test TABLE_SEPARATOR_RE l = true <->
   exists u w, l = u ++ PIPE :: w /\ SepGroups u /\ forallb isSpace w = true) /\
  (test TABLE_SEPARATOR_RE l = true ->
   isPrefix [PIPE] l = true /\
   Forall (fun c => c = PIPE \/ isSepUnit c = true) l).
Proof.
  split; [apply test_separator|]. intros H.
  apply test_separator in H as (u & w & -> & Hu & Hw). split.
  - destruct (SepGroups_head u Hu) as (t & ->). reflexivity.
  - apply Forall_app. split.
    + clear Hw. induction Hu as [m _ Hm|m u _ Hm _ IH].
      * constructor; [now left|]. apply Forall_forall. intros c Hc. right.
        rewrite forallb_forall in Hm. apply Hm. now apply list_elem_of_In.
      * constructor; [now left|]. apply Forall_app. split; [|exact IH].
        apply Forall_forall. intros c Hc. right.
        rewrite forallb_forall in Hm. apply Hm. now apply list_elem_of_In.
    + constructor; [now left|]. apply Forall_forall. intros c Hc. right.
      rewrite forallb_forall in Hw. apply list_elem_of_In, Hw in Hc.
      unfold isSepUnit. now rewrite Hc.
Qed.

Lemma TABLE_SEPARATOR_RE_lines_witness :
  test TABLE_SEPARATOR_RE (lit "|:--|--:| ") = true /\
  isPrefix [PIPE] (lit "|:--|--:| ") = true /\
  Forall (fun c => c = PIPE \/ isSepUnit c = true) (lit "|:--|--:| ").
Proof.
  assert (H : test TABLE_SEPARATOR_RE (lit "|:--|--:| ") = true) by (vm_compute; reflexivity).
  split; [exact H|]. exact (proj2 (TABLE_SEPARATOR_RE_lines _) H).
Defined.

Lemma preprocess_plain_parseMode (fuel : nat) (text : jsval) (s : str)
    (ml : option Z) (sp : option bool) (r : PipelineResult) :
  s <> lit "telegramHtml" ->
  preprocess fuel text (mkOptions (Some s) None ml sp) = Some r -> parseMode r = None.
Proof.
  intros Hs. unfold preprocess. cbv zeta. cbn [style].
  destruct text; try (now intros [= <-]).
  destruct (extractFencedBlocks s0) as [w b].
  destruct (if default true _ then _ else _) as [cs|]; [|discriminate].
  cbn [mbind option_bind]. case_bool_decide; [contradiction|]. now intros [= <-].
Qed.

(** A wrapper whose style is not the HTML style, the default one included,
    hands the caller's options as they are to every underlying send,
    whatever the text. *)
Theorem plain_proxy_keeps_options {E R : Type} (fuel : nat) (p : TelegramProxy E R)
    (chatId text : jsval) (options : gmap string jsval) (tr : list event) :
  po_style (_options p) <> lit "telegramHtml" ->
  exists evs,
    (sendMessage fuel p chatId text options tr).2 = tr ++ evs /\
    forall c t o', SendMessage c t o' ∈ evs -> c = chatId /\ o' = options.
Proof.
  intros Hs. unfold sendMessage.
  destruct (negb (po_enabled (_options p)) || blankOrNotString text).
  - exists [SendMessage chatId text options]. split.
    + unfold bind, clientSend. now destruct (_client p tr chatId text options).
    + intros c t o' H. apply list_elem_of_singleton in H. now inversion H.
  - destruct (preprocess fuel text _) as [result|] eqn:Hpre.
    + apply (preprocess_plain_parseMode _ _ _ _ _ _ Hs) in Hpre. rewrite Hpre.
      apply sendChunks_trace.
    + exists []. split; [cbn; now rewrite app_nil_r|]. intros c t o' H. inversion H.
Qed.

Lemma plain_proxy_keeps_options_witness :
  let p := @mkTelegramProxy unit nat (fun _ _ _ _ => inr 7%nat)
             (mkProxyOptions (lit "telegramPlain") 4096 true 300 true) in
  createProxy (Some (_client p)) (mkProxyConfig None None None None None) = Some p /\
  po_style (_options p) <> lit "telegramHtml" /\
  exists evs,
    (sendMessage 0 p (JNum 1) (JStr (lit "hi")) {[ "reply_to"%string := JNum 5 ]} []).2
      = [] ++ evs /\
    forall c t o', SendMessage c t o' ∈ evs ->
      c = JNum 1 /\ o' = {[ "reply_to"%string := JNum 5 ]}.
Proof.
  intros p.
  assert (H : po_style (_options p) <> lit "telegramHtml") by (vm_compute; discriminate).
  split; [reflexivity|]. split; [exact H|].
  exact (plain_proxy_keeps_options 0 p _ _ _ _ H).
Defined.

(** ** Fence lines and the entry point *)

Lemma trimStart_skip (l s : str) :
  forallb isSpace l = true -> trimStart (l ++ s) = trimStart s.
Proof.
  induction l as [|c l IH]; [reflexivity|]. cbn [forallb app trimStart].
  intros H. apply andb_true_iff in H as [Hc Hl]. rewrite Hc. now apply IH.
Qed.

(** [isFenceLine] accepts exactly the lines that are one of the two
    delimiters between white space, so a delimiter followed by a language
    tag is no fence line; the test of the length never decides. *)
Theorem isFenceLine_bare_delimiter (line : str) :
  isFenceLine line = true <->
  exists l d r,
    (d = lit "```" \/ d = lit "~~~") /\ line = l ++ d ++ r /\
    forallb isSpace l = true /\ forallb isSpace r = true.
Proof.
  unfold isFenceLine. cbv zeta. split.
  - intros H. apply andb_true_iff in H as [H _]. apply orb_true_iff in H.
    destruct (trim_split line) as (l & r & Hline & Hl & Hr).
    exists l, (trim line), r. split; [|now split].
    destruct H as [H|H]; apply bool_decide_eq_true in H; [now left|now right].
  - intros (l & d & r & Hd & -> & Hl & Hr).
    assert (Ht : trim (l ++ d ++ r) = d).
    { unfold trim. rewrite (trimStart_skip l _ Hl).
      destruct Hd as [-> | ->].
      - change (trimStart (lit "```" ++ r)) with (lit "```" ++ r).
        now rewrite (trimEnd_app_space _ r Hr).
      - change (trimStart (lit "~~~" ++ r)) with (lit "~~~" ++ r).
        now rewrite (trimEnd_app_space _ r Hr). }
    rewrite Ht. destruct Hd as [-> | ->]; reflexivity.
Qed.

Lemma isFenceLine_bare_delimiter_witness :
  isFenceLine (lit "  ~~~ ") = true /\ isFenceLine (lit "```js") = false.
Proof.
  split.
  - apply (proj2 (isFenceLine_bare_delimiter (lit "  ~~~ "))).
    exists (lit "  "), (lit "~~~"), (lit " "). now repeat split; try right.
  - reflexivity.
Defined.

(** The test for the entry script never decides: the module calls [main]
    exactly when [process.argv] has more than one entry, so also when it is
    imported by a program that node runs under any other name. *)
Theorem shouldCallMain_argv (filename : str) (argv : list str) :
  shouldCallMain filename argv = (1 <? length argv)%nat /\
  forall node script rest, shouldCallMain filename (node :: script :: rest) = true.
Proof.
  assert (H : shouldCallMain filename argv = (1 <? length argv)%nat).
  { unfold shouldCallMain, isEntryScript, entryArg.
    destruct argv as [|a [|b rest]]; [reflexivity..|].
    cbn [length]. now rewrite orb_true_r. }
  split; [exact H|]. intros node script rest.
  unfold shouldCallMain. cbn [length]. now rewrite orb_true_r.
Qed.
